(** * SynMap: the attribute auto-mapper, the name normaliser and the two
    schema extractors of [SynMap.py], embedded and verified.

    Python strings are sequences of Unicode code points; a code point is an
    [N] and a string a [list N].  Everything the program asks of the Unicode
    character database ([unicodedata], [str.lower], [str.upper],
    [str.strip], the classes [\w] and [\s] of [re]) goes through the class
    [UCD]; the fuzzy scorer of [fuzzywuzzy] is a function handed to the
    mapper, as in the source where [fuzz.partial_ratio] is passed to
    [process.extract]. *)

From Stdlib Require Import ZArith NArith List Bool Lia Ascii String.
From stdpp Require Import base option list gmap.

Local Open Scope N_scope.

Abbreviation pystr := (list N).

(** An ASCII literal as a Python string. *)
Definition py (s : string) : pystr :=
  List.map N_of_ascii (list_ascii_of_string s).

(** The code point of a one-character ASCII literal. *)
Definition ch (s : string) : N := hd 0 (py s).

(** ** The Unicode character database *)

Class UCD := {
  (** full compatibility decomposition of one code point (the NFKD mapping) *)
  decomposition : N → pystr;
  (** canonical combining class, [unicodedata.combining] *)
  combining : N → N;
  (** simple lower-case mapping, used by [re] under IGNORECASE *)
  tolower : N → N;
  (** full case mappings of one code point *)
  lower_full : N → pystr;
  upper_full : N → pystr;
  (** [str.isspace] and [str.isalnum] on one code point *)
  isspace : N → bool;
  isalnum : N → bool;
  (** the properties Cased and Case_Ignorable *)
  iscased : N → bool;
  iscaseignorable : N → bool
}.

Definition QUOTATION_MARK : N := 34.
Definition APOSTROPHE : N := 39.
Definition LOW_LINE : N := 95.
Definition LINE_FEED : N := 10.
Definition CARRIAGE_RETURN : N := 13.
Definition CAPITAL_SIGMA : N := 931.
Definition SMALL_SIGMA : N := 963.
Definition SMALL_FINAL_SIGMA : N := 962.

Definition in_ranges (rs : list (N * N)) (c : N) : bool :=
  existsb (λ r, (r.1 <=? c) && (c <=? r.2)) rs.

(** ** String methods *)

Fixpoint dropwhile {A} (p : A → bool) (l : list A) : list A :=
  match l with
  | [] => []
  | x :: l' => if p x then dropwhile p l' else l
  end.

(** [s.startswith(p)] *)
Fixpoint startswith (p s : pystr) : bool :=
  match p, s with
  | [], _ => true
  | _ :: _, [] => false
  | a :: p', b :: s' => (a =? b) && startswith p' s'
  end.

(** [s.replace(c, '')] for a one-character [c] *)
Definition remove_char (c : N) (s : pystr) : pystr :=
  List.filter (λ x, negb (x =? c)) s.

(** [s.rstrip(chars)] *)
Definition rstrip_chars (chars : pystr) (s : pystr) : pystr :=
  rev (dropwhile (λ x, existsb (N.eqb x) chars) (rev s)).

(** [s.split(sep)] for a one-character separator: the pieces between
    occurrences of [sep], always at least one piece. *)
Fixpoint split_on_aux (sep : N) (cur : pystr) (s : pystr) : list pystr :=
  match s with
  | [] => [rev cur]
  | c :: s' =>
      if c =? sep then rev cur :: split_on_aux sep [] s'
      else split_on_aux sep (c :: cur) s'
  end.

Definition split_on (sep : N) (s : pystr) : list pystr := split_on_aux sep [] s.

(** The line boundaries of [str.splitlines]. *)
Definition islinebreak (c : N) : bool :=
  existsb (N.eqb c) [10; 11; 12; 13; 28; 29; 30; 133; 8232; 8233].

(** [s.splitlines()]: a CR LF pair is one boundary, and a boundary at the
    very end opens no further line. *)
Fixpoint splitlines_aux (cur : pystr) (s : pystr) : list pystr :=
  match s with
  | [] => match cur with [] => [] | _ => [rev cur] end
  | c :: s' =>
      if c =? CARRIAGE_RETURN then
        match s' with
        | c' :: s'' =>
            if c' =? LINE_FEED then rev cur :: splitlines_aux [] s''
            else rev cur :: splitlines_aux [] s'
        | [] => [rev cur]
        end
      else if islinebreak c then rev cur :: splitlines_aux [] s'
      else splitlines_aux (c :: cur) s'
  end.

Definition splitlines (s : pystr) : list pystr := splitlines_aux [] s.

Section StringMethods.
Context `{U : UCD}.

(** [s.strip()] *)
Definition strip (s : pystr) : pystr :=
  rev (dropwhile isspace (rev (dropwhile isspace s))).

(** [s.upper()] *)
Definition upper (s : pystr) : pystr := flat_map upper_full s.

(** The Final_Sigma test of [str.lower]: [before] holds the code points
    that precede the capital sigma, nearest first, [after] those that
    follow it. *)
Definition handle_capital_sigma (before after : pystr) : N :=
  let preceded :=
    match dropwhile iscaseignorable before with
    | c :: _ => iscased c
    | [] => false
    end in
  let followed :=
    match dropwhile iscaseignorable after with
    | c :: _ => iscased c
    | [] => false
    end in
  if preceded && negb followed then SMALL_FINAL_SIGMA else SMALL_SIGMA.

Fixpoint lower_aux (before : pystr) (s : pystr) : pystr :=
  match s with
  | [] => []
  | c :: s' =>
      (if c =? CAPITAL_SIGMA then [handle_capital_sigma before s']
       else lower_full c) ++ lower_aux (c :: before) s'
  end.

(** [s.lower()] *)
Definition lower (s : pystr) : pystr := lower_aux [] s.

(** Canonical ordering: a code point of non-zero combining class moves
    left past the code points of greater class before it. [acc] is the
    ordered prefix, last code point first. *)
Fixpoint canonical_insert (c : N) (acc : pystr) : pystr :=
  match acc with
  | h :: t =>
      if (0 <? combining c) && (combining c <? combining h)
      then h :: canonical_insert c t
      else c :: acc
  | [] => [c]
  end.

Definition canonical_order (s : pystr) : pystr :=
  rev (fold_left (λ acc c, canonical_insert c acc) s []).

(** [unicodedata.normalize('NFKD', s)] *)
Definition nfkd (s : pystr) : pystr :=
  canonical_order (flat_map decomposition s).

(** ** [normalize_str] (SynMap.py, lines 90 to 93) *)
Definition normalize_str (s : pystr) : pystr :=
  let nfkd := nfkd s in
  let no_accent := List.filter (λ c, combining c =? 0) nfkd in
  strip (remove_char LOW_LINE (lower no_accent)).

(** A code point that every stage of [normalize_str] before the removal
    of low lines leaves as it is. *)
Definition settled (c : N) : Prop :=
  decomposition c = [c] ∧ combining c = 0 ∧ lower_full c = [c] ∧
  c ≠ CAPITAL_SIGMA.
End StringMethods.

(** What idempotence of [normalize_str] asks of the character database:
    a decomposition consists of code points that decompose no further, and
    lower-casing a starter that has no decomposition gives starters that
    have no decomposition and are in lower case. *)
Class UCDLaws `{U : UCD} : Prop := {
  decomposition_stable c d :
    d ∈ decomposition c → decomposition d = [d];
  lower_full_stable c d :
    decomposition c = [c] → combining c = 0 → d ∈ lower_full c →
    decomposition d = [d] ∧ combining d = 0 ∧ lower_full d = [d];
  lower_capital_sigma : lower_full CAPITAL_SIGMA = [SMALL_SIGMA];
  small_sigma_stable d :
    d = SMALL_SIGMA ∨ d = SMALL_FINAL_SIGMA →
    decomposition d = [d] ∧ combining d = 0 ∧ lower_full d = [d]
}.


(** ** Exceptions *)

Inductive exn :=
  ImportError | TypeError | AttributeError | ValueError | OperationalError.

Definition result (A : Type) : Type := exn + A.

Definition raise {A} (e : exn) : result A := inl e.

Global Instance result_ret : MRet result := λ A x, inr x.
Global Instance result_bind : MBind result := λ A B f m,
  match m with
  | inl e => inl e
  | inr x => f x
  end.

(** A value used where the program needs a string: on [None] the use
    raises [e]. *)
Definition expect (e : exn) (v : option pystr) : result pystr :=
  match v with
  | Some s => mret s
  | None => raise e
  end.

(** A loop that threads its state through a body that may raise. *)
Fixpoint for_each {A B} (body : B → A → result B) (b : B) (l : list A)
    : result B :=
  match l with
  | [] => mret b
  | x :: l' => b' ← body b x; for_each body b' l'
  end.

(** ** Insertion-ordered dictionaries

    [candidate_matches] and the table of geometry columns are Python
    dictionaries that the program iterates: the order of the keys is the
    order of their first insertion, and assigning to a key already present
    keeps its place. *)

Section Dict.
Context {V : Type}.

Definition dict := list (pystr * V).

Fixpoint dict_get (d : dict) (k : pystr) : option V :=
  match d with
  | [] => None
  | (k', v) :: d' => if decide (k' = k) then Some v else dict_get d' k
  end.

Fixpoint dict_set (d : dict) (k : pystr) (v : V) : dict :=
  match d with
  | [] => [(k, v)]
  | (k', v') :: d' =>
      if decide (k' = k) then (k', v) :: d' else (k', v') :: dict_set d' k v
  end.

Definition dict_keys (d : dict) : list pystr := d.*1.
End Dict.
Global Arguments dict : clear implicits.

(** ** Regular expressions

    The patterns of the program, with the backtracking order of [re]:
    alternatives left to right, greedy repetitions longest first, lazy ones
    shortest first.  Repetition is only ever applied to a single-character
    class in these patterns. *)

Inductive charset :=
| CLit (c : N)                   (* a literal *)
| CLitI (c : N)                  (* a cased literal under IGNORECASE, in lower case *)
| CWord                          (* \w *)
| CSpace                         (* \s *)
| CDot                           (* . *)
| CDotAll                        (* . under DOTALL *)
| CRanges (rs : list (N * N))    (* [a-zA-Z] *)
| CChars (cs : list N).          (* a set of literals *)

Inductive regex :=
| Chr (cs : charset)
| Rep (greedy : bool) (min : nat) (cs : charset)
| Seq (r1 r2 : regex)
| Alt (r1 r2 : regex)
| Opt (r : regex)
| Empty
| Group (n : nat) (r : regex)
| Bol
| Eol.

Definition cat (rs : list regex) : regex := foldr Seq Empty rs.
Definition lits (f : N → charset) (s : pystr) : regex := cat (Chr ∘ f <$> s).

Abbreviation captures := (gmap nat pystr).

(** A match object: what is left of the subject after the match, and the
    groups that took part in it. *)
Record match_obj := Match { m_rest : pystr; m_groups : captures }.

(** [m.group(n)], [None] for a group that took no part in the match. *)
Definition group (m : match_obj) (n : nat) : option pystr := m_groups m !! n.

(** The groups that take part in every match of a pattern. *)
Fixpoint groups_of (r : regex) : list nat :=
  match r with
  | Seq r1 r2 => groups_of r1 ++ groups_of r2
  | Group n r1 => n :: groups_of r1
  | _ => []
  end.

(** The first success of [k] on the suffixes of [s], shortest first: the
    order in which a greedy repetition that can take all of [s] gives
    back what it took. *)
Fixpoint try_suffixes {R} (k : pystr → option R) (s : pystr) : option R :=
  match s with
  | [] => k []
  | _ :: s' =>
      match try_suffixes k s' with
      | Some r => Some r
      | None => k s
      end
  end.

Section Regex.
Context `{U : UCD}.

Definition charset_mem (cs : charset) (c : N) : bool :=
  match cs with
  | CLit a => c =? a
  | CLitI a => tolower c =? a
  | CWord => isalnum c || (c =? LOW_LINE)
  | CSpace => isspace c
  | CDot => negb (c =? LINE_FEED)
  | CDotAll => true
  | CRanges rs => in_ranges rs c
  | CChars l => existsb (N.eqb c) l
  end.

Section Rep.
Context {R : Type} (cs : charset) (k : pystr → option R).

Fixpoint rep_greedy (min : nat) (s : pystr) : option R :=
  let stop := match min with O => k s | S _ => None end in
  match s with
  | c :: s' =>
      if charset_mem cs c then
        match rep_greedy (pred min) s' with
        | Some r => Some r
        | None => stop
        end
      else stop
  | [] => stop
  end.

Fixpoint rep_lazy (min : nat) (s : pystr) : option R :=
  let more :=
    match s with
    | c :: s' => if charset_mem cs c then rep_lazy (pred min) s' else None
    | [] => None
    end in
  match min with
  | O => match k s with Some r => Some r | None => more end
  | S _ => more
  end.
End Rep.

(** [rmatch r inp s g k]: match [r] at the suffix [s] of the subject
    [inp] with the groups [g] so far, then go on with [k]; the first
    success in backtracking order. *)
Fixpoint rmatch (r : regex) (inp s : pystr) (g : captures)
    (k : pystr → captures → option match_obj) : option match_obj :=
  match r with
  | Chr cs =>
      match s with
      | c :: s' => if charset_mem cs c then k s' g else None
      | [] => None
      end
  | Rep greedy min cs =>
      if greedy then rep_greedy cs (λ s', k s' g) min s
      else rep_lazy cs (λ s', k s' g) min s
  | Seq r1 r2 => rmatch r1 inp s g (λ s' g', rmatch r2 inp s' g' k)
  | Alt r1 r2 =>
      match rmatch r1 inp s g k with
      | Some m => Some m
      | None => rmatch r2 inp s g k
      end
  | Opt r1 =>
      match rmatch r1 inp s g k with
      | Some m => Some m
      | None => k s g
      end
  | Empty => k s g
  | Group n r1 =>
      rmatch r1 inp s g
        (λ s' g', k s' (<[n := take (length s - length s') s]> g'))
  | Bol => if (length s =? length inp)%nat then k s g else None
  | Eol =>
      match s with
      | [] => k s g
      | [c] => if c =? LINE_FEED then k s g else None
      | _ => None
      end
  end.

(** The pattern tried at the suffix [s] of the subject [inp]. *)
Definition match_at (r : regex) (inp s : pystr) : option match_obj :=
  rmatch r inp s ∅ (λ s' g, Some (Match s' g)).

(** [re.match(r, s)] *)
Definition re_match (r : regex) (s : pystr) : option match_obj :=
  match_at r s s.

(** [r.finditer(s)]: the matches from left to right, none overlapping
    another; [skip] counts the code points of the last match still to
    be passed over. *)
Fixpoint finditer_aux (r : regex) (inp s : pystr) (skip : nat)
    : list match_obj :=
  match skip, s with
  | S n, _ :: s' => finditer_aux r inp s' n
  | S _, [] => []
  | O, _ =>
      let next n :=
        match s with
        | _ :: s' => finditer_aux r inp s' n
        | [] => []
        end in
      match match_at r inp s with
      | Some m => m :: next (pred (length s - length (m_rest m)))
      | None => next O
      end
  end.

Definition finditer (r : regex) (s : pystr) : list match_obj :=
  finditer_aux r s s 0.
End Regex.

(** ** Sorting

    [sorted(l, key=key, reverse=True)] is stable: of two items with equal
    keys the one that comes first in [l] comes first in the result. *)

Section Sorted.
Context {A : Type} (key : A → Z).

Fixpoint insert_desc (x : A) (l : list A) : list A :=
  match l with
  | [] => [x]
  | y :: l' => if (key x <? key y)%Z then y :: insert_desc x l' else x :: l
  end.

Definition sorted_desc (l : list A) : list A := foldr insert_desc [] l.
End Sorted.

(** [precedes x y l]: [x] occurs in [l] and [y] does not occur before its
    first occurrence. *)
Definition precedes {A} (x y : A) (l : list A) : Prop :=
  ∃ l1 l2, l = l1 ++ x :: l2 ∧ y ∉ l1.

(** ** fuzzywuzzy

    [fuzz] and [process] are [None] when the import at the top of the
    module failed. *)

Record fuzz_module := {
  partial_ratio : pystr → pystr → Z;
  (** a similarity is a percentage *)
  partial_ratio_range s1 s2 : (0 ≤ partial_ratio s1 s2 ≤ 100)%Z
}.

Record process_module := { default_processor : pystr → pystr }.

(** [process.extractWithoutOrder]: every choice scored against the query,
    both passed through the processor, in the order of the choices; a
    score below the cutoff is left out. *)
Definition extractWithoutOrder (process : process_module) (query : pystr)
    (choices : list pystr) (scorer : pystr → pystr → Z) (score_cutoff : Z)
    : list (pystr * Z) :=
  let processed_query := default_processor process query in
  List.filter (λ r, (score_cutoff <=? r.2)%Z)
    ((λ choice,
        (choice, scorer processed_query (default_processor process choice)))
       <$> choices).

(** [process.extract(query, choices, scorer=scorer, limit=limit)]: the
    [limit] best of the scored choices, best first ([heapq.nlargest], which
    keeps the order of the choices among equal scores). *)
Definition extract (process : process_module) (query : pystr)
    (choices : list pystr) (scorer : pystr → pystr → Z) (limit : nat)
    : list (pystr * Z) :=
  take limit (sorted_desc snd (extractWithoutOrder process query choices scorer 0)).

(** ** The auto-mapper (SynMap.py, lines 98 to 136) *)

Section AutoMap.
Context `{U : UCD}.
Context (fuzz : fuzz_module) (process : process_module).
Context (synonyms_dict : gmap pystr (list pystr)) (threshold : Z).

(** The score [process.extract] gives a candidate against a field. *)
Definition score (candidate field : pystr) : Z :=
  partial_ratio fuzz (default_processor process candidate)
    (default_processor process field).

(** The normalised attribute, then its normalised synonyms. *)
Definition candidates_of (attr : pystr) : list pystr :=
  normalize_str attr ::
  match synonyms_dict !! lower attr with
  | Some syns => normalize_str <$> syns
  | None => []
  end.

(** One result of [process.extract] against [candidate_matches]. *)
Definition record_match (candidate_matches : dict Z) (r : pystr * Z)
    : dict Z :=
  if (threshold <=? r.2)%Z then
    match dict_get candidate_matches r.1 with
    | None => dict_set candidate_matches r.1 r.2
    | Some old =>
        if (old <? r.2)%Z then dict_set candidate_matches r.1 r.2
        else candidate_matches
    end
  else candidate_matches.

Definition candidate_matches_of (normalized_fields candidates : list pystr)
    : dict Z :=
  foldl
    (λ candidate_matches candidate,
       foldl record_match candidate_matches
         (extract process candidate normalized_fields (partial_ratio fuzz)
            (length normalized_fields)))
    [] candidates.

(** The ranked matches of one attribute. *)
Definition sorted_matches_of (normalized_fields : list pystr) (attr : pystr)
    : list (pystr * Z) :=
  sorted_desc snd (candidate_matches_of normalized_fields (candidates_of attr)).

(** The first ranked match that no earlier attribute has taken. *)
Definition best_match_of (used_fields : gset pystr)
    (sorted_matches : list (pystr * Z)) : option pystr :=
  fst <$> List.find (λ m, bool_decide (m.1 ∉ used_fields)) sorted_matches.

(** The body of the loop over the model attributes. *)
Definition map_attribute (normalized_layer_fields : list (pystr * pystr))
    (st : gmap pystr (option pystr) * gset pystr) (attr : pystr)
    : gmap pystr (option pystr) * gset pystr :=
  let normalized_fields := normalized_layer_fields.*2 in
  let sorted_matches := sorted_matches_of normalized_fields attr in
  match best_match_of st.2 sorted_matches with
  | Some best_match =>
      match List.find (λ p, bool_decide (p.2 = best_match))
              normalized_layer_fields with
      | Some p => (<[attr := Some p.1]> st.1, {[best_match]} ∪ st.2)
      | None => st
      end
  | None => (<[attr := None]> st.1, st.2)
  end.

Definition map_attributes (model_attributes layer_fields : list pystr)
    : gmap pystr (option pystr) * gset pystr :=
  let normalized_layer_fields :=
    (λ field, (field, normalize_str field)) <$> layer_fields in
  foldl (map_attribute normalized_layer_fields) (∅, ∅) model_attributes.
End AutoMap.

(** [ahead n1 n2 d]: when [n2] has entered the dictionary, [n1] entered
    it earlier and stands at least as high. *)
Definition ahead (n1 n2 : pystr) (d : dict Z) : Prop :=
  ∀ v2, dict_get d n2 = Some v2 →
  ∃ v1, dict_get d n1 = Some v1 ∧ (v2 ≤ v1)%Z ∧ precedes n1 n2 (dict_keys d).

(** What the loop over the attributes keeps true: a mapped field has its
    normalised name among the used ones, and no field is the value of two
    attributes. *)
Definition mapping_inv `{U : UCD}
    (st : gmap pystr (option pystr) * gset pystr) : Prop :=
  (∀ a f, st.1 !! a = Some (Some f) → normalize_str f ∈ st.2) ∧
  (∀ a1 a2 f, st.1 !! a1 = Some (Some f) → st.1 !! a2 = Some (Some f) →
              a1 = a2).

(** [auto_map_attributes_with_synonyms]: the mapping gives every model
    attribute a layer field or [None]. *)
Definition auto_map_attributes_with_synonyms `{U : UCD}
    (fuzz : option fuzz_module) (process : option process_module)
    (model_attributes layer_fields : list pystr)
    (synonyms_dict : gmap pystr (list pystr)) (threshold : Z)
    : result (gmap pystr (option pystr)) :=
  match fuzz, process with
  | Some fz, Some pr =>
      mret (map_attributes fz pr synonyms_dict threshold
              model_attributes layer_fields).1
  | _, _ => raise ImportError
  end.

(** ** The SQL parser (SynMap.py, lines 141 to 169) *)

(** The pattern of a table block, compiled under DOTALL and IGNORECASE;
    token by token:
    [CREATE \s+ TABLE \s+ ( (?: \w+ \. )? ( \w+ ) ) \s* \( ( . *? ) \) \s* (?: ; | # )] *)
Definition table_pattern : regex :=
  cat [ lits CLitI (py "create"); Rep true 1 CSpace;
        lits CLitI (py "table"); Rep true 1 CSpace;
        Group 1 (Seq (Opt (Seq (Rep true 1 CWord) (Chr (CLit (ch ".")))))
                     (Group 2 (Rep true 1 CWord)));
        Rep true 0 CSpace; Chr (CLit (ch "("));
        Group 3 (Rep false 0 CDotAll);
        Chr (CLit (ch ")")); Rep true 0 CSpace;
        Alt (Chr (CLit (ch ";"))) (Chr (CLit (ch "#"))) ].

(** The text has the words CREATE TABLE somewhere, in any case and with
    white space between them. *)
Definition has_create_table `{U : UCD} (s : pystr) : Prop :=
  ∃ pre kw1 ws kw2 post,
    s = pre ++ kw1 ++ ws ++ kw2 ++ post ∧
    tolower <$> kw1 = py "create" ∧
    ws ≠ [] ∧ Forall (λ c, isspace c = true) ws ∧
    tolower <$> kw2 = py "table".

(** The class [[a-zA-Z]]. *)
Definition ascii_letter (c : N) : bool :=
  in_ranges [(ch "a", ch "z"); (ch "A", ch "Z")] c.

(** The pattern of a suffixed table name, token by token:
    [^ ( . * ) _ [a-zA-Z] $] *)
Definition suffix_pattern : regex :=
  cat [ Bol; Group 1 (Rep true 0 CDot); Chr (CLit (ch "_"));
        Chr (CRanges [(ch "a", ch "z"); (ch "A", ch "Z")]); Eol ].

(** What [suffix_pattern] still has to match once its group has taken the
    code points of [table_name] before [s]. *)
Definition suffix_rest `{U : UCD} (table_name s : pystr) : option match_obj :=
  rmatch (cat [ Chr (CLit (ch "_"));
                Chr (CRanges [(ch "a", ch "z"); (ch "A", ch "Z")]); Eol ])
    table_name s
    (<[1%nat := take (length table_name - length s) table_name]> ∅)
    (λ s' g, Some (Match s' g)).

(** The pattern of a column line, token by token:
    [^ [quotation mark, apostrophe]? ( \w+ )] *)
Definition column_pattern : regex :=
  cat [ Bol; Opt (Chr (CChars [QUOTATION_MARK; APOSTROPHE]));
        Group 1 (Rep true 1 CWord) ].

Definition skip_keywords : list pystr :=
  py <$> [ "CONSTRAINT"; "PRIMARY"; "FOREIGN"; "UNIQUE"; "CHECK"; "WITH";
           "ALTER" ]%string.

Section Extractors.
Context `{U : UCD}.

(** The class name of a table: [m.group(1) if m else table_name] for
    [m = re.match(suffix_pattern, table_name)].  The group of the pattern
    takes part in every match of it; were it [None], the use would
    raise. *)
Definition class_name_of (table_name : pystr) : result pystr :=
  match re_match suffix_pattern table_name with
  | Some m => expect TypeError (group m 1)
  | None => mret table_name
  end.

(** The body of the loop over the lines of a column block: the column
    the line names, if it names one. *)
Definition column_of_line (line : pystr) : result (option pystr) :=
  let line := rstrip_chars (py ",") (strip line) in
  if bool_decide (line = []) ||
     existsb (λ kw, startswith kw (upper line)) skip_keywords
  then mret None
  else
    match re_match column_pattern line with
    | Some col_match => c ← expect TypeError (group col_match 1); mret (Some c)
    | None => mret None
    end.

Definition add_column (columns : list pystr) (line : pystr)
    : result (list pystr) :=
  c ← column_of_line line;
  mret (match c with Some c => columns ++ [c] | None => columns end).

(** The body of the loop over the matches of [table_pattern]. *)
Definition parse_table (classes_dict : gmap pystr (list pystr))
    (m : match_obj) : result (gmap pystr (list pystr)) :=
  table_name ← expect TypeError (group m 2);
  class_name ← class_name_of table_name;
  columns_section ← expect AttributeError (group m 3);
  columns ← for_each add_column [] (splitlines columns_section);
  mret (<[class_name := columns]> classes_dict).

Definition parse_sql (sql_content : pystr)
    : result (gmap pystr (list pystr)) :=
  for_each parse_table ∅ (finditer table_pattern sql_content).
End Extractors.

(** ** The database extractor (SynMap.py, lines 34 to 85)

    The driver and the host application are outside the program: the
    driver answers the query on [geometry_columns] with its rows or raises,
    the host application opens a table as a layer and, when the layer is
    valid, gives its field names. *)

Record connection := {
  host : pystr; port : pystr; dbname : pystr; username : pystr; password : pystr
}.

Record psycopg2_module := {
  fetch_geometry_columns : connection → result (list (pystr * pystr * pystr))
}.

Record qgis_module := {
  layer_fields : connection → pystr → pystr → pystr → option (list pystr)
}.

(** [{ "schema.table": geometry column }] *)
Definition get_geometry_tables_from_postgis
    (psycopg2 : option psycopg2_module) (conn : connection)
    : result (dict pystr) :=
  match psycopg2 with
  | None => raise ImportError
  | Some db =>
      results ← fetch_geometry_columns db conn;
      mret (foldl (λ tables (r : pystr * pystr * pystr),
                     dict_set tables (r.1.1 ++ py "." ++ r.1.2) r.2)
                  [] results)
  end.

Section DbExtractor.
Context `{U : UCD}.
Context (psycopg2 : option psycopg2_module) (qgis : qgis_module).

Definition extract_table (conn : connection)
    (classes : gmap pystr (list pystr)) (item : pystr * pystr)
    : result (gmap pystr (list pystr)) :=
  match split_on (ch ".") item.1 with
  | [schema; table_name] =>
      match layer_fields qgis conn schema table_name item.2 with
      | Some fields =>
          class_name ← class_name_of table_name;
          mret (<[class_name := fields]> classes)
      | None => mret classes
      end
  | _ => raise ValueError
  end.

Definition extract_classes_from_db (conn : connection)
    : result (gmap pystr (list pystr)) :=
  tables ← get_geometry_tables_from_postgis psycopg2 conn;
  for_each (extract_table conn) ∅ tables.
End DbExtractor.

(** ** The database on Basic Latin, Latin-1 Supplement and the combining
    diacritical marks

    The entries of the Unicode character database for U+0000 to U+00FF
    and U+0300 to U+036F.  A code point outside these blocks is left
    without decomposition, class or case, except for the white space
    (listed in full) and the capital sigma. *)

Module Latin1.
Definition decomposition_table : list (N * pystr) :=
  [ (160, [32]); (168, [32; 776]); (170, [97]); (175, [32; 772]);
    (178, [50]); (179, [51]); (180, [32; 769]); (181, [956]);
    (184, [32; 807]); (185, [49]); (186, [111]); (188, [49; 8260; 52]);
    (189, [49; 8260; 50]); (190, [51; 8260; 52]); (192, [65; 768]);
    (193, [65; 769]); (194, [65; 770]); (195, [65; 771]); (196, [65; 776]);
    (197, [65; 778]); (199, [67; 807]); (200, [69; 768]); (201, [69; 769]);
    (202, [69; 770]); (203, [69; 776]); (204, [73; 768]); (205, [73; 769]);
    (206, [73; 770]); (207, [73; 776]); (209, [78; 771]); (210, [79; 768]);
    (211, [79; 769]); (212, [79; 770]); (213, [79; 771]); (214, [79; 776]);
    (217, [85; 768]); (218, [85; 769]); (219, [85; 770]); (220, [85; 776]);
    (221, [89; 769]); (224, [97; 768]); (225, [97; 769]); (226, [97; 770]);
    (227, [97; 771]); (228, [97; 776]); (229, [97; 778]); (231, [99; 807]);
    (232, [101; 768]); (233, [101; 769]); (234, [101; 770]);
    (235, [101; 776]); (236, [105; 768]); (237, [105; 769]);
    (238, [105; 770]); (239, [105; 776]); (241, [110; 771]);
    (242, [111; 768]); (243, [111; 769]); (244, [111; 770]);
    (245, [111; 771]); (246, [111; 776]); (249, [117; 768]);
    (250, [117; 769]); (251, [117; 770]); (252, [117; 776]);
    (253, [121; 769]); (255, [121; 776]);
    (832, [768]); (833, [769]); (835, [787]); (836, [776; 769]) ].

(** first code point, last code point, combining class *)
Definition combining_table : list (N * N * N) :=
  [ (768, 788, 230); (789, 789, 232); (790, 793, 220); (794, 794, 232);
    (795, 795, 216); (796, 800, 220); (801, 802, 202); (803, 806, 220);
    (807, 808, 202); (809, 819, 220); (820, 824, 1); (825, 828, 220);
    (829, 836, 230); (837, 837, 240); (838, 838, 230); (839, 841, 220);
    (842, 844, 230); (845, 846, 220); (848, 850, 230); (851, 854, 220);
    (855, 855, 230); (856, 856, 232); (857, 858, 220); (859, 859, 230);
    (860, 860, 233); (861, 862, 234); (863, 863, 233); (864, 865, 234);
    (866, 866, 233); (867, 879, 230) ].

Definition decomposition (c : N) : pystr :=
  match List.find (λ e, e.1 =? c) decomposition_table with
  | Some e => e.2
  | None => [c]
  end.

Definition combining (c : N) : N :=
  match List.find (λ e, (e.1.1 <=? c) && (c <=? e.1.2)) combining_table with
  | Some e => e.2
  | None => 0
  end.

Definition tolower (c : N) : N :=
  if in_ranges [(65, 90); (192, 214); (216, 222)] c then c + 32
  else if c =? CAPITAL_SIGMA then SMALL_SIGMA
  else c.

Definition lower_full (c : N) : pystr := [tolower c].

Definition upper_full (c : N) : pystr :=
  if in_ranges [(97, 122); (224, 246); (248, 254)] c then [c - 32]
  else if c =? 181 then [924]
  else if c =? 223 then [83; 83]
  else if c =? 255 then [376]
  else if c =? 837 then [921]
  else [c].

Definition isspace : N → bool :=
  in_ranges [ (9, 13); (28, 32); (133, 133); (160, 160); (5760, 5760);
              (8192, 8202); (8232, 8233); (8239, 8239); (8287, 8287);
              (12288, 12288) ].

Definition isalnum : N → bool :=
  in_ranges [ (48, 57); (65, 90); (97, 122); (170, 170); (178, 179);
              (181, 181); (185, 186); (188, 190); (192, 214); (216, 246);
              (248, 255) ].

Definition iscased : N → bool :=
  in_ranges [ (65, 90); (97, 122); (170, 170); (181, 181); (186, 186);
              (192, 214); (216, 246); (248, 255); (837, 837) ].

Definition iscaseignorable : N → bool :=
  in_ranges [ (39, 39); (46, 46); (58, 58); (94, 94); (96, 96); (168, 168);
              (173, 173); (175, 175); (180, 180); (183, 184); (768, 879) ].

Definition ucd : UCD :=
  Build_UCD decomposition combining tolower lower_full upper_full isspace
    isalnum iscased iscaseignorable.
End Latin1.

(** The laws of [UCDLaws] as tests on one code point of the Latin-1
    database. *)
Definition latin1_check_decomposition (c : N) : bool :=
  forallb (λ d, bool_decide (Latin1.decomposition d = [d]))
    (Latin1.decomposition c).

Definition latin1_check_lower (c : N) : bool :=
  if bool_decide (Latin1.decomposition c = [c]) && (Latin1.combining c =? 0)
  then
    let d := Latin1.tolower c in
    bool_decide (Latin1.decomposition d = [d]) && (Latin1.combining d =? 0) &&
    (Latin1.tolower d =? d)
  else true.

(** ** The inputs of the examples *)

(** The synonym table of the program (SynMap.py, lines 174 to 181). *)
Definition SYNONYMS_DICT : gmap pystr (list pystr) :=
  list_to_map
    [ (py "nome", [py "name"]);
      (py "name", [py "nome"]);
      (py "descricao", [py "description"; [100; 101; 115; 99; 114; 105; 231; 227; 111]]);
      (py "description", [py "descricao"; [100; 101; 115; 99; 114; 105; 231; 227; 111]]);
      (py "id", [py "identificador"; py "id"]);
      (py "codigo", [py "code"; py "codigo"]) ].

(** What [fuzz.partial_ratio] gives on the strings of the examples. *)
Definition example_scores : list (pystr * pystr * Z) :=
  [ (py "nome", py "name", 75); (py "nome", py "nomename", 100);
    (py "name", py "name", 100); (py "name", py "nomename", 100);
    (py "nome", py "nomecompleto", 100); (py "name", py "nomecompleto", 75);
    (py "descricao", py "nomecompleto", 33);
    (py "description", py "nomecompleto", 50) ]%Z.

Definition example_ratio (q c : pystr) : Z :=
  match List.find (λ e, bool_decide (e.1 = (q, c))) example_scores with
  | Some e => e.2
  | None => 0%Z
  end.

Lemma example_ratio_range q c : (0 ≤ example_ratio q c ≤ 100)%Z.
Proof.
  unfold example_ratio.
  destruct (List.find _ _) as [e|] eqn:E; [|lia].
  apply find_some in E as [Hin _].
  assert (H : forallb (λ e, (0 <=? e.2)%Z && (e.2 <=? 100)%Z) example_scores
              = true) by (vm_compute; reflexivity).
  rewrite forallb_forall in H. apply H in Hin. lia.
Qed.

Definition example_fuzz : fuzz_module :=
  {| partial_ratio := example_ratio; partial_ratio_range := example_ratio_range |}.

(** The default processor leaves a string of lower-case letters as it is. *)
Definition example_process : process_module := {| default_processor s := s |}.

Definition roads_sql : pystr :=
  py "CREATE TABLE public.roads_a (id integer, name varchar(50), CONSTRAINT pk PRIMARY KEY(id));".

Definition nl : pystr := [LINE_FEED].

(** The same statement with a column to the line. *)
Definition roads_lines_sql : pystr :=
  py "CREATE TABLE public.roads_a (" ++ nl ++
  py "  id integer," ++ nl ++
  py "  name varchar(50)," ++ nl ++
  py "  CONSTRAINT pk PRIMARY KEY(id)" ++ nl ++
  py ");".

(** Columns whose names begin with skip keywords. *)
Definition keyword_columns_sql : pystr :=
  py "CREATE TABLE t (" ++ nl ++
  py "  id integer," ++ nl ++
  py "  check_date date," ++ nl ++
  py "  unique_id integer," ++ nl ++
  py "  with_flag boolean" ++ nl ++
  py ");".

(** A column whose name begins with a skip keyword, written in quotes. *)
Definition quoted_column_sql : pystr :=
  py "CREATE TABLE t (" ++ nl ++
  [QUOTATION_MARK] ++ py "check_date" ++ [QUOTATION_MARK] ++ py " date" ++ nl ++
  py ");".

(** [N], [a] with tilde, [o]. *)
Definition Nao : pystr := [78; 227; 111].

(** A database with one geometry table, [public."roads_a" + line feed],
    and a host application that opens every table with the fields [id]
    and [name]. *)
Definition example_connection : connection :=
  {| host := py "localhost"; port := py "5432"; dbname := py "gis";
     username := py "u"; password := py "p" |}.

Definition example_psycopg2 : psycopg2_module :=
  {| fetch_geometry_columns _ :=
       mret [(py "public", py "roads_a" ++ nl, py "geom")] |}.

Definition example_qgis : qgis_module :=
  {| layer_fields _ _ _ _ := Some [py "id"; py "name"] |}.

(** ** The extractors and the mapper, once more

    What the properties below need to say what the program computes: the
    key of a row of [geometry_columns], the column of a line read off
    without the regular expression, the parts of [table_pattern], Python's
    truth of a mapped value. *)

(** The key of a row of [geometry_columns] in the table of geometry
    columns: [f"{schema}.{table}"]. *)
Definition full_table (r : pystr * pystr * pystr) : pystr :=
  r.1.1 ++ py "." ++ r.1.2.

(** The table of geometry columns that the loop of
    [get_geometry_tables_from_postgis] makes of [rows], from [d] on. *)
Definition geometry_tables (d : dict pystr)
    (rows : list (pystr * pystr * pystr)) : dict pystr :=
  foldl (λ tables (r : pystr * pystr * pystr),
           dict_set tables (r.1.1 ++ py "." ++ r.1.2) r.2) d rows.

(** The number of occurrences of a code point. *)
Definition count (c : N) (s : pystr) : nat :=
  length (List.filter (λ x, x =? c) s).

Fixpoint takewhile {A} (p : A → bool) (l : list A) : list A :=
  match l with
  | [] => []
  | x :: l' => if p x then x :: takewhile p l' else []
  end.

(** The head of a string is outside a class. *)
Definition stops {A} (p : A → bool) (s : list A) : Prop :=
  match s with
  | [] => True
  | c :: _ => p c = false
  end.

Section Direct.
Context `{U : UCD}.

Definition is_word (c : N) : Prop := charset_mem CWord c = true.
Definition is_space (c : N) : Prop := isspace c = true.

(** The run of word characters at the start of a string, if there is
    one. *)
Definition word_run (s : pystr) : option pystr :=
  match takewhile (charset_mem CWord) s with
  | [] => None
  | w => Some w
  end.

(** The column a line names: the word at its start, after one quotation
    mark or apostrophe if that leaves a word. *)
Definition column_name (line : pystr) : option pystr :=
  match line with
  | c :: line' =>
      if charset_mem (CChars [QUOTATION_MARK; APOSTROPHE]) c then
        match word_run line' with
        | Some w => Some w
        | None => word_run line
        end
      else word_run line
  | [] => None
  end.

(** The column of a line of a column block, without the regular
    expression: what [column_of_line] is shown to return. *)
Definition column_of (line : pystr) : option pystr :=
  let line := rstrip_chars (py ",") (strip line) in
  if bool_decide (line = []) ||
     existsb (λ kw, startswith kw (upper line)) skip_keywords
  then None
  else column_name line.

(** A string that ends a table block once its closing parenthesis is
    read: white space, then a semicolon or a number sign. *)
Definition ends_block (s : pystr) : Prop :=
  ∃ ws t rest, s = ws ++ t :: rest ∧ Forall is_space ws ∧
               (t = ch ";" ∨ t = ch "#").

(** [ends_block] as a test, for a database in which the semicolon and the
    number sign are no white space. *)
Definition ends_blockb (s : pystr) : bool :=
  match dropwhile isspace s with
  | t :: _ => (t =? ch ";") || (t =? ch "#")
  | [] => false
  end.

(** Some closing parenthesis of [body] ends the block before the
    parenthesis that follows [body] does. *)
Fixpoint closes_early (body : pystr) : bool :=
  match body with
  | [] => false
  | c :: body' =>
      ((c =? ch ")") && ends_blockb (body' ++ py ");")) || closes_early body'
  end.
End Direct.

(** The parts of [table_pattern] from the table name on. *)
Definition block_end : regex :=
  Seq (Rep true 0 CSpace)
    (Seq (Alt (Chr (CLit (ch ";"))) (Chr (CLit (ch "#")))) Empty).
Definition block_close : regex := Seq (Chr (CLit (ch ")"))) block_end.
Definition block_body : regex :=
  Seq (Group 3 (Rep false 0 CDotAll)) block_close.
Definition block_open : regex :=
  Seq (Rep true 0 CSpace) (Seq (Chr (CLit (ch "("))) block_body).
Definition block_name : regex :=
  Seq (Group 1 (Seq (Opt (Seq (Rep true 1 CWord) (Chr (CLit (ch ".")))))
                    (Group 2 (Rep true 1 CWord))))
      block_open.

(** What the parser asks of the database on Basic Latin: there the lower
    case of [re], [str.isspace] and [str.isalnum] are those of Unicode, as
    the Latin-1 database has them; and no alphanumeric character is white
    space. *)
Definition basic_latin `{U : UCD} : Prop :=
  (∀ c, c < 128 →
        tolower c = Latin1.tolower c ∧ isspace c = Latin1.isspace c ∧
        isalnum c = Latin1.isalnum c) ∧
  (∀ c, isalnum c = true → isspace c = false).

(** Python truth of a string, and of a mapped value: [None] and the empty
    string are false. *)
Definition nonempty (s : pystr) : bool :=
  match s with
  | [] => false
  | _ => true
  end.

Definition truthy (v : option pystr) : bool :=
  match v with
  | Some (_ :: _) => true
  | _ => false
  end.

(** [len([v for v in auto_mapping.values() if v])] *)
Definition count_mapped (mapping : gmap pystr (option pystr)) : nat :=
  size (filter (λ kv, truthy kv.2 = true) mapping).

(** What makes a layer field the value of an attribute: it is the first
    field of its normalised name, and some candidate of the attribute
    scores that name at the threshold or above. *)
Definition chosen `{U : UCD} (fuzz : fuzz_module) (process : process_module)
    (synonyms_dict : gmap pystr (list pystr)) (threshold : Z)
    (layer_fields : list pystr) (attr field : pystr) : Prop :=
  (∃ l1 l2, layer_fields = l1 ++ field :: l2 ∧
            Forall (λ f, normalize_str f ≠ normalize_str field) l1) ∧
  (∃ c, c ∈ candidates_of synonyms_dict attr ∧
        (threshold ≤ score fuzz process c (normalize_str field))%Z).

(** No item is outranked by a later one. *)
Fixpoint descending {A} (key : A → Z) (l : list A) : Prop :=
  match l with
  | [] => True
  | x :: l' => Forall (λ y, (key y ≤ key x)%Z) l' ∧ descending key l'
  end.

(** ** The wizard (SynMap.py, lines 186 to 849)

    The state that the pages share is the wizard's: each page method reads
    and writes it through [self.wizard()].  A method is a function of the
    state of its page and of the wizard; what it shows in a message box is
    returned with its result, oldest first.  The host application (the
    settings, the authentication manager, the project, the layers) is
    handed to the methods that ask it. *)

(** The attributes of [SynMap] (lines 830 to 836). *)
Record wizard := Wizard {
  inputSource : option pystr;
  classesInfo : gmap pystr (list pystr);
  selectedClass : pystr;
  layerFields : list pystr;
  attributeMapping : gmap pystr (option pystr);
  selectedLayerId : pystr;
  inputLayerPath : pystr
}.

Definition set_inputSource (w : wizard) (v : option pystr) : wizard :=
  Wizard v (classesInfo w) (selectedClass w) (layerFields w)
    (attributeMapping w) (selectedLayerId w) (inputLayerPath w).
Definition set_classesInfo (w : wizard) (v : gmap pystr (list pystr)) : wizard :=
  Wizard (inputSource w) v (selectedClass w) (layerFields w)
    (attributeMapping w) (selectedLayerId w) (inputLayerPath w).
Definition set_selectedClass (w : wizard) (v : pystr) : wizard :=
  Wizard (inputSource w) (classesInfo w) v (layerFields w)
    (attributeMapping w) (selectedLayerId w) (inputLayerPath w).
Definition set_layer (w : wizard) (fields : list pystr) (id path : pystr)
    : wizard :=
  Wizard (inputSource w) (classesInfo w) (selectedClass w) fields
    (attributeMapping w) id path.
Definition set_attributeMapping (w : wizard)
    (v : gmap pystr (option pystr)) : wizard :=
  Wizard (inputSource w) (classesInfo w) (selectedClass w) (layerFields w)
    v (selectedLayerId w) (inputLayerPath w).

(** The message boxes of the program, by the place that shows them. *)
Inductive message :=
| select_sql_file               (* warning, line 292 *)
| no_class_in_sql               (* critical, line 299 *)
| sql_read_error                (* critical, line 305 *)
| select_connection             (* warning, line 386 *)
| connection_not_in_settings    (* critical, line 418 *)
| auth_manager_unavailable      (* critical, line 431 *)
| auth_config_unreadable        (* warning, line 451 *)
| auth_config_not_loaded        (* warning, line 454 *)
| password_needed               (* information, line 477 *)
| missing_parameters (missing : list string)   (* critical, line 497 *)
| no_class_in_connection        (* information, line 511 *)
| classes_loaded (n : nat)      (* information, line 515 *)
| dependency_error              (* critical, line 521 *)
| connection_error              (* critical, line 525 *)
| fill_all_fields               (* warning, line 585 *)
| no_class_found                (* information, line 590 *)
| classes_loaded_manual         (* information, line 593 *)
| load_error                    (* critical, line 596 *)
| load_classes_first            (* warning, line 600 *)
| select_class                  (* warning, line 676 *)
| invalid_selected_layer        (* warning, line 684 *)
| select_layer                  (* warning, line 692 *)
| invalid_file_layer            (* critical, line 696 *)
| insufficient_data             (* critical, line 731 *)
| fuzzywuzzy_missing            (* warning, line 759 *)
| mapping_done (used total : nat)   (* information, line 792 *)
| layer_created (n : nat).      (* information, line 950 *)

(** ** Page 0: the source of the model (lines 186 to 262) *)
Module InputSourcePage.
Record page := { radioSQL : bool; radioDB : bool; radioManual : bool }.

Definition __init__ : page :=
  {| radioSQL := true; radioDB := false; radioManual := false |}.

Definition nextId (self : page) : Z :=
  if radioSQL self then 1
  else if radioDB self then 2
  else if radioManual self then 3
  else -1.

Definition validatePage (self : page) (w : wizard) : bool * wizard :=
  (true,
   set_inputSource w
     (Some (if radioSQL self then py "SQL"
            else if radioDB self then py "DB"
            else py "MANUAL"))).
End InputSourcePage.

(** ** Page 1: the model from an SQL file (lines 268 to 309) *)
Module SQLFilePage.
Section Methods.
Context `{U : UCD}.
(** [open(filePath, 'r', encoding='utf-8').read()]: the text of the file,
    [None] when opening, reading or decoding raises. *)
Context (read : pystr → option pystr).

Definition validatePage (filePath : pystr) (w : wizard)
    : bool * wizard * list message :=
  if negb (nonempty filePath) then (false, w, [select_sql_file])
  else
    match read filePath with
    | Some sqlContent =>
        match parse_sql sqlContent with
        | inr classes =>
            if bool_decide (classes = ∅) then (false, w, [no_class_in_sql])
            else (true, set_classesInfo w classes, [])
        | inl e => (false, w, [sql_read_error])
        end
    | None => (false, w, [sql_read_error])
    end.
End Methods.

Definition nextId : Z := 4.
End SQLFilePage.

(** ** Page 2: a connection of the host application (lines 314 to 539) *)

(** The groups of [PostgreSQL/Connections] in the settings of the host
    application, each with its keys; [settings_value] is [settings.value]
    with the empty string as its default. *)
Abbreviation QSettings := (gmap pystr (gmap pystr pystr)).

Definition settings_value (group : gmap pystr pystr) (key : pystr) : pystr :=
  default [] (group !! key).

(** [mconfig.config(key)]: [None] when the call raises, [Some None] when
    it gives Python's [None]. *)
Record QgsAuthMethodConfig := { config : pystr → option (option pystr) }.

(** [loadAuthenticationConfig(authcfg_id, mconfig, full=True)]: the
    configuration it loads, [None] when it reports failure. *)
Definition QgsAuthManager : Type := pystr → option QgsAuthMethodConfig.

Module DBInputPage.
Record page := {
  connCombo : pystr;          (* the current text *)
  passwordEdit : pystr;       (* the text *)
  passwordHidden : bool       (* of the password label and field *)
}.

Section Methods.
Context `{U : UCD}.
Context (settings : QSettings) (authManager : option QgsAuthManager).
Context (psycopg2 : option psycopg2_module) (qgis : qgis_module).

(** Lines 425 to 455: the user name, the password and whether a password
    was found; [None] where the method returns at line 432. *)
Definition authentication (authcfg_id : pystr)
    : option (option pystr * option pystr * bool * list message) :=
  if nonempty authcfg_id then
    match authManager with
    | None => None
    | Some auth_manager =>
        match auth_manager authcfg_id with
        | Some mconfig =>
            match config mconfig (py "username") with
            | None => Some (None, None, false, [auth_config_unreadable])
            | Some username =>
                match config mconfig (py "password") with
                | None =>
                    Some (username, None, false, [auth_config_unreadable])
                | Some password =>
                    Some (username, password,
                          bool_decide (is_Some username ∧ is_Some password),
                          [])
                end
            end
        | None => Some (None, None, false, [auth_config_not_loaded])
        end
    end
  else Some (None, None, false, []).

(** Lines 458 to 466. *)
Definition direct_credentials (direct_username direct_password : pystr)
    (found : option pystr * option pystr * bool)
    : option pystr * option pystr * bool :=
  let '(username, password, password_found) := found in
  if password_found then found
  else
    let username :=
      if nonempty direct_username then Some direct_username else username in
    if nonempty direct_password then (username, Some direct_password, true)
    else (username, password, false).

(** Lines 490 to 498. *)
Definition missing_of (host port dbname : pystr)
    (username password : option pystr) : list string :=
  (if nonempty host then [] else ["Host"%string]) ++
  (if nonempty port then [] else ["Porta"%string]) ++
  (if nonempty dbname then [] else ["Nome do Banco"%string]) ++
  match username with Some _ => [] | None => ["Usuário"%string] end ++
  match password with Some _ => [] | None => ["Senha"%string] end.

(** Lines 501 to 526. *)
Definition connect (conn : connection) (w : wizard) : wizard * list message :=
  match extract_classes_from_db psycopg2 qgis conn with
  | inr classes =>
      if bool_decide (classes = ∅)
      then (set_classesInfo w ∅, [no_class_in_connection])
      else (set_classesInfo w classes, [classes_loaded (size classes)])
  | inl ImportError => (w, [dependency_error])
  | inl _ => (set_classesInfo w ∅, [connection_error])
  end.

Definition loadClasses (self : page) (w : wizard)
    : page * wizard * list message :=
  let current_conn_name := connCombo self in
  if negb (nonempty current_conn_name) then (self, w, [select_connection])
  else
    let w := set_classesInfo w ∅ in
    match settings !! current_conn_name with
    | None => (self, w, [connection_not_in_settings])
    | Some group =>
        let host := settings_value group (py "host") in
        let port := settings_value group (py "port") in
        let dbname := settings_value group (py "database") in
        let authcfg_id := settings_value group (py "authcfg") in
        let direct_username := settings_value group (py "username") in
        let direct_password := settings_value group (py "password") in
        match authentication authcfg_id with
        | None => (self, w, [auth_manager_unavailable])
        | Some (found, msgs) =>
            let '(username, password, password_found) :=
              direct_credentials direct_username direct_password found in
            let shown := Build_page (connCombo self) (passwordEdit self) false in
            let hidden := Build_page (connCombo self) (passwordEdit self) true in
            let provided_pass := strip (passwordEdit self) in
            let prompt :=
              negb password_found || negb (bool_decide (is_Some password)) in
            if prompt && negb (nonempty provided_pass)
            then (shown, w, msgs ++ [password_needed])
            else
              let password := if prompt then Some provided_pass else password in
              match username, password with
              | Some user, Some pass =>
                  if nonempty host && nonempty port && nonempty dbname then
                    let '(w, msgs') :=
                      connect (Build_connection host port dbname user pass) w in
                    (hidden, w, msgs ++ msgs')
                  else
                    (hidden, w,
                     msgs ++ [missing_parameters
                                (missing_of host port dbname username password)])
              | _, _ =>
                  (hidden, w,
                   msgs ++ [missing_parameters
                              (missing_of host port dbname username password)])
              end
        end
    end.

Definition validatePage (w : wizard) : bool :=
  negb (bool_decide (classesInfo w = ∅)).
End Methods.

Definition nextId : Z := 4.
End DBInputPage.

(** ** Page 3: a connection typed in (lines 546 to 605) *)
Module ManualDBInputPage.
Record page := {
  hostEdit : pystr; portEdit : pystr; dbnameEdit : pystr;
  usernameEdit : pystr; passwordEdit : pystr
}.

Section Methods.
Context `{U : UCD}.
Context (psycopg2 : option psycopg2_module) (qgis : qgis_module).

Definition loadClasses (self : page) (w : wizard) : wizard * list message :=
  let host := strip (hostEdit self) in
  let port := strip (portEdit self) in
  let dbname := strip (dbnameEdit self) in
  let username := strip (usernameEdit self) in
  let password := strip (passwordEdit self) in
  if negb (nonempty host && nonempty port && nonempty dbname &&
           nonempty username && nonempty password)
  then (w, [fill_all_fields])
  else
    match extract_classes_from_db psycopg2 qgis
            (Build_connection host port dbname username password) with
    | inr classes =>
        if bool_decide (classes = ∅) then (w, [no_class_found])
        else (set_classesInfo w classes, [classes_loaded_manual])
    | inl e => (w, [load_error])
    end.

Definition validatePage (w : wizard) : bool * list message :=
  if bool_decide (classesInfo w = ∅) then (false, [load_classes_first])
  else (true, []).
End Methods.

Definition nextId : Z := 4.
End ManualDBInputPage.

(** ** Page 4: the layer and the class (lines 610 to 705) *)

(** A feature: its geometry and what [feature[name]] gives, [None] where
    it raises [KeyError]. *)
Record QgsFeature (G V : Type) := {
  geometry : G;
  attribute : pystr → option V
}.
Arguments geometry {G V}.
Arguments attribute {G V}.

Record QgsVectorLayer (G V : Type) := {
  isValid : bool;
  fields : list pystr;               (* the names of the fields *)
  getFeatures : list (QgsFeature G V);
  wkbType : pystr;                   (* as [QgsWkbTypes.displayString] shows it *)
  crs : pystr                        (* as WKT *)
}.
Arguments isValid {G V}.
Arguments fields {G V}.
Arguments getFeatures {G V}.
Arguments wkbType {G V}.
Arguments crs {G V}.

(** The host application: [QgsProject.instance().mapLayer(id)], [None]
    for an identifier the project does not have, and
    [QgsVectorLayer(path, name, "ogr")]. *)
Record QgsProject (G V : Type) := {
  mapLayer : pystr → option (QgsVectorLayer G V);
  ogr : pystr → QgsVectorLayer G V
}.
Arguments mapLayer {G V}.
Arguments ogr {G V}.

Module LayerSelectionPage.
Record page := {
  comboClass : pystr;           (* the current text; the box is editable *)
  loadedLayersCombo : pystr;    (* the data of the current item *)
  layerPathEdit : pystr;        (* the text *)
  layerFields : list pystr
}.

Section Methods.
Context {G V : Type} (project : QgsProject G V).

Definition validatePage (self : page) (w : wizard)
    : bool * page * wizard * list message :=
  let selectedClass := comboClass self in
  if negb (nonempty selectedClass) then (false, self, w, [select_class])
  else
    let w := set_selectedClass w selectedClass in
    let layer_id := loadedLayersCombo self in
    let file_path := layerPathEdit self in
    let with_fields layerFields :=
      Build_page (comboClass self) (loadedLayersCombo self)
        (layerPathEdit self) layerFields in
    if nonempty layer_id then
      match mapLayer project layer_id with
      | Some layer =>
          if isValid layer then
            (true, with_fields (fields layer),
             set_layer w (fields layer) layer_id [], [])
          else (false, self, w, [invalid_selected_layer])
      | None => (false, self, w, [invalid_selected_layer])
      end
    else if negb (nonempty file_path) then (false, self, w, [select_layer])
    else
      let layer := ogr project file_path in
      if isValid layer then
        (true, with_fields (fields layer),
         set_layer w (fields layer) [] file_path, [])
      else (false, self, w, [invalid_file_layer]).
End Methods.

Definition nextId : Z := 5.
End LayerSelectionPage.

(** ** Page 5: the mapping (lines 710 to 812) *)

(** A combo box that is not editable: its items and the index of the
    current one, [-1] when there is none. *)
Record QComboBox := { items : list pystr; currentIndex : Z }.

(** A new box filled by [addItem]: the first item added becomes the
    current one. *)
Definition combo_of (texts : list pystr) : QComboBox :=
  {| items := texts; currentIndex := match texts with [] => -1 | _ => 0 end |}.

Definition currentText (combo : QComboBox) : pystr :=
  if (currentIndex combo <? 0)%Z then []
  else default [] (items combo !! Z.to_nat (currentIndex combo)).

(** [combo.findText(text)]: the index of the first item that is [text],
    [-1] when there is none. *)
Fixpoint findText_from (i : Z) (l : list pystr) (text : pystr) : Z :=
  match l with
  | [] => -1
  | x :: l' => if decide (x = text) then i else findText_from (i + 1) l' text
  end.

Definition findText (combo : QComboBox) (text : pystr) : Z :=
  findText_from 0 (items combo) text.

Definition setCurrentIndex (combo : QComboBox) (idx : Z) : QComboBox :=
  {| items := items combo; currentIndex := idx |}.

Module MappingPage.
(** [modelAttributes] is [None] until [initializePage] has set it; a row
    of the table is the text of its item and its combo box. *)
Record page := {
  modelAttributes : option (list pystr);
  mappingTable : list (pystr * QComboBox)
}.

Definition __init__ : page := {| modelAttributes := None; mappingTable := [] |}.

Definition initializePage (self : page) (w : wizard) : page * list message :=
  let classesInfo := classesInfo w in
  let selectedClass := selectedClass w in
  let layerFields := layerFields w in
  if negb (negb (bool_decide (classesInfo = ∅)) && nonempty selectedClass &&
           negb (bool_decide (layerFields = [])))
  then (self, [insufficient_data])
  else
    let modelAttributes := default [] (classesInfo !! selectedClass) in
    ({| modelAttributes := Some modelAttributes;
        mappingTable :=
          (λ attr, (attr, combo_of ([] :: layerFields))) <$> modelAttributes |},
     []).

Section Methods.
Context `{U : UCD}.
Context (fuzz : option fuzz_module) (process : option process_module).

(** The body of the loop over the rows (lines 779 to 786). *)
Definition fill_row (auto_mapping : gmap pystr (option pystr))
    (row : pystr * QComboBox) : pystr * QComboBox :=
  let modelo_attr := row.1 in
  let mapped_field := auto_mapping !! modelo_attr ≫= id in
  if truthy mapped_field then
    let combo := row.2 in
    let idx := findText combo (default [] mapped_field) in
    if (0 <=? idx)%Z then (row.1, setCurrentIndex combo idx) else row
  else row.

Definition perform_auto_mapping (self : page) (w : wizard)
    : result (page * list message) :=
  match fuzz, process with
  | Some _, Some _ =>
      let layer_fields := layerFields w in
      modelAttributes ← match modelAttributes self with
                        | Some l => mret l
                        | None => raise AttributeError
                        end;
      auto_mapping ← auto_map_attributes_with_synonyms fuzz process
                       modelAttributes layer_fields SYNONYMS_DICT 70;
      let used := count_mapped auto_mapping in
      let total := length layer_fields in
      mret ({| modelAttributes := Some modelAttributes;
               mappingTable := fill_row auto_mapping <$> mappingTable self |},
            [mapping_done used total])
  | _, _ => mret (self, [fuzzywuzzy_missing])
  end.
End Methods.

Definition validatePage (self : page) (w : wizard) : bool * wizard :=
  let mapping :=
    foldl (λ (mapping : gmap pystr (option pystr)) (row : pystr * QComboBox),
             let attr := row.1 in
             let selectedField := currentText row.2 in
             <[attr := if nonempty selectedField then Some selectedField
                       else None]> mapping)
          ∅ (mappingTable self) in
  (true, set_attributeMapping w mapping).

Definition nextId : Z := -1.
End MappingPage.

(** ** The pages in the order of [addPage] (lines 844 to 849) *)
Definition page_nextId (source : InputSourcePage.page) (id : Z) : Z :=
  match id with
  | 0 => InputSourcePage.nextId source
  | 1 => SQLFilePage.nextId
  | 2 => DBInputPage.nextId
  | 3 => ManualDBInputPage.nextId
  | 4 => LayerSelectionPage.nextId
  | 5 => MappingPage.nextId
  | _ => -1
  end%Z.

(** ** The plugin (lines 854 to 954) *)
Module SynMapPlugin.
Inductive error := KeyError (key : pystr) | AttributeError.

(** The layer that [run] adds to the project. *)
Record memory_layer (G V : Type) := {
  uri : pystr;
  attributes : list pystr;
  features : list (G * list (option V))
}.
Arguments uri {G V}.
Arguments attributes {G V}.
Arguments features {G V}.

Section Methods.
Context {G V : Type} (project : QgsProject G V).

(** The attributes of one output feature (lines 931 to 939). *)
Fixpoint attrs_of (mapping : gmap pystr (option pystr))
    (in_feat : QgsFeature G V) (model_attrs : list pystr)
    : error + list (option V) :=
  match model_attrs with
  | [] => inr []
  | modelo_attr :: rest =>
      let camada_field := mapping !! modelo_attr ≫= id in
      match
        (if truthy camada_field then
           match attribute in_feat (default [] camada_field) with
           | Some v => inr (Some v)
           | None => inl (KeyError (default [] camada_field))
           end
         else inr None)
      with
      | inl e => inl e
      | inr a =>
          match attrs_of mapping in_feat rest with
          | inl e => inl e
          | inr attrs => inr (a :: attrs)
          end
      end
  end.

Fixpoint feats_of (mapping : gmap pystr (option pystr))
    (model_attrs : list pystr) (in_feats : list (QgsFeature G V))
    : error + list (G * list (option V)) :=
  match in_feats with
  | [] => inr []
  | in_feat :: rest =>
      match attrs_of mapping in_feat model_attrs with
      | inl e => inl e
      | inr attrs =>
          match feats_of mapping model_attrs rest with
          | inl e => inl e
          | inr feats => inr ((geometry in_feat, attrs) :: feats)
          end
      end
  end.

(** The input layer (lines 903 to 906), [None] for Python's [None]. *)
Definition in_layer_of (w : wizard) : option (QgsVectorLayer G V) :=
  let layer_id := selectedLayerId w in
  let input_path := inputLayerPath w in
  if nonempty layer_id then mapLayer project layer_id
  else Some (ogr project input_path).

(** [run], from the wizard as [exec_] leaves it and whether it was
    accepted: the layer added to the project, if one is. *)
Definition run (accepted : bool) (w : wizard)
    : error + option (memory_layer G V) * list message :=
  if negb accepted then inr (None, [])
  else
    let mapping := attributeMapping w in
    let in_layer := in_layer_of w in
    match classesInfo w !! selectedClass w with
    | None => inl (KeyError (selectedClass w))
    | Some model_attrs =>
        match in_layer with
        | None => inl AttributeError
        | Some in_layer =>
            match feats_of mapping model_attrs (getFeatures in_layer) with
            | inl e => inl e
            | inr feats =>
                inr (Some {| uri := wkbType in_layer ++ py "?crs=" ++ crs in_layer;
                             attributes := model_attrs;
                             features := feats |},
                     [layer_created (length feats)])
            end
        end
    end.
End Methods.
End SynMapPlugin.

(** Two tables with the same texts and the same items in their boxes. *)
Definition same_rows (t t' : list (pystr * QComboBox)) : Prop :=
  Forall2 (λ row row', row'.1 = row.1 ∧ items row'.2 = items row.2) t t'.

(** The mapping that [MappingPage.validatePage] reads off the rows, from
    [mapping] on. *)
Definition mapping_of_rows (rows : list (pystr * QComboBox))
    (mapping : gmap pystr (option pystr)) : gmap pystr (option pystr) :=
  foldl (λ (mapping : gmap pystr (option pystr)) (row : pystr * QComboBox),
           <[row.1 := if nonempty (currentText row.2)
                      then Some (currentText row.2) else None]> mapping)
        mapping rows.


(** ** Further inputs of the examples *)

(** A database whose table [public.roads_a] has two geometry columns, and
    a host application that opens a table on its column [geom] only. *)
Definition two_column_rows : list (pystr * pystr * pystr) :=
  [ (py "public", py "roads_a", py "geom");
    (py "public", py "roads_a", py "centroid");
    (py "topo", py "rivers_l", py "geom") ].

Definition two_column_psycopg2 : psycopg2_module :=
  {| fetch_geometry_columns _ := mret two_column_rows |}.

Definition geom_qgis : qgis_module :=
  {| layer_fields _ _ _ geom_column :=
       if decide (geom_column = py "geom") then Some [py "id"; py "name"]
       else None |}.

(** The name and the body of a statement with a column to the line. *)
Definition roads_body : pystr :=
  nl ++ py "  id integer," ++ nl ++ py "  name varchar(50)," ++ nl ++
  py "  CONSTRAINT pk PRIMARY KEY(id)" ++ nl.

(** A connection of the host application with stored authentication, and
    the manager that holds it. *)
Definition example_group : gmap pystr pystr :=
  list_to_map [ (py "host", py "localhost"); (py "port", py "5432");
                (py "database", py "gis"); (py "authcfg", py "a1b2c3");
                (py "username", py "stale") ].

Definition example_settings : QSettings := {[ py "gis" := example_group ]}.

Definition example_authManager : QgsAuthManager :=
  λ authcfg_id,
    if decide (authcfg_id = py "a1b2c3") then
      Some {| config key :=
                Some (if decide (key = py "username") then Some (py "u")
                      else if decide (key = py "password") then Some (py "p")
                      else None) |}
    else None.

Definition example_DBInputPage : DBInputPage.page :=
  {| DBInputPage.connCombo := py "gis"; DBInputPage.passwordEdit := [];
     DBInputPage.passwordHidden := true |}.

(** A project with one layer of two features, and a wizard that has the
    class [roads] with the attributes [nome] and [descricao]. *)
Definition example_layer : QgsVectorLayer pystr pystr :=
  {| isValid := true;
     fields := [py "nome_completo"];
     getFeatures :=
       [ {| geometry := py "POINT (0 0)";
            attribute name :=
              if decide (name = py "nome_completo") then Some (py "Rua A")
              else None |};
         {| geometry := py "POINT (1 1)";
            attribute name :=
              if decide (name = py "nome_completo") then Some (py "Rua B")
              else None |} ];
     wkbType := py "Point";
     crs := py "EPSG:4326" |}.

Definition example_project : QgsProject pystr pystr :=
  {| mapLayer id :=
       if decide (id = py "layer_1") then Some example_layer else None;
     ogr _ := {| isValid := false; fields := []; getFeatures := [];
                 wkbType := py "Unknown"; crs := [] |} |}.

Definition example_wizard : wizard :=
  {| inputSource := Some (py "SQL");
     classesInfo := {[ py "roads" := [py "nome"; py "descricao"] ]};
     selectedClass := [];
     layerFields := [];
     attributeMapping := ∅;
     selectedLayerId := [];
     inputLayerPath := [] |}.

Definition example_LayerSelectionPage : LayerSelectionPage.page :=
  {| LayerSelectionPage.comboClass := py "roads";
     LayerSelectionPage.loadedLayersCombo := py "layer_1";
     LayerSelectionPage.layerPathEdit := [];
     LayerSelectionPage.layerFields := [] |}.


(** What the auto-mapper makes of [nome] and [descricao] over the field
    [nome_completo]. *)
Definition example_mapping : gmap pystr (option pystr) :=
  <[py "descricao" := None]> {[ py "nome" := Some (py "nome_completo") ]}.

(** * Properties *)

(** ** Lists *)

Lemma Forall_list_filter {A} (P : A → Prop) (f : A → bool) (l : list A) :
  Forall P l → Forall P (List.filter f l).
Proof.
  induction 1 as [|x l Hx Hl IH]; simpl; [constructor|].
  destruct (f x); [constructor|]; assumption.
Qed.

Lemma Forall_dropwhile {A} (P : A → Prop) (p : A → bool) (l : list A) :
  Forall P l → Forall P (dropwhile p l).
Proof.
  induction 1 as [|x l Hx Hl IH]; simpl; [constructor|].
  destruct (p x); [assumption|]. by constructor.
Qed.

Lemma Forall_flat_map {A B} (P : B → Prop) (f : A → list B) (l : list A) :
  Forall (λ x, Forall P (f x)) l → Forall P (flat_map f l).
Proof.
  induction 1 as [|x l Hx Hl IH]; simpl; [constructor|].
  apply Forall_app; by split.
Qed.

Lemma dropwhile_head {A} (p : A → bool) (l : list A) :
  match dropwhile p l with
  | [] => True
  | x :: _ => p x = false
  end.
Proof.
  induction l as [|x l IH]; simpl; [done|].
  destruct (p x) eqn:Hx; [exact IH | exact Hx].
Qed.

Lemma dropwhile_id {A} (p : A → bool) (l : list A) :
  match l with [] => True | x :: _ => p x = false end → dropwhile p l = l.
Proof. destruct l as [|x l]; simpl; [done|]. by intros ->. Qed.

(** Dropping from the right, one element at a time. *)
Lemma rdrop_cons {A} (p : A → bool) (x : A) (l : list A) :
  rev (dropwhile p (rev (x :: l))) =
  match rev (dropwhile p (rev l)) with
  | [] => if p x then [] else [x]
  | t => x :: t
  end.
Proof.
  simpl. induction (rev l) as [|y r IH]; simpl.
  - destruct (p x); reflexivity.
  - destruct (p y) eqn:Hy.
    + exact IH.
    + cbn [rev]. rewrite rev_app_distr. cbn [rev app].
      destruct (rev r ++ [y]) eqn:E; [|reflexivity].
      by destruct (rev r).
Qed.

Lemma dropwhile_rdrop {A} (p : A → bool) (l : list A) :
  dropwhile p (rev (dropwhile p (rev l))) =
  rev (dropwhile p (rev (dropwhile p l))).
Proof.
  induction l as [|x l IH]; [done|].
  rewrite rdrop_cons. cbn [dropwhile].
  destruct (p x) eqn:Hx.
  - destruct (rev (dropwhile p (rev l))) as [|y t] eqn:E.
    + rewrite <- IH. reflexivity.
    + cbn [dropwhile]. rewrite Hx. exact IH.
  - rewrite rdrop_cons.
    destruct (rev (dropwhile p (rev l))) as [|y t]; rewrite ?Hx; simpl;
      by rewrite Hx.
Qed.

Lemma dropwhile_dropwhile {A} (p : A → bool) (l : list A) :
  dropwhile p (dropwhile p l) = dropwhile p l.
Proof. apply dropwhile_id, dropwhile_head. Qed.

Lemma find_first {A} (p : A → bool) (l : list A) x :
  List.find p l = Some x →
  ∃ l1 l2, l = l1 ++ x :: l2 ∧ p x = true ∧ Forall (λ y, p y = false) l1.
Proof.
  induction l as [|y l IH]; simpl; [done|].
  destruct (p y) eqn:E.
  - intros [= ->]. by exists [], l.
  - intros (l1 & l2 & -> & Hx & Hl1)%IH. exists (y :: l1), l2.
    split; [done|]. split; [done|]. by constructor.
Qed.

(** ** Normalisation *)

Section NormalizeProps.
Context `{U : UCD}.

Lemma Forall_canonical_insert (P : N → Prop) c acc :
  P c → Forall P acc → Forall P (canonical_insert c acc).
Proof.
  intros Hc. induction 1 as [|h t Hh Ht IH]; simpl; [by repeat constructor|].
  destruct (_ && _); repeat constructor; assumption.
Qed.

Lemma Forall_canonical_order (P : N → Prop) s :
  Forall P s → Forall P (canonical_order s).
Proof.
  unfold canonical_order. intros Hs. apply Forall_rev.
  assert (Hacc : Forall P []) by constructor. revert Hacc.
  generalize (@nil N). induction Hs as [|c s Hc Hs IH]; intros acc Hacc; simpl.
  - assumption.
  - by apply IH, Forall_canonical_insert.
Qed.

Lemma canonical_order_starters s :
  Forall (λ c, combining c = 0) s → canonical_order s = s.
Proof.
  unfold canonical_order. intros Hs.
  enough (H : ∀ acc, fold_left (λ acc c, canonical_insert c acc) s acc
                     = rev s ++ acc).
  { rewrite H, app_nil_r. apply rev_involutive. }
  induction Hs as [|c s Hc Hs IH]; intros acc; simpl; [done|].
  rewrite IH, <- app_assoc. f_equal.
  destruct acc as [|h t]; simpl; [done|]. by rewrite Hc.
Qed.

Lemma nfkd_settled s : Forall settled s → nfkd s = s.
Proof.
  intros Hs. unfold nfkd.
  assert (E : flat_map decomposition s = s).
  { induction Hs as [|c s Hc Hs IH]; simpl; [done|].
    destruct Hc as (-> & _). simpl. by rewrite IH. }
  rewrite E. apply canonical_order_starters.
  eapply Forall_impl; [exact Hs|]. by intros c (_ & ? & _).
Qed.

Lemma filter_settled s :
  Forall settled s → List.filter (λ c, combining c =? 0) s = s.
Proof.
  induction 1 as [|c s Hc Hs IH]; simpl; [done|].
  destruct Hc as (_ & -> & _). simpl. by rewrite IH.
Qed.

Lemma lower_settled s : Forall settled s → lower s = s.
Proof.
  unfold lower. intros Hs. generalize (@nil N).
  induction Hs as [|c s Hc Hs IH]; intros before; simpl; [done|].
  destruct Hc as (_ & _ & -> & Hne).
  apply N.eqb_neq in Hne as ->. simpl. by rewrite IH.
Qed.

Lemma Forall_remove_char c s : Forall (λ x, x ≠ c) (remove_char c s).
Proof.
  unfold remove_char. induction s as [|x s IH]; simpl; [constructor|].
  destruct (N.eqb_spec x c); simpl; [assumption|]. by constructor.
Qed.

Lemma remove_char_id c s : Forall (λ x, x ≠ c) s → remove_char c s = s.
Proof.
  unfold remove_char. induction 1 as [|x s Hx Hs IH]; simpl; [done|].
  apply N.eqb_neq in Hx as ->. simpl. by rewrite IH.
Qed.

Lemma Forall_strip (P : N → Prop) s : Forall P s → Forall P (strip s).
Proof.
  intros Hs. unfold strip.
  by apply Forall_rev, Forall_dropwhile, Forall_rev, Forall_dropwhile.
Qed.

Lemma strip_strip s : strip (strip s) = strip s.
Proof.
  unfold strip. rewrite dropwhile_rdrop, dropwhile_dropwhile.
  rewrite rev_involutive. by rewrite dropwhile_rdrop, dropwhile_dropwhile.
Qed.

Context `{!UCDLaws}.

Lemma nfkd_starters_stable s :
  Forall (λ c, decomposition c = [c] ∧ combining c = 0)
    (List.filter (λ c, combining c =? 0) (nfkd s)).
Proof.
  assert (H1 : Forall (λ c, decomposition c = [c]) (nfkd s)).
  { apply Forall_canonical_order, Forall_flat_map, Forall_forall.
    intros c _. apply Forall_forall. intros d Hd.
    by apply (decomposition_stable c). }
  induction H1 as [|c l Hc Hl IH]; simpl; [constructor|].
  destruct (N.eqb_spec (combining c) 0); [|assumption].
  by constructor.
Qed.

Lemma settled_of_lowered d :
  decomposition d = [d] → combining d = 0 → lower_full d = [d] → settled d.
Proof.
  intros Hd Hc Hl. repeat split; try assumption.
  intros ->. rewrite lower_capital_sigma in Hl. discriminate Hl.
Qed.

Lemma lower_aux_settled before s :
  Forall (λ c, decomposition c = [c] ∧ combining c = 0) s →
  Forall settled (lower_aux before s).
Proof.
  intros Hs. revert before.
  induction Hs as [|c s [Hd Hc] Hs IH]; intros before; simpl; [constructor|].
  apply Forall_app. split; [|apply IH].
  destruct (c =? CAPITAL_SIGMA).
  - constructor; [|constructor].
    destruct (small_sigma_stable (handle_capital_sigma before s))
      as (? & ? & ?); [|by apply settled_of_lowered].
    unfold handle_capital_sigma. destruct (_ && _); auto.
  - apply Forall_forall. intros d Hin.
    destruct (lower_full_stable c d) as (? & ? & ?); try assumption.
    by apply settled_of_lowered.
Qed.

(** [normalize_str] leaves its own results as they are. *)
Lemma normalize_str_fixed s :
  normalize_str (normalize_str s) = normalize_str s.
Proof.
  set (r := normalize_str s).
  assert (Hr : Forall (λ c, settled c ∧ c ≠ LOW_LINE) r).
  { subst r. unfold normalize_str. apply Forall_strip.
    apply Forall_and. split; [|apply Forall_remove_char].
    apply Forall_list_filter, lower_aux_settled, nfkd_starters_stable. }
  apply Forall_and in Hr as [Hs Hl].
  unfold normalize_str at 1.
  rewrite (nfkd_settled r Hs), (filter_settled r Hs), (lower_settled r Hs).
  rewrite (remove_char_id _ r Hl).
  subst r. unfold normalize_str. apply strip_strip.
Qed.
End NormalizeProps.

(** ** Stable sorting *)

Section SortedProps.
Context {A : Type} (key : A → Z).

Lemma insert_desc_perm x l : insert_desc key x l ≡ₚ x :: l.
Proof.
  induction l as [|y l IH]; simpl; [done|].
  destruct (key x <? key y)%Z; [|done].
  rewrite IH. apply Permutation_swap.
Qed.

Lemma sorted_desc_perm l : sorted_desc key l ≡ₚ l.
Proof.
  induction l as [|x l IH]; simpl; [done|].
  by rewrite insert_desc_perm, IH.
Qed.

Lemma sorted_desc_length l : length (sorted_desc key l) = length l.
Proof. by rewrite sorted_desc_perm. Qed.

Lemma elem_of_sorted_desc x l : x ∈ sorted_desc key l ↔ x ∈ l.
Proof. by rewrite sorted_desc_perm. Qed.

Lemma precedes_here (x y : A) l : precedes x y (x :: l).
Proof. exists [], l. split; [done|]. apply not_elem_of_nil. Qed.

Lemma precedes_cons (x y h : A) l :
  h ≠ y → precedes x y l → precedes x y (h :: l).
Proof.
  intros Hh (l1 & l2 & -> & Hy). exists (h :: l1), l2. split; [done|].
  apply not_elem_of_cons. by split.
Qed.

Lemma precedes_cons_inv (x y h : A) l :
  precedes x y (h :: l) → h = x ∨ (h ≠ y ∧ precedes x y l).
Proof.
  intros (l1 & l2 & E & Hy). destruct l1 as [|h' l1]; simplify_eq/=.
  - by left.
  - apply not_elem_of_cons in Hy as [? ?]. right. split; [done|].
    by exists l1, l2.
Qed.

Lemma precedes_insert_other (x y z : A) l :
  z ≠ y → precedes x y l → precedes x y (insert_desc key z l).
Proof.
  intros Hz. induction l as [|h l IH]; intros Hp.
  - destruct Hp as (l1 & l2 & E & _). by destruct l1.
  - simpl. destruct (key z <? key h)%Z.
    + apply precedes_cons_inv in Hp as [->|[? ?]].
      * apply precedes_here.
      * apply precedes_cons; auto.
    + by apply precedes_cons.
Qed.

Lemma precedes_insert_self (x y : A) l :
  (key y ≤ key x)%Z → precedes x y (insert_desc key x l).
Proof.
  intros Hk. induction l as [|h l IH]; simpl.
  - apply precedes_here.
  - destruct (key x <? key h)%Z eqn:E.
    + apply precedes_cons; [|done]. intros ->. apply Z.ltb_lt in E. lia.
    + apply precedes_here.
Qed.

(** Stability: an item stays ahead of the later items that do not
    outrank it. *)
Lemma sorted_desc_stable (x y : A) l :
  (key y ≤ key x)%Z → precedes x y l → precedes x y (sorted_desc key l).
Proof.
  intros Hk. induction l as [|h l IH]; intros Hp.
  - destruct Hp as (l1 & l2 & E & _). by destruct l1.
  - simpl. apply precedes_cons_inv in Hp as [->|[? ?]].
    + by apply precedes_insert_self.
    + apply precedes_insert_other; auto.
Qed.
End SortedProps.

Lemma precedes_fmap {A B} (f : A → B) (x y : A) (l : list A) :
  (∀ z, z ∈ l → f z = f y → z = y) →
  precedes x y l → precedes (f x) (f y) (f <$> l).
Proof.
  intros Hinj (l1 & l2 & -> & Hy). exists (f <$> l1), (f <$> l2).
  split; [by rewrite fmap_app|].
  intros (z & Hz & Hin)%list_elem_of_fmap. apply Hy.
  rewrite <- (Hinj z); [done| |done]. apply elem_of_app. by left.
Qed.

Lemma precedes_before {A} (x y : A) l1 l2 :
  x ≠ y → precedes x y (l1 ++ y :: l2) → x ∈ l1.
Proof.
  intros Hne. induction l1 as [|h l1 IH]; simpl.
  - intros [E|[E _]]%precedes_cons_inv; congruence.
  - intros [->|[_ Hp]]%precedes_cons_inv; apply elem_of_cons; auto.
Qed.

(** ** Dictionaries *)

Section DictProps.
Context {V : Type}.
Implicit Types (d : dict V) (k : pystr) (v : V).

Lemma dict_get_None d k : dict_get d k = None ↔ k ∉ dict_keys d.
Proof.
  unfold dict_keys. induction d as [|[k' v'] d IH]; simpl.
  - split; [intros _; apply not_elem_of_nil | done].
  - rewrite not_elem_of_cons. destruct (decide (k' = k)) as [->|Hne].
    + split; [done | by intros [? _]].
    + rewrite IH. split; [intros ?; split; [congruence|done] | by intros [_ ?]].
Qed.

Lemma dict_get_Some d k v : dict_get d k = Some v → (k, v) ∈ d.
Proof.
  induction d as [|[k' v'] d IH]; simpl; [done|].
  destruct (decide (k' = k)) as [->|Hne].
  - intros [= ->]. apply elem_of_cons. by left.
  - intros H. apply elem_of_cons. right. auto.
Qed.

Lemma dict_get_set d k v k' :
  dict_get (dict_set d k v) k' =
  if decide (k = k') then Some v else dict_get d k'.
Proof.
  induction d as [|[k0 v0] d IH]; simpl.
  - destruct (decide (k = k')); reflexivity.
  - destruct (decide (k0 = k)) as [->|Hne]; simpl.
    + destruct (decide (k = k')); reflexivity.
    + destruct (decide (k0 = k')) as [->|Hne'].
      * by destruct (decide (k = k')); [congruence|].
      * exact IH.
Qed.

Lemma dict_keys_set_in d k v :
  k ∈ dict_keys d → dict_keys (dict_set d k v) = dict_keys d.
Proof.
  unfold dict_keys. induction d as [|[k0 v0] d IH]; cbn [dict_set].
  - by intros ?%elem_of_nil.
  - rewrite fmap_cons. intros Hin.
    destruct (decide (k0 = k)) as [->|Hne]; [done|].
    rewrite !fmap_cons. f_equal. apply IH.
    apply elem_of_cons in Hin as [->|Hin]; done.
Qed.

Lemma dict_keys_set_notin d k v :
  k ∉ dict_keys d → dict_keys (dict_set d k v) = dict_keys d ++ [k].
Proof.
  unfold dict_keys. induction d as [|[k0 v0] d IH]; cbn [dict_set]; [done|].
  rewrite fmap_cons. intros [Hne Hin]%not_elem_of_cons.
  rewrite decide_False by done. rewrite fmap_cons, IH by done. done.
Qed.

Lemma dict_keys_set_elem d k v k' :
  k' ∈ dict_keys (dict_set d k v) ↔ k' = k ∨ k' ∈ dict_keys d.
Proof.
  destruct (decide (k ∈ dict_keys d)) as [Hin|Hin].
  - rewrite dict_keys_set_in by done. split; [by right | by intros [->|?]].
  - rewrite dict_keys_set_notin, elem_of_app, list_elem_of_singleton by done.
    tauto.
Qed.
End DictProps.

(** ** The auto-mapper *)

Lemma elem_of_dict_set {V} (d : dict V) k v k' v' :
  (k', v') ∈ dict_set d k v → (k', v') = (k, v) ∨ (k', v') ∈ d.
Proof.
  induction d as [|[k0 v0] d IH]; cbn [dict_set].
  - intros ->%list_elem_of_singleton. by left.
  - destruct (decide (k0 = k)) as [->|Hne].
    + intros [->|Hin]%elem_of_cons; [by left|].
      right. apply elem_of_cons. by right.
    + intros [->|Hin]%elem_of_cons.
      * right. apply elem_of_cons. by left.
      * destruct (IH Hin) as [?|?]; [by left|].
        right. apply elem_of_cons. by right.
Qed.

Section AutoMapProps.
Context `{U : UCD} (fuzz : fuzz_module) (process : process_module).
Context (synonyms_dict : gmap pystr (list pystr)) (threshold : Z).

(** With a limit of all the choices and scores that are percentages,
    [process.extract] ranks every choice. *)
Lemma extract_all q choices :
  extract process q choices (partial_ratio fuzz) (length choices)
  = sorted_desc snd ((λ choice, (choice, score fuzz process q choice))
                       <$> choices).
Proof.
  unfold extract, extractWithoutOrder.
  assert (E : ∀ l : list pystr,
    List.filter (λ r : pystr * Z, (0 <=? r.2)%Z)
      ((λ choice, (choice, partial_ratio fuzz (default_processor process q)
                             (default_processor process choice))) <$> l)
    = (λ choice, (choice, score fuzz process q choice)) <$> l).
  { induction l as [|x l IH]; [done|]. rewrite !fmap_cons. cbn [List.filter snd].
    destruct (Z.leb_spec 0 (partial_ratio fuzz (default_processor process q)
                              (default_processor process x))) as [_|Hneg].
    - by rewrite IH.
    - pose proof (partial_ratio_range fuzz (default_processor process q)
                    (default_processor process x)). lia. }
  rewrite E. apply take_ge. by rewrite sorted_desc_length, length_fmap.
Qed.

Lemma elem_of_extract q choices f v :
  (f, v) ∈ extract process q choices (partial_ratio fuzz) (length choices) ↔
  f ∈ choices ∧ v = score fuzz process q f.
Proof.
  rewrite extract_all, elem_of_sorted_desc, list_elem_of_fmap. split.
  - by intros (x & [= -> ->] & Hx).
  - intros [Hf ->]. by exists f.
Qed.

Lemma record_match_keys d r k :
  k ∈ dict_keys (record_match threshold d r) ↔
  k ∈ dict_keys d ∨ (k = r.1 ∧ (threshold ≤ r.2)%Z).
Proof.
  unfold record_match. destruct (Z.leb_spec threshold r.2) as [Hle|Hlt].
  - destruct (dict_get d r.1) as [old|] eqn:Hget.
    + assert (Hin : r.1 ∈ dict_keys d).
      { destruct (decide (r.1 ∈ dict_keys d)) as [|Hn]; [done|].
        apply dict_get_None in Hn. congruence. }
      destruct (old <? r.2)%Z.
      * rewrite dict_keys_set_elem. split; [intros [->|?]; auto|].
        intros [?|[-> _]]; auto.
      * split; [auto|]. by intros [?|[-> _]].
    + rewrite dict_keys_set_elem. split; [intros [->|?]; auto|].
      intros [?|[-> _]]; auto.
  - split; [auto|]. intros [?|[_ ?]]; [done|lia].
Qed.

Lemma record_match_elem d r k v :
  (k, v) ∈ record_match threshold d r →
  (k, v) ∈ d ∨ ((k, v) = r ∧ (threshold ≤ r.2)%Z).
Proof.
  unfold record_match. destruct (Z.leb_spec threshold r.2) as [Hle|Hlt]; [|auto].
  destruct r as [k0 v0]; simpl in *.
  destruct (dict_get d k0) as [old|]; [destruct (old <? v0)%Z|]; auto.
  all: intros [?|?]%elem_of_dict_set; auto.
Qed.

Lemma foldl_record_match_keys R d k :
  k ∈ dict_keys (foldl (record_match threshold) d R) ↔
  k ∈ dict_keys d ∨ ∃ v, (k, v) ∈ R ∧ (threshold ≤ v)%Z.
Proof.
  revert d. induction R as [|r R IH]; intros d; simpl.
  - split; [auto|]. intros [?|(v & ?%elem_of_nil & _)]; done.
  - rewrite IH, record_match_keys. split.
    + intros [[?|[-> ?]]|(v & ? & ?)]; auto.
      * right. exists r.2. split; [|done]. destruct r. apply elem_of_cons. by left.
      * right. exists v. split; [|done]. apply elem_of_cons. by right.
    + intros [?|(v & [E|?]%elem_of_cons & ?)]; auto.
      * subst r. auto.
      * right. by exists v.
Qed.

Lemma foldl_record_match_elem R d k v :
  (k, v) ∈ foldl (record_match threshold) d R →
  (k, v) ∈ d ∨ ((k, v) ∈ R ∧ (threshold ≤ v)%Z).
Proof.
  revert d. induction R as [|r R IH]; intros d; simpl; [auto|].
  intros [[?|[E ?]]%record_match_elem|[? ?]]%IH; auto.
  - subst r. right. split; [|done]. apply elem_of_cons. by left.
  - right. split; [|done]. apply elem_of_cons. by right.
Qed.

(** The fields that enter [candidate_matches]: those that some candidate
    scores at the threshold or above. *)
Lemma candidate_matches_keys normalized_fields candidates k :
  k ∈ dict_keys (candidate_matches_of fuzz process threshold
                   normalized_fields candidates) ↔
  k ∈ normalized_fields ∧
  ∃ c, c ∈ candidates ∧ (threshold ≤ score fuzz process c k)%Z.
Proof.
  unfold candidate_matches_of.
  enough (H : ∀ d, k ∈ dict_keys (foldl
    (λ cm candidate, foldl (record_match threshold) cm
       (extract process candidate normalized_fields (partial_ratio fuzz)
          (length normalized_fields))) d candidates) ↔
    k ∈ dict_keys d ∨ (k ∈ normalized_fields ∧
      ∃ c, c ∈ candidates ∧ (threshold ≤ score fuzz process c k)%Z)).
  { rewrite H. split; [|auto]. by intros [?%elem_of_nil|?]. }
  induction candidates as [|c cs IH]; intros d; simpl.
  - split; [auto|]. intros [?|(_ & c & ?%elem_of_nil & _)]; done.
  - rewrite IH, foldl_record_match_keys. split.
    + intros [[?|(v & [? ->]%elem_of_extract & ?)]|(? & c' & ? & ?)]; auto.
      * right. split; [done|]. exists c. split; [|done]. apply elem_of_cons. by left.
      * right. split; [done|]. exists c'. split; [|done]. apply elem_of_cons. by right.
    + intros [?|(? & c' & [->|?]%elem_of_cons & ?)]; auto.
      * left. right. eexists. split; [|done]. by apply elem_of_extract.
      * right. split; [done|]. by exists c'.
Qed.

Lemma candidate_matches_elem normalized_fields candidates k v :
  (k, v) ∈ candidate_matches_of fuzz process threshold
             normalized_fields candidates →
  (threshold ≤ v)%Z ∧ k ∈ normalized_fields ∧
  ∃ c, c ∈ candidates ∧ v = score fuzz process c k.
Proof.
  unfold candidate_matches_of.
  enough (H : ∀ d, (k, v) ∈ foldl
    (λ cm candidate, foldl (record_match threshold) cm
       (extract process candidate normalized_fields (partial_ratio fuzz)
          (length normalized_fields))) d candidates →
    (k, v) ∈ d ∨ ((threshold ≤ v)%Z ∧ k ∈ normalized_fields ∧
      ∃ c, c ∈ candidates ∧ v = score fuzz process c k)).
  { intros [?%elem_of_nil|?]%H; done. }
  induction candidates as [|c cs IH]; intros d; simpl; [auto|].
  intros [[?|[[? ->]%elem_of_extract ?]]%foldl_record_match_elem|(? & ? & c' & ? & ?)]%IH;
    auto.
  - right. split; [done|]. split; [done|]. exists c. split; [|done].
    apply elem_of_cons. by left.
  - right. split; [done|]. split; [done|]. exists c'. split; [|done].
    apply elem_of_cons. by right.
Qed.
Lemma sorted_matches_keys normalized_fields attr k :
  k ∈ (sorted_matches_of fuzz process synonyms_dict threshold
         normalized_fields attr).*1 ↔
  k ∈ normalized_fields ∧
  ∃ c, c ∈ candidates_of synonyms_dict attr ∧
       (threshold ≤ score fuzz process c k)%Z.
Proof.
  unfold sorted_matches_of. rewrite sorted_desc_perm.
  apply candidate_matches_keys.
Qed.

Lemma sorted_matches_elem normalized_fields attr k v :
  (k, v) ∈ sorted_matches_of fuzz process synonyms_dict threshold
             normalized_fields attr →
  (threshold ≤ v)%Z ∧ k ∈ normalized_fields ∧
  ∃ c, c ∈ candidates_of synonyms_dict attr ∧ v = score fuzz process c k.
Proof.
  unfold sorted_matches_of. rewrite elem_of_sorted_desc.
  apply candidate_matches_elem.
Qed.

Lemma best_match_of_Some used sorted_matches best_match :
  best_match_of used sorted_matches = Some best_match →
  best_match ∈ sorted_matches.*1 ∧ best_match ∉ used.
Proof.
  unfold best_match_of.
  destruct (List.find _ _) as [m|] eqn:E; [|done]. intros [= <-].
  apply find_some in E as [Hin Hp]. apply bool_decide_eq_true in Hp.
  split; [|done]. apply list_elem_of_fmap. exists m.
  split; [done|]. by apply list_elem_of_In.
Qed.

Lemma best_match_of_None used sorted_matches :
  (∀ k, k ∈ sorted_matches.*1 → k ∈ used) →
  best_match_of used sorted_matches = None.
Proof.
  intros Hused.
  destruct (best_match_of used sorted_matches) as [bm|] eqn:E; [|done].
  apply best_match_of_Some in E as [Hin Hn]. destruct Hn. auto.
Qed.

Lemma best_match_of_is_Some used sorted_matches k :
  k ∈ sorted_matches.*1 → k ∉ used →
  is_Some (best_match_of used sorted_matches).
Proof.
  intros Hin Hn. unfold best_match_of.
  destruct (List.find _ _) as [m|] eqn:E; [by eexists|].
  apply list_elem_of_fmap in Hin as (m & -> & Hm).
  apply list_elem_of_In in Hm.
  apply (find_none _ _ E) in Hm. by apply bool_decide_eq_false in Hm.
Qed.

Lemma find_original (normalized_layer_fields : list (pystr * pystr)) best_match :
  best_match ∈ normalized_layer_fields.*2 →
  ∃ p, List.find (λ p, bool_decide (p.2 = best_match))
         normalized_layer_fields = Some p ∧
       p ∈ normalized_layer_fields ∧ p.2 = best_match.
Proof.
  intros (q & -> & Hq)%list_elem_of_fmap.
  destruct (List.find _ _) as [p|] eqn:E.
  - exists p. split; [done|]. apply find_some in E as [Hin Hp].
    apply bool_decide_eq_true in Hp. by apply list_elem_of_In in Hin.
  - apply list_elem_of_In in Hq. apply (find_none _ _ E) in Hq.
    by apply bool_decide_eq_false in Hq.
Qed.

(** The two outcomes of the loop body. *)
Lemma map_attribute_cases normalized_layer_fields st attr :
  let sorted_matches :=
    sorted_matches_of fuzz process synonyms_dict threshold
      normalized_layer_fields.*2 attr in
  (∃ p, p ∈ normalized_layer_fields ∧
        best_match_of st.2 sorted_matches = Some p.2 ∧
        map_attribute fuzz process synonyms_dict threshold
          normalized_layer_fields st attr
        = (<[attr := Some p.1]> st.1, {[p.2]} ∪ st.2)) ∨
  (best_match_of st.2 sorted_matches = None ∧
   map_attribute fuzz process synonyms_dict threshold
     normalized_layer_fields st attr
   = (<[attr := None]> st.1, st.2)).
Proof.
  intros sorted_matches. unfold map_attribute. fold sorted_matches.
  destruct (best_match_of st.2 sorted_matches) as [bm|] eqn:E; [left|by right].
  pose proof E as [Hin _]%best_match_of_Some.
  apply sorted_matches_keys in Hin as [Hin _].
  destruct (find_original _ _ Hin) as (p & -> & Hp & <-). by exists p.
Qed.

Lemma map_attribute_inv layer_fields st attr :
  mapping_inv st →
  mapping_inv (map_attribute fuzz process synonyms_dict threshold
                 ((λ field, (field, normalize_str field)) <$> layer_fields)
                 st attr).
Proof.
  intros [Hused Hinj].
  destruct (map_attribute_cases
              ((λ field, (field, normalize_str field)) <$> layer_fields)
              st attr) as [(p & Hp & Hbest & ->)|[_ ->]].
  - apply list_elem_of_fmap in Hp as (field & -> & _). simpl in *.
    apply best_match_of_Some in Hbest as [_ Hfresh].
    split; simpl.
    + intros a f. rewrite lookup_insert. case_decide.
      * intros [= <-]. set_solver.
      * intros ?%Hused. set_solver.
    + intros a1 a2 f. rewrite !lookup_insert.
      repeat case_decide; subst; try done.
      * intros [= <-] ?%Hused. done.
      * intros ?%Hused [= <-]. done.
      * apply Hinj.
  - split; simpl.
    + intros a f. rewrite lookup_insert. case_decide; [done|]. apply Hused.
    + intros a1 a2 f. rewrite !lookup_insert.
      repeat case_decide; subst; try done. apply Hinj.
Qed.

Lemma map_attributes_inv model_attributes layer_fields :
  mapping_inv (map_attributes fuzz process synonyms_dict threshold
                 model_attributes layer_fields).
Proof.
  unfold map_attributes.
  assert (H0 : mapping_inv (∅, ∅)).
  { split; simpl; intros *; by rewrite lookup_empty. }
  revert H0. generalize (∅ : gmap pystr (option pystr), ∅ : gset pystr).
  induction model_attributes as [|attr attrs IH]; intros st Hst; simpl; [done|].
  by apply IH, map_attribute_inv.
Qed.

(** An attribute other than the one mapped keeps its entry. *)
Lemma map_attribute_other normalized_layer_fields st attr a :
  a ≠ attr →
  (map_attribute fuzz process synonyms_dict threshold
     normalized_layer_fields st attr).1 !! a = st.1 !! a.
Proof.
  intros Hne.
  destruct (map_attribute_cases normalized_layer_fields st attr)
    as [(p & _ & _ & ->)|[_ ->]]; simpl; by rewrite lookup_insert_ne.
Qed.

Lemma map_attribute_is_Some normalized_layer_fields st attr :
  is_Some ((map_attribute fuzz process synonyms_dict threshold
              normalized_layer_fields st attr).1 !! attr).
Proof.
  destruct (map_attribute_cases normalized_layer_fields st attr)
    as [(p & _ & _ & ->)|[_ ->]]; simpl; rewrite lookup_insert_eq; by eexists.
Qed.

(** No field left to take: the attribute is mapped to [None]. *)
Lemma map_attribute_unmapped normalized_layer_fields st attr :
  (∀ k, k ∈ normalized_layer_fields.*2 →
        (∃ c, c ∈ candidates_of synonyms_dict attr ∧
              (threshold ≤ score fuzz process c k)%Z) → k ∈ st.2) →
  map_attribute fuzz process synonyms_dict threshold
    normalized_layer_fields st attr
  = (<[attr := None]> st.1, st.2).
Proof.
  intros Hnone.
  destruct (map_attribute_cases normalized_layer_fields st attr)
    as [(p & _ & Hbest & _)|[_ ->]]; [|done].
  apply best_match_of_Some in Hbest as [[? ?]%sorted_matches_keys Hfresh].
  destruct Hfresh. auto.
Qed.

(** A single layer field, free and within reach of a candidate: the
    attribute takes it. *)
Lemma map_attribute_single field st attr :
  normalize_str field ∉ st.2 →
  (∃ c, c ∈ candidates_of synonyms_dict attr ∧
        (threshold ≤ score fuzz process c (normalize_str field))%Z) →
  map_attribute fuzz process synonyms_dict threshold
    [(field, normalize_str field)] st attr
  = (<[attr := Some field]> st.1, {[normalize_str field]} ∪ st.2).
Proof.
  intros Hfresh Hc.
  destruct (map_attribute_cases [(field, normalize_str field)] st attr)
    as [(p & ->%list_elem_of_singleton & _ & ->)|[Hbest _]]; [done|].
  destruct (best_match_of_is_Some st.2
    (sorted_matches_of fuzz process synonyms_dict threshold
       [(field, normalize_str field)].*2 attr) (normalize_str field))
    as [bm Hbm]; [|done|congruence].
  apply sorted_matches_keys. split; [|done]. simpl.
  apply list_elem_of_singleton. done.
Qed.
(** *** Ties *)

Lemma foldl_invariant {A B} (J : A → Prop) (f : A → B → A) (l : list B) a :
  (∀ a x, x ∈ l → J a → J (f a x)) → J a → J (foldl f a l).
Proof.
  revert a. induction l as [|x l IH]; intros a Hf Ha; simpl; [done|].
  apply IH.
  - intros a' y Hy. apply Hf, elem_of_cons. by right.
  - apply Hf; [|done]. apply elem_of_cons. by left.
Qed.

Lemma dict_set_NoDup (d : dict Z) k v :
  NoDup (dict_keys d) → NoDup (dict_keys (dict_set d k v)).
Proof.
  intros Hd. destruct (decide (k ∈ dict_keys d)) as [Hin|Hin].
  - by rewrite dict_keys_set_in.
  - rewrite dict_keys_set_notin by done. apply NoDup_app.
    split; [done|]. split; [|apply NoDup_singleton].
    by intros x Hx ->%list_elem_of_singleton.
Qed.

Lemma record_match_NoDup d r :
  NoDup (dict_keys d) → NoDup (dict_keys (record_match threshold d r)).
Proof.
  intros Hd. unfold record_match.
  destruct (threshold <=? r.2)%Z; [|done].
  destruct (dict_get d r.1) as [old|];
    [destruct (old <? r.2)%Z|]; auto using dict_set_NoDup.
Qed.

Lemma candidate_matches_NoDup normalized_fields candidates :
  NoDup (dict_keys (candidate_matches_of fuzz process threshold
                      normalized_fields candidates)).
Proof.
  unfold candidate_matches_of. apply foldl_invariant; [|apply NoDup_nil_2].
  intros d c _ Hd. apply foldl_invariant; [|done].
  intros d' r _. apply record_match_NoDup.
Qed.

Lemma NoDup_keys_unique {V} (d : dict V) k v v' :
  NoDup (dict_keys d) → (k, v) ∈ d → (k, v') ∈ d → v = v'.
Proof.
  unfold dict_keys. induction d as [|[k0 v0] d IH]; [by intros _ ?%elem_of_nil|].
  rewrite fmap_cons, NoDup_cons. intros [Hk Hd] H1 H2.
  apply elem_of_cons in H1 as [E1|H1]; apply elem_of_cons in H2 as [E2|H2].
  - congruence.
  - destruct Hk. apply list_elem_of_fmap. exists (k, v'). by simplify_eq.
  - destruct Hk. apply list_elem_of_fmap. exists (k, v). by simplify_eq.
  - auto.
Qed.

Lemma precedes_app_r {A} (x y : A) l k : precedes x y l → precedes x y (l ++ k).
Proof.
  intros (l1 & l2 & -> & Hy). exists l1, (l2 ++ k).
  split; [|done]. by rewrite <- app_assoc.
Qed.

Lemma precedes_snoc {A} (x y : A) l : x ∈ l → y ∉ l → precedes x y (l ++ [y]).
Proof.
  intros (l1 & l2 & ->)%list_elem_of_split Hy. exists l1, (l2 ++ [y]).
  split; [by rewrite <- app_assoc|]. intros ?. apply Hy, elem_of_app. by left.
Qed.

Lemma dict_get_is_Some {V} (d : dict V) k v :
  dict_get d k = Some v → k ∈ dict_keys d.
Proof.
  intros H. destruct (decide (k ∈ dict_keys d)) as [|Hn]; [done|].
  apply dict_get_None in Hn. congruence.
Qed.

Section Ahead.
Context (n1 n2 : pystr) (Hne : n1 ≠ n2).

Lemma ahead_set_other d k v :
  k ≠ n2 → (∀ v1, dict_get d n1 = Some v1 → k = n1 → (v1 ≤ v)%Z) →
  ahead n1 n2 d → ahead n1 n2 (dict_set d k v).
Proof.
  intros Hk Hv Hd v2. rewrite dict_get_set, decide_False by done.
  intros (v1 & H1 & Hle & Hp)%Hd. rewrite dict_get_set.
  destruct (decide (k = n1)) as [->|Hk1].
  - exists v. split; [done|]. split; [specialize (Hv _ H1 eq_refl); lia|].
    rewrite dict_keys_set_in; [done|]. by eapply dict_get_is_Some.
  - exists v1. split; [done|]. split; [done|].
    destruct (decide (k ∈ dict_keys d)).
    + by rewrite dict_keys_set_in.
    + rewrite dict_keys_set_notin by done. by apply precedes_app_r.
Qed.

Lemma ahead_record_other d r :
  r.1 ≠ n2 → ahead n1 n2 d → ahead n1 n2 (record_match threshold d r).
Proof.
  intros Hr Hd. unfold record_match.
  destruct (threshold <=? r.2)%Z; [|done].
  destruct (dict_get d r.1) as [old|] eqn:Hget.
  - destruct (Z.ltb_spec old r.2); [|done].
    apply ahead_set_other; [done| |done].
    intros v1 H1 E. rewrite E in Hget. simplify_eq. lia.
  - apply ahead_set_other; [done| |done].
    intros v1 H1 E. rewrite E in Hget. congruence.
Qed.

Lemma ahead_record_self d s2 :
  (threshold ≤ s2 → ∃ v1, dict_get d n1 = Some v1 ∧ s2 ≤ v1)%Z →
  ahead n1 n2 d → ahead n1 n2 (record_match threshold d (n2, s2)).
Proof.
  intros Hs Hd. unfold record_match. simpl.
  destruct (Z.leb_spec threshold s2) as [Hle|]; [|done].
  destruct (Hs Hle) as (v1 & H1 & Hv1).
  destruct (dict_get d n2) as [old|] eqn:Hget.
  - destruct (Z.ltb_spec old s2); [|done].
    destruct (Hd _ Hget) as (v1' & H1' & _ & Hp).
    intros v2. rewrite !dict_get_set, decide_True, decide_False by done.
    intros [= <-]. exists v1. split; [done|]. split; [done|].
    rewrite dict_keys_set_in; [done|]. by eapply dict_get_is_Some.
  - intros v2. rewrite !dict_get_set, decide_True, decide_False by done.
    intros [= <-]. exists v1. split; [done|]. split; [done|].
    apply dict_get_None in Hget. rewrite dict_keys_set_notin by done.
    apply precedes_snoc; [|done]. by eapply dict_get_is_Some.
Qed.

(** The entry of [n1] only ever rises. *)
Lemma record_match_rises d r s :
  (∃ v, dict_get d n1 = Some v ∧ s ≤ v)%Z →
  (∃ v, dict_get (record_match threshold d r) n1 = Some v ∧ s ≤ v)%Z.
Proof.
  intros (v & Hv & Hle). unfold record_match.
  destruct (threshold <=? r.2)%Z; [|by exists v].
  destruct (dict_get d r.1) as [old|] eqn:Hget.
  - destruct (Z.ltb_spec old r.2); [|by exists v].
    rewrite dict_get_set. case_decide as E; [|by exists v].
    rewrite E in Hget. simplify_eq. exists r.2. split; [done|lia].
  - rewrite dict_get_set. case_decide as E; [|by exists v].
    rewrite E in Hget. congruence.
Qed.

Lemma record_match_enters d s1 :
  (threshold ≤ s1)%Z →
  (∃ v, dict_get (record_match threshold d (n1, s1)) n1 = Some v ∧ s1 ≤ v)%Z.
Proof.
  intros Hle. unfold record_match. simpl.
  apply Z.leb_le in Hle as ->.
  destruct (dict_get d n1) as [old|] eqn:Hget.
  - destruct (Z.ltb_spec old s1).
    + rewrite dict_get_set, decide_True by done. exists s1. split; [done|lia].
    + exists old. split; [done|lia].
  - rewrite dict_get_set, decide_True by done. exists s1. split; [done|lia].
Qed.

(** One round of results in which [n1] comes before [n2] and scores at
    least as much. *)
Lemma foldl_record_match_ahead R d s1 s2 :
  (s2 ≤ s1)%Z →
  (∀ v, (n2, v) ∈ R → v = s2) →
  ((n2, s2) ∈ R → precedes (n1, s1) (n2, s2) R) →
  ahead n1 n2 d → ahead n1 n2 (foldl (record_match threshold) d R).
Proof.
  intros Hle Hn2 Hp Hd.
  destruct (decide ((n2, s2) ∈ R)) as [Hin|Hin].
  - destruct (Hp Hin) as (R1 & R2 & -> & HR1).
    rewrite foldl_app. simpl.
    set (d1 := foldl (record_match threshold) d R1).
    assert (Hd1 : ahead n1 n2 d1).
    { apply foldl_invariant; [|done]. intros d' r Hr.
      apply ahead_record_other. intros E. apply HR1.
      destruct r as [k v]. simpl in E. subst k.
      rewrite (Hn2 v) in Hr; [done|]. apply elem_of_app. by left. }
    apply (foldl_invariant
      (λ d, ahead n1 n2 d ∧
            ((threshold ≤ s1)%Z → ∃ v, dict_get d n1 = Some v ∧ (s1 ≤ v)%Z))).
    + intros d' r Hr [Hd' Hv]. split.
      * destruct (decide (r.1 = n2)) as [E|E]; [|by apply ahead_record_other].
        destruct r as [k v]. simpl in E. subst k.
        rewrite (Hn2 v);
          [|apply elem_of_app; right; apply elem_of_cons; by right].
        apply ahead_record_self; [|done].
        intros Ht. destruct Hv as (v1 & ? & ?); [lia|].
        exists v1. split; [done|lia].
      * intros Ht. by apply record_match_rises, Hv.
    + split.
      * by apply ahead_record_other.
      * apply record_match_enters.
  - apply foldl_invariant; [|done]. intros d' r Hr.
    apply ahead_record_other. intros E. apply Hin.
    destruct r as [k v]. simpl in E. subst k. by rewrite <- (Hn2 v).
Qed.

Lemma candidate_matches_ahead normalized_fields candidates :
  precedes n1 n2 normalized_fields →
  (∀ c, c ∈ candidates →
        (score fuzz process c n2 ≤ score fuzz process c n1)%Z) →
  ahead n1 n2 (candidate_matches_of fuzz process threshold
           normalized_fields candidates).
Proof.
  intros Hp Hdom. unfold candidate_matches_of.
  apply foldl_invariant; [|by intros v2 [=]].
  intros d c Hc Hd.
  apply (foldl_record_match_ahead _ _ (score fuzz process c n1)
           (score fuzz process c n2)); [by apply Hdom| | |done].
  - by intros v [_ ->]%elem_of_extract.
  - intros _. rewrite extract_all.
    apply sorted_desc_stable; [by apply Hdom|].
    apply (precedes_fmap
             (λ choice, (choice, score fuzz process c choice))); [|done].
    by intros z _ [= ->].
Qed.

Lemma precedes_keys_entries (d : dict Z) v1 v2 :
  NoDup (dict_keys d) → (n1, v1) ∈ d → precedes n1 n2 (dict_keys d) →
  precedes (n1, v1) (n2, v2) d.
Proof.
  intros Hd H1 (l1 & l2 & E & Hn). unfold dict_keys in E.
  apply fmap_app_inv in E as (L1 & L' & -> & E' & ->).
  symmetry in E'. apply fmap_cons_inv in E' as ([k v] & L2 & Ek & -> & ->).
  simpl in Ek. subst k.
  rewrite (NoDup_keys_unique _ n1 v1 v Hd H1) by
    (apply elem_of_app; right; apply elem_of_cons; by left).
  exists L1, L2. split; [done|]. intros Hin. apply Hn.
  apply list_elem_of_fmap. by exists (n2, v2).
Qed.

Lemma best_match_of_precedes used (l : list (pystr * Z)) :
  precedes n1 n2 l.*1 → n1 ∉ used → best_match_of used l ≠ Some n2.
Proof.
  intros Hp Hfresh. induction l as [|[k v] l IH].
  - destruct Hp as (l1 & l2 & E & _). by destruct l1.
  - rewrite fmap_cons in Hp. unfold best_match_of. simpl.
    apply precedes_cons_inv in Hp as [E|[Hk Hp]]; simpl in *.
    + subst k. rewrite bool_decide_eq_true_2 by done. simpl. congruence.
    + destruct (bool_decide (k ∉ used)); simpl; [congruence|]. by apply IH.
Qed.

(** Of two fields the first of which comes earlier in the field list
    and scores at least as high under every candidate, the first is
    ranked first and, while free, is picked before the second. *)
Lemma sorted_matches_ahead normalized_fields attr :
  precedes n1 n2 normalized_fields →
  (∀ c, c ∈ candidates_of synonyms_dict attr →
        (score fuzz process c n2 ≤ score fuzz process c n1)%Z) →
  let sorted_matches :=
    sorted_matches_of fuzz process synonyms_dict threshold
      normalized_fields attr in
  (n2 ∈ sorted_matches.*1 → precedes n1 n2 sorted_matches.*1) ∧
  (∀ used, n1 ∉ used → best_match_of used sorted_matches ≠ Some n2).
Proof.
  intros Hp Hdom sorted_matches.
  assert (H : n2 ∈ sorted_matches.*1 → precedes n1 n2 sorted_matches.*1).
  { subst sorted_matches. unfold sorted_matches_of.
    set (cm := candidate_matches_of _ _ _ _ _).
    pose proof (candidate_matches_NoDup normalized_fields
                  (candidates_of synonyms_dict attr)) as Hnd. fold cm in Hnd.
    pose proof (candidate_matches_ahead _ _ Hp Hdom) as Ha. fold cm in Ha.
    intros Hin. rewrite sorted_desc_perm in Hin.
    destruct (dict_get cm n2) as [v2|] eqn:H2;
      [|by apply dict_get_None in H2].
    destruct (Ha _ H2) as (v1 & H1 & Hle & Hk).
    apply (precedes_fmap fst (n1, v1) (n2, v2)).
    - intros [k v] Hz. simpl. intros ->. f_equal.
      apply elem_of_sorted_desc in Hz.
      apply (NoDup_keys_unique cm n2 v v2 Hnd Hz). by apply dict_get_Some.
    - apply sorted_desc_stable; [done|].
      apply precedes_keys_entries; [done| |done]. by apply dict_get_Some. }
  split; [done|]. intros used Hfresh.
  destruct (decide (n2 ∈ sorted_matches.*1)) as [Hin|Hin].
  - by apply best_match_of_precedes; [apply H|].
  - intros [? _]%best_match_of_Some. done.
Qed.
End Ahead.
End AutoMapProps.

(** *** The order of the layer fields *)

Section FieldOrder.
Context `{U : UCD} (fuzz : fuzz_module) (process : process_module).
Context (synonyms_dict : gmap pystr (list pystr)) (threshold : Z).
Context (layer_fields : list pystr).

Local Abbreviation nlf :=
  ((λ field, (field, normalize_str field)) <$> layer_fields).
Local Abbreviation step :=
  (map_attribute fuzz process synonyms_dict threshold nlf).
Local Abbreviation ranked :=
  (sorted_matches_of fuzz process synonyms_dict threshold nlf.*2).

Lemma normalized_fields_fmap : nlf.*2 = normalize_str <$> layer_fields.
Proof. rewrite <- list_fmap_compose. done. Qed.

(** The two outcomes of the loop body: the best match and the layer
    field that the search for it gives, the first with that normalised
    name. *)
Lemma map_attribute_first st attr :
  (∃ field l1 l2,
     layer_fields = l1 ++ field :: l2 ∧
     Forall (λ f, normalize_str f ≠ normalize_str field) l1 ∧
     best_match_of st.2 (ranked attr) = Some (normalize_str field) ∧
     step st attr
     = (<[attr := Some field]> st.1, {[normalize_str field]} ∪ st.2)) ∨
  (best_match_of st.2 (ranked attr) = None ∧
   step st attr = (<[attr := None]> st.1, st.2)).
Proof.
  unfold map_attribute.
  destruct (best_match_of st.2 _) as [bm|] eqn:Hbest; [left|by right].
  pose proof Hbest as [Hin _]%best_match_of_Some.
  apply sorted_matches_keys in Hin as [Hin _].
  destruct (find_original _ _ Hin) as (p & Hfind & _ & _). rewrite Hfind.
  apply find_first in Hfind as (L1 & L2 & E & Hp & HL1).
  apply bool_decide_eq_true in Hp. subst bm.
  apply fmap_app_inv in E as (l1 & l' & E1 & E' & ->).
  symmetry in E'. apply fmap_cons_inv in E' as (field & l2 & -> & -> & ->).
  subst L1. simpl in *. exists field, l1, l2. split; [done|].
  split; [|done]. apply Forall_fmap in HL1.
  eapply Forall_impl; [exact HL1|]. simpl. intros f Hf.
  by apply bool_decide_eq_false in Hf.
Qed.

Section Tie.
Context (attr f1 f2 : pystr).
Context (Hne : f1 ≠ f2) (Hp : precedes f1 f2 layer_fields).
Context (Hdom : ∀ c, c ∈ candidates_of synonyms_dict attr →
  (score fuzz process c (normalize_str f2)
   ≤ score fuzz process c (normalize_str f1))%Z).

(** The later of the two fields is not picked while the normalised name
    of the earlier one is free. *)
Lemma map_attribute_not_later st field :
  normalize_str f1 ∉ st.2 →
  (step st attr).1 !! attr = Some (Some field) → field ≠ f2.
Proof.
  intros Hfree Hv ->.
  destruct (map_attribute_first st attr)
    as [(field & l1 & l2 & E & Hl1 & Hbest & Hst)|[_ Hst]];
    rewrite Hst in Hv; simpl in Hv; rewrite lookup_insert_eq in Hv; [|done].
  injection Hv as ->. rewrite E in Hp.
  apply precedes_before in Hp; [|done].
  pose proof (proj1 (Forall_forall _ _) Hl1 _ Hp) as Hn.
  apply list_elem_of_split in Hp as (m1 & m2 & ->).
  assert (Hpn : precedes (normalize_str f1) (normalize_str f2) nlf.*2).
  { rewrite normalized_fields_fmap, E, <- app_assoc, fmap_app. simpl.
    exists (normalize_str <$> m1), (normalize_str <$> (m2 ++ f2 :: l2)).
    split; [done|]. intros (f & Hf & Hin)%list_elem_of_fmap.
    apply (proj1 (Forall_forall _ _) Hl1 f); [|done].
    apply elem_of_app. by left. }
  by destruct (proj2 (sorted_matches_ahead fuzz process synonyms_dict
                        threshold _ _ Hn _ attr Hpn Hdom) st.2 Hfree).
Qed.

(** When the later field is within reach of a candidate, so is the
    earlier one, and the attribute is given a field. *)
Lemma map_attribute_earlier st :
  normalize_str f1 ∉ st.2 →
  (∃ c, c ∈ candidates_of synonyms_dict attr ∧
        (threshold ≤ score fuzz process c (normalize_str f2))%Z) →
  ∃ field, field ∈ layer_fields ∧ field ≠ f2 ∧
    step st attr
    = (<[attr := Some field]> st.1, {[normalize_str field]} ∪ st.2).
Proof.
  intros Hfree (c & Hc & Hle).
  destruct (map_attribute_first st attr)
    as [(field & l1 & l2 & E & Hl1 & Hbest & Hst)|[Hbest _]].
  - exists field. split; [|split; [|done]].
    + rewrite E. apply elem_of_app. right. apply elem_of_cons. by left.
    + apply (map_attribute_not_later st field Hfree).
      rewrite Hst. simpl. by rewrite lookup_insert_eq.
  - destruct (best_match_of_is_Some st.2 (ranked attr) (normalize_str f1))
      as [bm Hbm]; [|done|congruence].
    apply sorted_matches_keys. split.
    + rewrite normalized_fields_fmap. apply list_elem_of_fmap.
      exists f1. split; [done|]. destruct Hp as (m1 & m2 & -> & _).
      apply elem_of_app. right. apply elem_of_cons. by left.
    + exists c. split; [done|]. specialize (Hdom c Hc). lia.
Qed.
End Tie.

(** An attribute that is not in the list keeps its entry. *)
Lemma foldl_map_attribute_other model_attributes st a :
  a ∉ model_attributes →
  (foldl step st model_attributes).1 !! a = st.1 !! a.
Proof.
  revert st. induction model_attributes as [|x l IH]; intros st; [done|].
  intros [Hx Hl]%not_elem_of_cons. simpl.
  rewrite IH by done. by apply map_attribute_other.
Qed.

(** With distinct model attributes, every used name is the normalised
    name of the field that one of them is mapped to. *)
Lemma map_attributes_used model_attributes n :
  NoDup model_attributes →
  let st := foldl step (∅, ∅) model_attributes in
  n ∈ st.2 ↔
  ∃ a f, a ∈ model_attributes ∧ st.1 !! a = Some (Some f) ∧
         normalize_str f = n.
Proof.
  induction model_attributes as [|x l IH] using rev_ind; intros Hnd; simpl.
  - split; [by intros ?%elem_of_empty|]. by intros (a & f & ?%elem_of_nil & _).
  - apply NoDup_app in Hnd as (Hl & Hx & _). specialize (IH Hl). simpl in IH.
    rewrite foldl_app. simpl. set (st := foldl _ _ l) in *.
    assert (Hother : ∀ a, a ∈ l → a ≠ x).
    { intros a Ha ->. apply (Hx x Ha), elem_of_cons. by left. }
    destruct (map_attribute_first st x)
      as [(field & l1 & l2 & E & Hl1 & Hbest & ->)|[_ ->]]; simpl.
    + rewrite elem_of_union, elem_of_singleton, IH. split.
      * intros [->|(a & f & Ha & Hf & Hn)].
        -- exists x, field. rewrite lookup_insert_eq.
           split; [|done]. apply elem_of_app. right. apply elem_of_cons. by left.
        -- exists a, f. rewrite lookup_insert_ne by (symmetry; auto).
           split; [|done]. apply elem_of_app. by left.
      * intros (a & f & [Ha| ->%list_elem_of_singleton]%elem_of_app & Hf & Hn).
        -- rewrite lookup_insert_ne in Hf by (symmetry; auto).
           right. by exists a, f.
        -- rewrite lookup_insert_eq in Hf. left. congruence.
    + rewrite IH. split.
      * intros (a & f & Ha & Hf & Hn). exists a, f.
        rewrite lookup_insert_ne by (symmetry; auto).
        split; [|done]. apply elem_of_app. by left.
      * intros (a & f & [Ha| ->%list_elem_of_singleton]%elem_of_app & Hf & Hn).
        -- rewrite lookup_insert_ne in Hf by (symmetry; auto). by exists a, f.
        -- by rewrite lookup_insert_eq in Hf.
Qed.

(** The call at one of its distinct model attributes: the entry of the
    attribute is the one the loop body gives it, the entries of the earlier
    attributes are those they had then, and the names used then are those
    of the fields of the earlier attributes. *)
Lemma map_attributes_at earlier attr later :
  NoDup (earlier ++ attr :: later) →
  let mapping := (foldl step (∅, ∅) (earlier ++ attr :: later)).1 in
  let st := foldl step (∅, ∅) earlier in
  mapping !! attr = (step st attr).1 !! attr ∧
  (∀ n, n ∈ st.2 ↔
        ∃ a f, a ∈ earlier ∧ mapping !! a = Some (Some f) ∧
               normalize_str f = n).
Proof.
  intros Hnd mapping st. subst mapping.
  apply NoDup_app in Hnd as (He & Hfresh & [Hattr Hl]%NoDup_cons).
  rewrite foldl_app. simpl. fold st. split.
  - by apply foldl_map_attribute_other.
  - intros n. unfold st. rewrite (map_attributes_used earlier n He). fold st.
    assert (Hsame : ∀ a, a ∈ earlier →
      (foldl step (step st attr) later).1 !! a = st.1 !! a).
    { intros a Ha. rewrite foldl_map_attribute_other.
      - apply map_attribute_other. intros ->.
        apply (Hfresh attr Ha), elem_of_cons. by left.
      - intros Hin. apply (Hfresh a Ha), elem_of_cons. by right. }
    split; intros (a & f & Ha & Hf & Hn); exists a, f;
      (split; [done|]); (split; [|done]).
    + by rewrite Hsame.
    + by rewrite <- Hsame.
Qed.
End FieldOrder.

(** ** Regular expressions *)

Section RegexProps.
Context `{U : UCD}.

Lemma rep_greedy_Some {R} cs (k : pystr → option R) min s m :
  rep_greedy cs k min s = Some m →
  ∃ w rest, s = w ++ rest ∧ Forall (λ c, charset_mem cs c = true) w ∧
            (min ≤ length w)%nat ∧ k rest = Some m.
Proof.
  revert min. induction s as [|c s IH]; intros min; simpl.
  - destruct min; [|done]. intros Hk. exists [], []. by repeat split.
  - destruct (charset_mem cs c) eqn:Hc.
    + destruct (rep_greedy cs k (pred min) s) as [r|] eqn:E.
      * intros [= ->]. destruct (IH _ E) as (w & rest & -> & Hw & Hlen & Hk).
        exists (c :: w), rest. repeat split; [by constructor|simpl; lia|done].
      * destruct min; [|done]. intros Hk. exists [], (c :: s). by repeat split.
    + destruct min; [|done]. intros Hk. exists [], (c :: s). by repeat split.
Qed.

Lemma rep_lazy_Some {R} cs (k : pystr → option R) min s m :
  rep_lazy cs k min s = Some m →
  ∃ w rest, s = w ++ rest ∧ Forall (λ c, charset_mem cs c = true) w ∧
            (min ≤ length w)%nat ∧ k rest = Some m.
Proof.
  revert min. induction s as [|c s IH]; intros min.
  - destruct min; simpl; [|done]. destruct (k []) eqn:E; [|done].
    intros [= ->]. exists [], []. by repeat split.
  - assert (Hmore : (if charset_mem cs c then rep_lazy cs k (pred min) s
                     else None) = Some m →
      ∃ w rest, c :: s = w ++ rest ∧
        Forall (λ c, charset_mem cs c = true) w ∧
        (min ≤ length w)%nat ∧ k rest = Some m).
    { destruct (charset_mem cs c) eqn:Hc; [|done]. intros E.
      destruct (IH _ E) as (w & rest & -> & Hw & Hlen & Hk).
      exists (c :: w), rest. repeat split; [by constructor|simpl; lia|done]. }
    destruct min; simpl; [|exact Hmore].
    destruct (k (c :: s)) eqn:E; [|exact Hmore].
    intros [= ->]. exists [], (c :: s). by repeat split.
Qed.

(** A greedy repetition over a string all of whose code points it can
    take. *)
Lemma rep_greedy_all {R} cs (k : pystr → option R) s :
  Forall (λ c, charset_mem cs c = true) s →
  rep_greedy cs k 0 s = try_suffixes k s.
Proof.
  induction 1 as [|c s Hc Hs IH]; simpl; [done|]. by rewrite Hc, IH.
Qed.

Lemma try_suffixes_None {R} (k : pystr → option R) s :
  (∀ s', s' `suffix_of` s → k s' = None) → try_suffixes k s = None.
Proof.
  induction s as [|c s IH]; intros Hk; simpl.
  - by apply Hk.
  - rewrite IH; [by apply Hk|].
    intros s' Hs. apply Hk. by apply suffix_cons_r.
Qed.

Lemma try_suffixes_Some {R} (k : pystr → option R) pre s0 r :
  k s0 = Some r →
  (∀ s', s' `suffix_of` s0 → s' ≠ s0 → k s' = None) →
  try_suffixes k (pre ++ s0) = Some r.
Proof.
  intros Hr Hnone.
  assert (H0 : try_suffixes k s0 = Some r).
  { destruct s0 as [|c s0]; simpl; [done|].
    rewrite try_suffixes_None; [done|].
    intros s' Hs. apply Hnone; [by apply suffix_cons_r|].
    intros ->. apply suffix_length in Hs. simpl in Hs. lia. }
  induction pre as [|c pre IH]; simpl; [done|]. by rewrite IH.
Qed.

(** Every group of [groups_of r] is set when [r] has matched. *)
Lemma rmatch_groups r inp s g k m :
  rmatch r inp s g k = Some m →
  ∃ s' g', k s' g' = Some m ∧
    ∀ n, is_Some (g !! n) ∨ n ∈ groups_of r → is_Some (g' !! n).
Proof.
  revert s g k.
  induction r as [cs|greedy min cs|r1 IH1 r2 IH2|r1 IH1 r2 IH2|r1 IH1| |n r1 IH1| |];
    intros s g k; simpl.
  - destruct s as [|c s]; [done|]. destruct (charset_mem cs c); [|done].
    intros Hk. exists s, g. split; [done|]. by intros n [?|?%elem_of_nil].
  - intros H. assert (∃ rest, k rest g = Some m) as [rest Hk].
    { destruct greedy.
      - apply rep_greedy_Some in H as (_ & rest & _ & _ & _ & ?). by exists rest.
      - apply rep_lazy_Some in H as (_ & rest & _ & _ & _ & ?). by exists rest. }
    exists rest, g. split; [done|]. by intros n [?|?%elem_of_nil].
  - intros (s1 & g1 & H2 & Hg1)%IH1.
    apply IH2 in H2 as (s2 & g2 & Hk & Hg2).
    exists s2, g2. split; [done|].
    intros n [?|[?|?]%elem_of_app]; auto.
  - destruct (rmatch r1 inp s g k) as [m'|] eqn:E.
    + intros [= ->]. apply IH1 in E as (s' & g' & Hk & Hg).
      exists s', g'. split; [done|]. intros n [?|?%elem_of_nil]; [auto|done].
    + intros (s' & g' & Hk & Hg)%IH2.
      exists s', g'. split; [done|]. intros n [?|?%elem_of_nil]; [auto|done].
  - destruct (rmatch r1 inp s g k) as [m'|] eqn:E.
    + intros [= ->]. apply IH1 in E as (s' & g' & Hk & Hg).
      exists s', g'. split; [done|]. intros n [?|?%elem_of_nil]; [auto|done].
    + intros Hk. exists s, g. split; [done|]. by intros n [?|?%elem_of_nil].
  - intros Hk. exists s, g. split; [done|]. by intros n [?|?%elem_of_nil].
  - intros (s' & g' & Hk & Hg)%IH1. eexists _, _. split; [exact Hk|].
    intros n' Hn'. rewrite lookup_insert. case_decide; [by eexists|].
    apply Hg. destruct Hn' as [?|[?|?]%elem_of_cons]; auto. congruence.
  - destruct (_ =? _)%nat; [|done].
    intros Hk. exists s, g. split; [done|]. by intros n [?|?%elem_of_nil].
  - assert (Hk : k s g = Some m →
      ∃ s' g', k s' g' = Some m ∧
        ∀ n, is_Some (g !! n) ∨ n ∈ [] → is_Some (g' !! n)).
    { intros Hk. exists s, g. split; [done|]. by intros n [?|?%elem_of_nil]. }
    destruct s as [|c [|c' s]]; [done| |done].
    destruct (c =? LINE_FEED); [done|done].
Qed.

Lemma match_at_groups r inp s m n :
  match_at r inp s = Some m → n ∈ groups_of r → is_Some (group m n).
Proof.
  intros (s' & g' & [= <-] & Hg)%rmatch_groups Hn. apply Hg. by right.
Qed.

Lemma elem_of_finditer_aux r inp s skip m :
  m ∈ finditer_aux r inp s skip → ∃ s', match_at r inp s' = Some m.
Proof.
  revert skip. induction s as [|c s IH]; intros skip.
  - destruct skip; simpl; [|by intros ?%elem_of_nil].
    destruct (match_at r inp []) as [m'|] eqn:E; [|by intros ?%elem_of_nil].
    intros [->|?%elem_of_nil]%elem_of_cons; [|done]. by exists [].
  - destruct skip as [|skip]; simpl; [|apply IH].
    destruct (match_at r inp (c :: s)) as [m'|] eqn:E; [|apply IH].
    intros [->|?]%elem_of_cons; [by exists (c :: s)|]. by eapply IH.
Qed.

Lemma finditer_aux_nil r inp s :
  (∀ s', s' `suffix_of` s → match_at r inp s' = None) →
  finditer_aux r inp s 0 = [].
Proof.
  induction s as [|c s IH]; intros Hnone; simpl.
  - by rewrite Hnone.
  - rewrite Hnone by done. apply IH.
    intros s' Hs. apply Hnone. by apply suffix_cons_r.
Qed.

Lemma rmatch_seq_rep_greedy min cs r inp s g k :
  rmatch (Seq (Rep true min cs) r) inp s g k
  = rep_greedy cs (λ s', rmatch r inp s' g k) min s.
Proof. reflexivity. Qed.

(** A literal word under IGNORECASE. *)
Lemma rmatch_lits_ignorecase w r inp s g k m :
  rmatch (Seq (lits CLitI w) r) inp s g k = Some m →
  ∃ w' rest, s = w' ++ rest ∧ tolower <$> w' = w ∧
             rmatch r inp rest g k = Some m.
Proof.
  revert s. induction w as [|a w IH]; intros s.
  - intros H. by exists [], s.
  - cbn. destruct s as [|c s]; [done|].
    destruct (N.eqb_spec (tolower c) a) as [<-|]; [|done].
    intros (w' & rest & -> & <- & Hr)%IH. by exists (c :: w'), rest.
Qed.
End RegexProps.

(** ** The extractors *)

Lemma for_each_total {A B} (body : B → A → result B) (l : list A) (b : B) :
  (∀ b x, x ∈ l → ∃ b', body b x = inr b') → ∃ b', for_each body b l = inr b'.
Proof.
  revert b. induction l as [|x l IH]; intros b Hbody; simpl; [by eexists|].
  destruct (Hbody b x) as [b' ->]; [apply elem_of_cons; by left|]. simpl.
  apply IH. intros b'' y Hy. apply Hbody, elem_of_cons. by right.
Qed.

Lemma startswith_app p a b :
  startswith p a = true → startswith p (a ++ b) = true.
Proof.
  revert a. induction p as [|x p IH]; intros [|y a]; simpl; try done.
  intros [-> ?]%andb_true_iff. simpl. auto.
Qed.

Lemma dropwhile_app_true {A} (p : A → bool) l k :
  Forall (λ x, p x = true) l → dropwhile p (l ++ k) = dropwhile p k.
Proof. induction 1 as [|x l Hx Hl IH]; simpl; [done|]. by rewrite Hx. Qed.

(** Dropping from the right leaves a prefix that the predicate rejects. *)
Lemma rdrop_keeps_prefix {A} (p : A → bool) l k :
  l ≠ [] → Forall (λ x, p x = false) l →
  ∃ k', rev (dropwhile p (rev (l ++ k))) = l ++ k'.
Proof.
  intros Hne Hl. induction Hl as [|x l Hx Hl IH]; [done|].
  rewrite <- app_comm_cons, rdrop_cons.
  destruct l as [|y l].
  - simpl. destruct (rev (dropwhile p (rev k))) as [|z t]; rewrite ?Hx.
    + by exists [].
    + by exists (z :: t).
  - destruct IH as [k' ->]; [done|]. by exists k'.
Qed.

Section ExtractorProps.
Context `{U : UCD}.

Lemma class_name_of_total table_name :
  ∃ class_name, class_name_of table_name = inr class_name.
Proof.
  unfold class_name_of.
  destruct (re_match suffix_pattern table_name) as [m|] eqn:E; [|by eexists].
  destruct (match_at_groups _ _ _ _ 1 E) as [c ->]; [|by eexists].
  apply elem_of_cons. by left.
Qed.

Lemma column_of_line_total line : ∃ c, column_of_line line = inr c.
Proof.
  unfold column_of_line. destruct (_ || _); [by eexists|].
  destruct (re_match column_pattern _) as [m|] eqn:E; [|by eexists].
  destruct (match_at_groups _ _ _ _ 1 E) as [c ->]; [|by eexists].
  apply elem_of_cons. by left.
Qed.

Lemma add_column_total columns line :
  ∃ columns', add_column columns line = inr columns'.
Proof.
  unfold add_column. destruct (column_of_line_total line) as [c ->].
  by eexists.
Qed.

Lemma parse_table_total classes_dict inp s m :
  match_at table_pattern inp s = Some m →
  ∃ classes_dict', parse_table classes_dict m = inr classes_dict'.
Proof.
  intros E. unfold parse_table.
  destruct (match_at_groups _ _ _ _ 2 E) as [table_name ->].
  { apply elem_of_cons. right. apply elem_of_cons. by left. }
  destruct (match_at_groups _ _ _ _ 3 E) as [columns_section ->].
  { do 2 (apply elem_of_cons; right). apply elem_of_cons. by left. }
  simpl. destruct (class_name_of_total table_name) as [class_name ->]. simpl.
  destruct (for_each_total add_column (splitlines columns_section) [])
    as [columns ->]; [|by eexists].
  intros columns line _. apply add_column_total.
Qed.

Lemma parse_sql_returns sql_content :
  ∃ classes_dict, parse_sql sql_content = inr classes_dict.
Proof.
  unfold parse_sql. apply for_each_total.
  intros classes_dict m (s & E)%elem_of_finditer_aux.
  by eapply parse_table_total.
Qed.

(** Where [table_pattern] matches, the words CREATE TABLE stand. *)
Lemma match_at_table_pattern inp s m :
  match_at table_pattern inp s = Some m →
  ∃ kw1 ws kw2 rest,
    s = kw1 ++ ws ++ kw2 ++ rest ∧ tolower <$> kw1 = py "create" ∧
    ws ≠ [] ∧ Forall (λ c, isspace c = true) ws ∧
    tolower <$> kw2 = py "table".
Proof.
  unfold match_at, table_pattern. cbn [cat foldr].
  intros (kw1 & s1 & -> & Hkw1 & H)%rmatch_lits_ignorecase.
  rewrite rmatch_seq_rep_greedy in H.
  apply rep_greedy_Some in H as (ws & s2 & -> & Hws & Hlen & H).
  apply rmatch_lits_ignorecase in H as (kw2 & rest & -> & Hkw2 & _).
  exists kw1, ws, kw2, rest. repeat split; try done.
  intros ->. simpl in Hlen. lia.
Qed.

Lemma parse_sql_without_create_table sql_content :
  ¬ has_create_table sql_content → parse_sql sql_content = inr ∅.
Proof.
  intros Hno. unfold parse_sql, finditer.
  rewrite finditer_aux_nil; [done|].
  intros s [pre ->]. destruct (match_at table_pattern _ s) as [m|] eqn:E; [|done].
  destruct Hno.
  apply match_at_table_pattern in E as (kw1 & ws & kw2 & rest & -> & ? & ? & ? & ?).
  by exists pre, kw1, ws, kw2, rest.
Qed.

(** A line that begins, after its indentation, with a name whose upper
    case begins with a skip keyword gives no column. *)
Lemma column_of_line_keyword indent name rest kw :
  kw ∈ skip_keywords →
  Forall (λ c, isspace c = true) indent →
  Forall (λ c, isspace c = false ∧ c ≠ ch ",") name →
  startswith kw (upper name) = true →
  column_of_line (indent ++ name ++ rest) = inr None.
Proof.
  intros Hkw Hindent Hname Hstart.
  assert (Hne : name ≠ []).
  { intros ->. simpl in Hstart. destruct kw; [|done].
    apply list_elem_of_In in Hkw. vm_compute in Hkw. intuition discriminate. }
  unfold column_of_line, strip.
  rewrite dropwhile_app_true by done.
  assert (E : dropwhile isspace (name ++ rest) = name ++ rest).
  { apply dropwhile_id. destruct Hname as [|c ? [Hc _]]; [done|exact Hc]. }
  rewrite E.
  destruct (rdrop_keeps_prefix isspace name rest Hne) as [k1 ->].
  { eapply Forall_impl; [exact Hname|]. by intros c [? _]. }
  unfold rstrip_chars.
  destruct (rdrop_keeps_prefix (λ x, existsb (N.eqb x) (py ",")) name k1 Hne)
    as [k2 ->].
  { eapply Forall_impl; [exact Hname|]. intros c [_ Hc]. simpl.
    apply orb_false_iff. split; [by apply N.eqb_neq|done]. }
  assert (Hskip : existsb (λ kw, startswith kw (upper (name ++ k2)))
                    skip_keywords = true).
  { apply existsb_exists. exists kw. split; [by apply list_elem_of_In|].
    unfold upper. rewrite flat_map_app. by apply startswith_app. }
  by rewrite Hskip, orb_true_r.
Qed.
(** *** Suffix folding *)

Lemma re_match_suffix_pattern table_name :
  re_match suffix_pattern table_name
  = rep_greedy CDot (suffix_rest table_name) 0 table_name.
Proof.
  unfold re_match, match_at, suffix_pattern. cbn [cat foldr rmatch].
  by rewrite Nat.eqb_refl.
Qed.

Lemma suffix_rest_spec table_name s :
  suffix_rest table_name s =
  match s with
  | c1 :: c2 :: tl =>
      if (c1 =? LOW_LINE) && ascii_letter c2 &&
         match tl with [] => true | [c] => c =? LINE_FEED | _ => false end
      then Some (Match tl {[ 1%nat :=
                   take (length table_name - length s) table_name ]})
      else None
  | _ => None
  end.
Proof.
  unfold suffix_rest. cbn [cat foldr rmatch charset_mem].
  destruct s as [|c1 [|c2 tl]]; [done| |].
  - by destruct (c1 =? ch "_").
  - change (ch "_") with LOW_LINE. fold (ascii_letter c2).
    destruct (c1 =? LOW_LINE), (ascii_letter c2); try done.
    by destruct tl as [|c [|c' tl]].
Qed.

Lemma no_line_feed_dot s :
  LINE_FEED ∉ s → Forall (λ c, charset_mem CDot c = true) s.
Proof.
  intros Hs. apply Forall_forall. intros c Hc. simpl.
  apply negb_true_iff, N.eqb_neq. by intros ->.
Qed.

Lemma class_name_of_suffixed base l :
  LINE_FEED ∉ base ++ [LOW_LINE; l] → ascii_letter l = true →
  class_name_of (base ++ [LOW_LINE; l]) = inr base.
Proof.
  intros Hlf Hl. unfold class_name_of.
  rewrite re_match_suffix_pattern, rep_greedy_all by by apply no_line_feed_dot.
  rewrite (try_suffixes_Some _ base [LOW_LINE; l]
             (Match [] {[ 1%nat := base ]})).
  - unfold group. simpl. by rewrite lookup_singleton_eq.
  - rewrite suffix_rest_spec, Hl. simpl. do 2 f_equal.
    rewrite length_app. simpl.
    replace (length base + 2 - 2)%nat with (length base) by lia.
    by rewrite take_app_length.
  - intros s' Hs Hne. rewrite suffix_rest_spec.
    destruct s' as [|c1 [|c2 tl]]; [done|done|].
    apply suffix_length in Hs as Hlen. simpl in Hlen.
    destruct tl; [|simpl in Hlen; lia].
    destruct Hs as [[|? [|? pre]] E]; simplify_eq/=. by destruct pre.
Qed.

Lemma class_name_of_unsuffixed table_name :
  LINE_FEED ∉ table_name →
  (∀ base l, table_name = base ++ [LOW_LINE; l] → ascii_letter l = false) →
  class_name_of table_name = inr table_name.
Proof.
  intros Hlf Hshape. unfold class_name_of.
  rewrite re_match_suffix_pattern, rep_greedy_all by by apply no_line_feed_dot.
  rewrite try_suffixes_None; [done|].
  intros s [pre ->]. rewrite suffix_rest_spec.
  destruct s as [|c1 [|c2 tl]]; [done|done|].
  destruct (N.eqb_spec c1 LOW_LINE) as [->|]; [|done].
  destruct (ascii_letter c2) eqn:Hc2; [|done].
  destruct tl as [|c [|c' tl]]; simpl.
  - by rewrite (Hshape pre c2) in Hc2.
  - destruct (N.eqb_spec c LINE_FEED) as [->|]; [|done].
    destruct Hlf. rewrite !elem_of_app, !elem_of_cons. auto.
  - done.
Qed.

Lemma split_on_aux_none sep cur s :
  sep ∉ s → split_on_aux sep cur s = [rev cur ++ s].
Proof.
  revert cur. induction s as [|c s IH]; intros cur Hs; simpl.
  - by rewrite app_nil_r.
  - apply not_elem_of_cons in Hs as [Hc Hs].
    destruct (N.eqb_spec c sep); [congruence|].
    rewrite IH by done. simpl. by rewrite <- app_assoc.
Qed.

Lemma split_on_two sep a b :
  sep ∉ a → sep ∉ b → split_on sep (a ++ sep :: b) = [a; b].
Proof.
  intros Ha Hb. unfold split_on.
  enough (H : ∀ cur, split_on_aux sep cur (a ++ sep :: b) = [rev cur ++ a; b])
    by apply H.
  induction a as [|c a IH]; intros cur; simpl.
  - rewrite N.eqb_refl, app_nil_r. f_equal. by rewrite split_on_aux_none.
  - apply not_elem_of_cons in Ha as [Hc Ha].
    destruct (N.eqb_spec c sep); [congruence|].
    rewrite IH by done. simpl. by rewrite <- app_assoc.
Qed.

(** The loop body of the database extractor on a table that opens as a
    valid layer: the class is the folded table name. *)
Lemma extract_table_valid qgis conn classes schema table_name geom fields :
  ch "." ∉ schema → ch "." ∉ table_name →
  layer_fields qgis conn schema table_name geom = Some fields →
  extract_table qgis conn classes (schema ++ py "." ++ table_name, geom)
  = (class_name ← class_name_of table_name;
     mret (<[class_name := fields]> classes)).
Proof.
  intros Hs Ht Hvalid. unfold extract_table. cbn [fst snd].
  change (py "." ++ table_name) with (ch "." :: table_name).
  by rewrite split_on_two, Hvalid.
Qed.

(** The loop body of the SQL parser: the class is the folded table
    name. *)
Lemma parse_table_class classes m table_name columns_section :
  group m 2 = Some table_name → group m 3 = Some columns_section →
  ∃ columns,
    parse_table classes m
    = (class_name ← class_name_of table_name;
       mret (<[class_name := columns]> classes)).
Proof.
  intros H2 H3. unfold parse_table. rewrite H2, H3. simpl.
  destruct (for_each_total add_column (splitlines columns_section) [])
    as [columns Hc]; [intros; apply add_column_total|].
  exists columns. destruct (class_name_of table_name); simpl; [done|].
  by rewrite Hc.
Qed.
End ExtractorProps.

(** ** The Latin-1 database satisfies the laws *)

Lemma below_checked (b : N → bool) (n : nat) :
  forallb b (N.of_nat <$> seq 0 n) = true → ∀ c, c < N.of_nat n → b c = true.
Proof.
  intros H c Hc. rewrite forallb_forall in H. apply H.
  apply list_elem_of_In, list_elem_of_fmap. exists (N.to_nat c).
  split; [by rewrite N2Nat.id|]. apply list_elem_of_In, in_seq. lia.
Qed.

Lemma latin1_decomposition_high c : 880 ≤ c → Latin1.decomposition c = [c].
Proof.
  intros Hc. unfold Latin1.decomposition.
  destruct (List.find _ _) as [e|] eqn:E; [|done].
  apply find_some in E as [Hin He]. apply N.eqb_eq in He.
  assert (H : forallb (λ e, e.1 <? 880) Latin1.decomposition_table = true)
    by (vm_compute; reflexivity).
  rewrite forallb_forall in H. apply H, N.ltb_lt in Hin. lia.
Qed.

Lemma latin1_combining_high c : 880 ≤ c → Latin1.combining c = 0.
Proof.
  intros Hc. unfold Latin1.combining.
  destruct (List.find _ _) as [e|] eqn:E; [|done].
  apply find_some in E as [Hin He].
  apply andb_true_iff in He as [_ He%N.leb_le].
  assert (H : forallb (λ e, e.1.2 <? 880) Latin1.combining_table = true)
    by (vm_compute; reflexivity).
  rewrite forallb_forall in H. apply H, N.ltb_lt in Hin. lia.
Qed.

Lemma latin1_tolower_high c :
  880 ≤ c → Latin1.tolower c = if c =? CAPITAL_SIGMA then SMALL_SIGMA else c.
Proof.
  intros Hc. unfold Latin1.tolower, in_ranges. cbn [existsb fst snd].
  rewrite !(proj2 (N.leb_gt c _)) by lia. by rewrite !andb_false_r.
Qed.

Lemma latin1_laws : @UCDLaws Latin1.ucd.
Proof.
  split; simpl.
  - intros c d Hd. destruct (N.lt_ge_cases c 880) as [Hc|Hc].
    + pose proof (below_checked latin1_check_decomposition 880
                    ltac:(vm_compute; reflexivity) c Hc) as H.
      unfold latin1_check_decomposition in H. rewrite forallb_forall in H.
      apply list_elem_of_In, H in Hd. by apply bool_decide_eq_true in Hd.
    + rewrite latin1_decomposition_high in Hd by done.
      apply list_elem_of_singleton in Hd as ->.
      by apply latin1_decomposition_high.
  - intros c d Hdec Hcomb Hd. unfold Latin1.lower_full in *.
    apply list_elem_of_singleton in Hd as ->.
    destruct (N.lt_ge_cases c 880) as [Hc|Hc].
    + pose proof (below_checked latin1_check_lower 880
                    ltac:(vm_compute; reflexivity) c Hc) as H.
      unfold latin1_check_lower in H.
      rewrite bool_decide_eq_true_2, Hcomb in H by done. simpl in H.
      apply andb_true_iff in H as [[H1 H2]%andb_true_iff H3].
      apply bool_decide_eq_true in H1. apply N.eqb_eq in H2, H3.
      by rewrite H3.
    + rewrite latin1_tolower_high by done.
      destruct (N.eqb_spec c CAPITAL_SIGMA) as [->|Hne]; [done|].
      rewrite latin1_tolower_high by done.
      apply N.eqb_neq in Hne. by rewrite Hne.
  - reflexivity.
  - by intros d [->| ->].
Qed.

(** * The claims *)

(** C1: in the mapping that the auto-mapper returns, whatever the model
    attributes, the layer fields, the synonym table and the threshold, a
    layer field is the value of at most one attribute: two attributes
    mapped to the same field are the same attribute. *)
Theorem auto_map_at_most_once `{U : UCD}
    (fuzz : option fuzz_module) (process : option process_module)
    (model_attributes layer_fields : list pystr)
    (synonyms_dict : gmap pystr (list pystr)) (threshold : Z)
    (mapping : gmap pystr (option pystr)) (a1 a2 field : pystr) :
  auto_map_attributes_with_synonyms fuzz process model_attributes layer_fields
    synonyms_dict threshold = inr mapping →
  mapping !! a1 = Some (Some field) →
  mapping !! a2 = Some (Some field) →
  a1 = a2.
Proof.
  unfold auto_map_attributes_with_synonyms.
  destruct fuzz as [fz|], process as [pr|]; try done.
  intros [= <-]. apply map_attributes_inv.
Qed.

(** C3, as the code has it.  Take two distinct layer fields the first of
    which comes earlier in the field sequence and scores at least as high
    as the second under every candidate of the attribute (so whenever the
    two tie and the attribute has a single candidate).  When the
    normalised names of the two come in the same order, the first is
    ranked before the second.  In the loop body the second is not picked
    as long as the normalised name of the first is free, and when the
    second is within reach of a candidate the attribute is given a field.
    In a call with distinct model attributes, an attribute mapped to the
    second field comes after one mapped to a field with the normalised
    name of the first; and an attribute that comes after no such
    attribute is, when the second field is within reach of a candidate,
    mapped to a layer field other than the second. *)
Theorem auto_map_tie_keeps_field_order `{U : UCD}
    (fz : fuzz_module) (pr : process_module)
    (synonyms_dict : gmap pystr (list pystr)) (threshold : Z)
    (layer_fields : list pystr) (attr f1 f2 : pystr) :
  f1 ≠ f2 →
  precedes f1 f2 layer_fields →
  (∀ c, c ∈ candidates_of synonyms_dict attr →
        (score fz pr c (normalize_str f2) ≤ score fz pr c (normalize_str f1))%Z) →
  let normalized_layer_fields :=
    (λ field, (field, normalize_str field)) <$> layer_fields in
  let within_reach :=
    ∃ c, c ∈ candidates_of synonyms_dict attr ∧
         (threshold ≤ score fz pr c (normalize_str f2))%Z in
  (let sorted_matches :=
     sorted_matches_of fz pr synonyms_dict threshold
       normalized_layer_fields.*2 attr in
   normalize_str f1 ≠ normalize_str f2 →
   precedes (normalize_str f1) (normalize_str f2) normalized_layer_fields.*2 →
   normalize_str f2 ∈ sorted_matches.*1 →
   precedes (normalize_str f1) (normalize_str f2) sorted_matches.*1) ∧
  (∀ st,
     let st' := map_attribute fz pr synonyms_dict threshold
                  normalized_layer_fields st attr in
     normalize_str f1 ∉ st.2 →
     st'.1 !! attr ≠ Some (Some f2) ∧
     (within_reach →
      ∃ field, field ∈ layer_fields ∧ field ≠ f2 ∧
        st' = (<[attr := Some field]> st.1, {[normalize_str field]} ∪ st.2))) ∧
  (∀ earlier later mapping,
     NoDup (earlier ++ attr :: later) →
     auto_map_attributes_with_synonyms (Some fz) (Some pr)
       (earlier ++ attr :: later) layer_fields synonyms_dict threshold
     = inr mapping →
     (mapping !! attr = Some (Some f2) →
      ∃ a f, a ∈ earlier ∧ mapping !! a = Some (Some f) ∧
             normalize_str f = normalize_str f1) ∧
     (within_reach →
      (∀ a f, a ∈ earlier → mapping !! a = Some (Some f) →
              normalize_str f ≠ normalize_str f1) →
      ∃ field, field ∈ layer_fields ∧ field ≠ f2 ∧
               mapping !! attr = Some (Some field))).
Proof.
  intros Hne Hp Hdom nlf within_reach. split; [|split].
  - intros sorted_matches Hn Hpn.
    by apply (sorted_matches_ahead fz pr synonyms_dict threshold _ _ Hn).
  - intros st st' Hfree. split.
    + intros Hv.
      by apply (map_attribute_not_later fz pr synonyms_dict threshold
                  layer_fields attr f1 f2 Hne Hp Hdom st f2 Hfree Hv).
    + by apply (map_attribute_earlier fz pr synonyms_dict threshold
                  layer_fields attr f1 f2 Hne Hp Hdom st Hfree).
  - intros earlier later mapping Hnd [= <-]. unfold map_attributes.
    destruct (map_attributes_at fz pr synonyms_dict threshold layer_fields
                earlier attr later Hnd) as [Hattr Hused].
    cbv zeta in Hattr, Hused. fold nlf in Hattr, Hused |- *.
    set (st := foldl _ (∅, ∅) earlier) in *.
    rewrite Hattr. split.
    + intros Hv. apply Hused.
      destruct (decide (normalize_str f1 ∈ st.2)) as [|Hfree]; [done|].
      by destruct (map_attribute_not_later fz pr synonyms_dict threshold
                     layer_fields attr f1 f2 Hne Hp Hdom st f2 Hfree Hv).
    + intros Hreach Hnone.
      assert (Hfree : normalize_str f1 ∉ st.2).
      { intros (a & f & Ha & Hf & Hn)%Hused. by apply (Hnone a f). }
      destruct (map_attribute_earlier fz pr synonyms_dict threshold
                  layer_fields attr f1 f2 Hne Hp Hdom st Hfree Hreach)
        as (field & Hin & Hf2 & Hst).
      exists field. split; [done|]. split; [done|].
      fold nlf in Hst. rewrite Hst. simpl. by rewrite lookup_insert_eq.
Qed.

(** C4: with the model attributes [nome] and [descricao], in this order,
    and the single layer field [nome_completo], when each of the two has a
    candidate that scores at the threshold or above against that field,
    [nome] is mapped to [nome_completo] and [descricao] to [None]. *)
Theorem auto_map_earlier_attribute_wins `{U : UCD}
    (fz : fuzz_module) (pr : process_module)
    (synonyms_dict : gmap pystr (list pystr)) (threshold : Z) :
  (∃ c, c ∈ candidates_of synonyms_dict (py "nome") ∧
        (threshold ≤ score fz pr c (normalize_str (py "nome_completo")))%Z) →
  (∃ c, c ∈ candidates_of synonyms_dict (py "descricao") ∧
        (threshold ≤ score fz pr c (normalize_str (py "nome_completo")))%Z) →
  auto_map_attributes_with_synonyms (Some fz) (Some pr)
    [py "nome"; py "descricao"] [py "nome_completo"] synonyms_dict threshold
  = inr (<[py "descricao" := None]>
           {[ py "nome" := Some (py "nome_completo") ]}).
Proof.
  intros Hnome Hdescricao.
  unfold auto_map_attributes_with_synonyms, map_attributes.
  cbn [foldl fmap list_fmap].
  rewrite (map_attribute_single fz pr synonyms_dict threshold
             (py "nome_completo") (∅, ∅));
    [|cbn [snd]; apply not_elem_of_empty|done].
  cbn [fst snd].
  rewrite map_attribute_unmapped; [done|].
  intros k E%list_elem_of_singleton _. subst k. cbn [snd].
  apply elem_of_union. left. by apply elem_of_singleton.
Qed.

(** C5: [normalize_str] is idempotent, for every string, over every
    character database that satisfies [UCDLaws] (as the Latin-1 database
    does); and on Latin-1 it takes "Não" to "nao" and "NOME_CLASSE" to
    "nomeclasse". *)
Theorem normalize_str_idempotent_and_examples :
  (∀ (U : UCD), @UCDLaws U →
     ∀ s, normalize_str s = normalize_str (normalize_str s)) ∧
  @normalize_str Latin1.ucd Nao = py "nao" ∧
  @normalize_str Latin1.ucd (py "NOME_CLASSE") = py "nomeclasse".
Proof.
  split; [|split; vm_compute; reflexivity].
  intros U HU s. symmetry. apply normalize_str_fixed.
Qed.

Lemma normalize_str_idempotent_witness :
  @normalize_str Latin1.ucd Nao
  = @normalize_str Latin1.ucd (@normalize_str Latin1.ucd Nao).
Proof.
  exact (proj1 normalize_str_idempotent_and_examples Latin1.ucd latin1_laws Nao).
Defined.

(** C6: [parse_sql] returns a catalog for every text: the empty catalog
    for a text in which the words CREATE TABLE do not occur, and for a text
    at no position of which [table_pattern] matches. *)
Theorem parse_sql_never_raises `{U : UCD} (sql_content : pystr) :
  (∃ classes_dict, parse_sql sql_content = inr classes_dict) ∧
  (¬ has_create_table sql_content → parse_sql sql_content = inr ∅) ∧
  ((∀ s, s `suffix_of` sql_content →
         match_at table_pattern sql_content s = None) →
   parse_sql sql_content = inr ∅).
Proof.
  split; [apply parse_sql_returns|].
  split; [apply parse_sql_without_create_table|].
  intros Hnone. unfold parse_sql, finditer. by rewrite finditer_aux_nil.
Qed.

(** Suffix folding away from line feeds, where the code does what C7
    says: for a table name without line feed, a final low line and letter
    are removed and nothing else, and a name that does not end so is left
    as it is; ["roads_a"] gives ["roads"] and ["a_b_c"] gives ["a_b"]; the
    loop bodies of the SQL parser and of the database extractor both file
    the table under this class name. *)
Theorem class_name_of_strips_one_suffix `{U : UCD} (table_name : pystr) :
  LINE_FEED ∉ table_name →
  (∀ base l, table_name = base ++ [LOW_LINE; l] → ascii_letter l = true →
             class_name_of table_name = inr base) ∧
  ((∀ base l, table_name = base ++ [LOW_LINE; l] → ascii_letter l = false) →
   class_name_of table_name = inr table_name) ∧
  class_name_of (py "roads_a") = inr (py "roads") ∧
  class_name_of (py "a_b_c") = inr (py "a_b") ∧
  (∀ classes m columns_section,
     group m 2 = Some table_name → group m 3 = Some columns_section →
     ∃ columns,
       parse_table classes m
       = (class_name ← class_name_of table_name;
          mret (<[class_name := columns]> classes))) ∧
  (∀ qgis conn classes schema geom fields,
     ch "." ∉ schema → ch "." ∉ table_name →
     layer_fields qgis conn schema table_name geom = Some fields →
     extract_table qgis conn classes (schema ++ py "." ++ table_name, geom)
     = (class_name ← class_name_of table_name;
        mret (<[class_name := fields]> classes))).
Proof.
  intros Hlf. split; [|split; [|split; [|split; [|split]]]].
  - intros base l -> Hl. by apply class_name_of_suffixed.
  - by apply class_name_of_unsuffixed.
  - reflexivity.
  - reflexivity.
  - intros. by eapply parse_table_class.
  - intros. by apply extract_table_valid.
Qed.

(** C8: the threshold test is inclusive.  A layer field that some
    candidate of the attribute scores at exactly the threshold is among
    the ranked matches; a field that every candidate scores at the
    threshold less one is not; every ranked match carries the score of
    one of the candidates, the threshold or more.  With a single layer
    field, the attribute is mapped to it in the first case and to [None]
    in the second. *)
Theorem auto_map_threshold_inclusive `{U : UCD}
    (fz : fuzz_module) (pr : process_module)
    (synonyms_dict : gmap pystr (list pystr)) (threshold : Z)
    (normalized_fields : list pystr) (attr field : pystr) :
  field ∈ normalized_fields →
  let ranked :=
    sorted_matches_of fz pr synonyms_dict threshold normalized_fields attr in
  ((∃ c, c ∈ candidates_of synonyms_dict attr ∧
         score fz pr c field = threshold) → field ∈ ranked.*1) ∧
  ((∀ c, c ∈ candidates_of synonyms_dict attr →
         score fz pr c field = (threshold - 1)%Z) → field ∉ ranked.*1) ∧
  (∀ f v, (f, v) ∈ ranked →
     (threshold ≤ v)%Z ∧
     ∃ c, c ∈ candidates_of synonyms_dict attr ∧ v = score fz pr c f) ∧
  (∀ layer_field,
     ((∃ c, c ∈ candidates_of synonyms_dict attr ∧
            score fz pr c (normalize_str layer_field) = threshold) →
      auto_map_attributes_with_synonyms (Some fz) (Some pr) [attr]
        [layer_field] synonyms_dict threshold
      = inr {[ attr := Some layer_field ]}) ∧
     ((∀ c, c ∈ candidates_of synonyms_dict attr →
            score fz pr c (normalize_str layer_field) = (threshold - 1)%Z) →
      auto_map_attributes_with_synonyms (Some fz) (Some pr) [attr]
        [layer_field] synonyms_dict threshold
      = inr {[ attr := None ]})).
Proof.
  intros Hfield ranked. repeat split.
  - intros (c & Hc & Hs). apply sorted_matches_keys. split; [done|].
    exists c. split; [done|lia].
  - intros Hlow (_ & c & Hc & Hle)%sorted_matches_keys.
    rewrite (Hlow c Hc) in Hle. lia.
  - by apply sorted_matches_elem in H as (? & _).
  - apply sorted_matches_elem in H as (_ & _ & c & ? & ?). by exists c.
  - intros (c & Hc & Hs).
    unfold auto_map_attributes_with_synonyms, map_attributes.
    cbn [foldl fmap list_fmap].
    rewrite map_attribute_single; [done|cbn [snd]; apply not_elem_of_empty|].
    exists c. split; [done|lia].
  - intros Hlow.
    unfold auto_map_attributes_with_synonyms, map_attributes.
    cbn [foldl fmap list_fmap].
    rewrite map_attribute_unmapped; [done|].
    intros k E%list_elem_of_singleton (c & Hc & Hle). subst k.
    simpl in Hle. rewrite (Hlow c Hc) in Hle. lia.
Qed.

(** C9: without the similarity primitive (either of [fuzz] and [process]
    missing) the auto-mapper raises [ImportError], whatever its other
    arguments; with it the auto-mapper returns a mapping that has an entry
    for every model attribute, and an attribute none of whose candidates
    reaches the threshold on any layer field is mapped to [None]. *)
Theorem auto_map_import_error_or_unmapped `{U : UCD}
    (model_attributes layer_fields : list pystr)
    (synonyms_dict : gmap pystr (list pystr)) (threshold : Z) :
  (∀ process, auto_map_attributes_with_synonyms None process model_attributes
                layer_fields synonyms_dict threshold = inl ImportError) ∧
  (∀ fuzz, auto_map_attributes_with_synonyms fuzz None model_attributes
             layer_fields synonyms_dict threshold = inl ImportError) ∧
  (∀ fz pr, ∃ mapping,
     auto_map_attributes_with_synonyms (Some fz) (Some pr) model_attributes
       layer_fields synonyms_dict threshold = inr mapping ∧
     (∀ attr, attr ∈ model_attributes → is_Some (mapping !! attr)) ∧
     (∀ attr, attr ∈ model_attributes →
        (∀ c field, c ∈ candidates_of synonyms_dict attr →
                    field ∈ layer_fields →
                    (score fz pr c (normalize_str field) < threshold)%Z) →
        mapping !! attr = Some None)).
Proof.
  split; [done|]. split; [by intros [?|]|]. intros fz pr.
  eexists. split; [reflexivity|]. unfold map_attributes.
  generalize (∅ : gmap pystr (option pystr), ∅ : gset pystr).
  induction model_attributes as [|a attrs IH] using rev_ind; intros st.
  - split; intros attr ?%elem_of_nil; done.
  - rewrite foldl_app. simpl. destruct (IH st) as [IH1 IH2].
    set (st' := foldl _ st attrs) in *. split.
    + intros attr [Hin|E%list_elem_of_singleton]%elem_of_app.
      * destruct (decide (attr = a)) as [->|Hne];
          [apply map_attribute_is_Some|].
        rewrite map_attribute_other by done. auto.
      * subst attr. apply map_attribute_is_Some.
    + intros attr Hin Hlow. destruct (decide (attr = a)) as [->|Hne].
      * rewrite map_attribute_unmapped; [simpl; by rewrite lookup_insert_eq|].
        intros k Hk (c & Hc & Hle).
        rewrite <- list_fmap_compose in Hk.
        apply list_elem_of_fmap in Hk as (field & -> & Hfield).
        specialize (Hlow c field Hc Hfield). simpl in Hle. lia.
      * rewrite map_attribute_other by done.
        apply elem_of_app in Hin as [Hin|E%list_elem_of_singleton]; [|done].
        auto.
Qed.

(** C10, as the code has it: a line of a column block that begins, after
    its indentation, with a name free of white space and commas whose
    upper case begins with a skip keyword gives no column and leaves the
    column list as it is; so [check_date], [unique_id] and [with_flag] are
    missing from the columns of [keyword_columns_sql].  The test is on the
    line: written in quotes, as in [quoted_column_sql], [check_date] is a
    column of its table. *)
Theorem column_named_like_keyword_is_omitted `{U : UCD}
    (indent name rest kw : pystr) (columns : list pystr) :
  kw ∈ skip_keywords →
  Forall (λ c, isspace c = true) indent →
  Forall (λ c, isspace c = false ∧ c ≠ ch ",") name →
  startswith kw (upper name) = true →
  column_of_line (indent ++ name ++ rest) = inr None ∧
  add_column columns (indent ++ name ++ rest) = inr columns ∧
  @parse_sql Latin1.ucd keyword_columns_sql = inr {[ py "t" := [py "id"] ]} ∧
  @parse_sql Latin1.ucd quoted_column_sql
  = inr {[ py "t" := [py "check_date"] ]}.
Proof.
  intros Hkw Hindent Hname Hstart.
  pose proof (column_of_line_keyword indent name rest kw Hkw Hindent Hname Hstart)
    as H.
  split; [done|]. split; [unfold add_column; by rewrite H|].
  split; vm_compute; reflexivity.
Qed.

(** ** On the Latin-1 database and the scores of the examples *)

Section Examples.
Local Existing Instance Latin1.ucd.

Example candidates_of_nome :
  candidates_of SYNONYMS_DICT (py "nome") = [py "nome"; py "name"].
Proof. vm_compute. reflexivity. Qed.

Example candidates_of_descricao :
  candidates_of SYNONYMS_DICT (py "descricao")
  = [py "descricao"; py "description"; py "descricao"].
Proof. vm_compute. reflexivity. Qed.

Lemma auto_map_at_most_once_witness :
  auto_map_attributes_with_synonyms (Some example_fuzz) (Some example_process)
    [py "nome"; py "descricao"] [py "nome_completo"] SYNONYMS_DICT 50
  = inr (<[py "descricao" := None]>
           {[ py "nome" := Some (py "nome_completo") ]}) ∧
  py "nome" = py "nome".
Proof.
  split; [vm_compute; reflexivity|].
  apply (auto_map_at_most_once (Some example_fuzz) (Some example_process)
           [py "nome"; py "descricao"] [py "nome_completo"] SYNONYMS_DICT 50
           (<[py "descricao" := None]>
              {[ py "nome" := Some (py "nome_completo") ]})
           (py "nome") (py "nome") (py "nome_completo"));
    vm_compute; reflexivity.
Defined.

(** C2, as the code has it: the column block of [roads_sql] is a single
    line, of which the parser reads the leading identifier only; the
    catalog is [{"roads": ["id"]}], schema dropped and suffix stripped.
    With a column to the line the same statement gives [id] and [name]
    and the constraint line is skipped. *)
Theorem parse_sql_roads :
  parse_sql roads_sql = inr {[ py "roads" := [py "id"] ]} ∧
  parse_sql roads_lines_sql = inr {[ py "roads" := [py "id"; py "name"] ]}.
Proof. split; vm_compute; reflexivity. Qed.

Lemma parse_sql_roads_counterexample :
  parse_sql roads_sql = inr {[ py "roads" := [py "id"] ]} ∧
  ({[ py "roads" := [py "id"] ]} : gmap pystr (list pystr))
  ≠ {[ py "roads" := [py "id"; py "name"] ]}.
Proof.
  split; [vm_compute; reflexivity|].
  intros H. apply (f_equal (λ m, m !! py "roads")) in H.
  rewrite !lookup_singleton_eq in H. discriminate H.
Qed.

Lemma auto_map_tie_keeps_field_order_witness :
  auto_map_attributes_with_synonyms (Some example_fuzz) (Some example_process)
    [py "nome"] [py "nome_name"; py "name"] SYNONYMS_DICT 80
  = inr {[ py "nome" := Some (py "nome_name") ]} ∧
  ∃ field, field ∈ [py "nome_name"; py "name"] ∧ field ≠ py "name" ∧
    ({[ py "nome" := Some (py "nome_name") ]} : gmap pystr (option pystr))
      !! py "nome" = Some (Some field).
Proof.
  split; [vm_compute; reflexivity|].
  refine (proj2 (proj2 (proj2 (auto_map_tie_keeps_field_order
            example_fuzz example_process SYNONYMS_DICT 80
            [py "nome_name"; py "name"] (py "nome") (py "nome_name") (py "name")
            _ _ _)) [] [] _ _ _) _ _).
  - by vm_compute.
  - apply precedes_here.
  - intros c Hc. rewrite candidates_of_nome in Hc.
    repeat (apply elem_of_cons in Hc as [->|Hc]; [by vm_compute|]).
    by apply elem_of_nil in Hc.
  - apply NoDup_singleton.
  - vm_compute. reflexivity.
  - exists (py "name"). split; [|by vm_compute].
    rewrite candidates_of_nome. apply elem_of_cons. right.
    apply elem_of_cons. by left.
  - by intros a f ?%elem_of_nil.
Defined.

(** The layer fields [name] and [nome_name] both end at 100 for the
    attribute [nome]: [nome_name] through the attribute's own name, which
    scores 75 on [name], and [name] through the synonym.  The ranking
    puts [nome_name], the later field, first, and the mapper picks it. *)
Lemma auto_map_tie_counterexample :
  normalize_str <$> [py "name"; py "nome_name"]
  = [py "name"; py "nomename"] ∧
  sorted_matches_of example_fuzz example_process SYNONYMS_DICT 80
    [py "name"; py "nomename"] (py "nome")
  = [(py "nomename", 100%Z); (py "name", 100%Z)] ∧
  auto_map_attributes_with_synonyms (Some example_fuzz) (Some example_process)
    [py "nome"] [py "name"; py "nome_name"] SYNONYMS_DICT 80
  = inr {[ py "nome" := Some (py "nome_name") ]}.
Proof. repeat split; vm_compute; reflexivity. Qed.

Lemma auto_map_earlier_attribute_wins_witness :
  auto_map_attributes_with_synonyms (Some example_fuzz) (Some example_process)
    [py "nome"; py "descricao"] [py "nome_completo"] SYNONYMS_DICT 50
  = inr (<[py "descricao" := None]>
           {[ py "nome" := Some (py "nome_completo") ]}).
Proof.
  apply (auto_map_earlier_attribute_wins example_fuzz example_process
           SYNONYMS_DICT 50).
  - exists (py "nome"). split; [|by vm_compute].
    rewrite candidates_of_nome. apply elem_of_cons. by left.
  - exists (py "description"). split; [|by vm_compute].
    rewrite candidates_of_descricao.
    apply elem_of_cons. right. apply elem_of_cons. by left.
Defined.

(** A table block that is never closed matches nowhere. *)
Example parse_sql_unterminated : parse_sql (py "CREATE TABLE u (b int") = inr ∅.
Proof. vm_compute. reflexivity. Qed.

Lemma parse_sql_never_raises_witness : parse_sql (py "SELECT 1;") = inr ∅.
Proof.
  apply (proj1 (proj2 (parse_sql_never_raises (py "SELECT 1;")))).
  intros (pre & kw1 & ws & kw2 & post & E & H1 & Hws & _ & H2).
  apply (f_equal length) in E, H1, H2.
  rewrite !length_app in E. rewrite length_fmap in H1, H2.
  destruct ws; [done|]. simpl in *. lia.
Defined.

Lemma class_name_of_strips_one_suffix_witness :
  class_name_of (py "estrada_l") = inr (py "estrada").
Proof.
  refine (proj1 (class_name_of_strips_one_suffix (py "estrada_l") _)
            (py "estrada") (ch "l") eq_refl eq_refl).
  intros H%list_elem_of_In. vm_compute in H. intuition discriminate.
Defined.

(** C7 at a table name with a line feed, where the code misses what its
    comment (line 81) and the docstring of [extract_classes_from_db]
    (line 66) say it does: the suffix pattern is matched without DOTALL,
    and its end anchor also holds before a final line feed.  [roads_a]
    followed by a line feed does not end in a low line and a letter, and
    is folded to [roads] all the same, three code points shorter; [ab],
    line feed, [cd_e] ends in [_e] and keeps it.  The first is a table
    name of the example database, and reaches the catalog of the database
    extractor as [roads]. *)
Lemma class_name_of_line_feed_counterexample :
  class_name_of (py "roads_a" ++ nl) = inr (py "roads") ∧
  class_name_of (py "ab" ++ nl ++ py "cd_e") = inr (py "ab" ++ nl ++ py "cd_e") ∧
  extract_classes_from_db (Some example_psycopg2) example_qgis
    example_connection
  = inr {[ py "roads" := [py "id"; py "name"] ]}.
Proof. repeat split; vm_compute; reflexivity. Qed.

Lemma auto_map_threshold_inclusive_witness :
  py "name" ∈ (sorted_matches_of example_fuzz example_process SYNONYMS_DICT
                 75 [py "name"] (py "nome")).*1.
Proof.
  apply (auto_map_threshold_inclusive example_fuzz example_process
           SYNONYMS_DICT 75 [py "name"] (py "nome") (py "name")).
  - apply elem_of_cons. by left.
  - exists (py "nome"). split; [|by vm_compute].
    rewrite candidates_of_nome. apply elem_of_cons. by left.
Defined.

Lemma auto_map_import_error_or_unmapped_witness :
  ∃ mapping,
    auto_map_attributes_with_synonyms (Some example_fuzz)
      (Some example_process) [py "nome"; py "descricao"]
      [py "nome_completo"] SYNONYMS_DICT 80 = inr mapping ∧
    mapping !! py "descricao" = Some None.
Proof.
  destruct (auto_map_import_error_or_unmapped
              [py "nome"; py "descricao"] [py "nome_completo"]
              SYNONYMS_DICT 80) as (_ & _ & H).
  destruct (H example_fuzz example_process) as (mapping & Hm & _ & Hnone).
  exists mapping. split; [exact Hm|].
  apply Hnone.
  - apply elem_of_cons. right. apply elem_of_cons. by left.
  - intros c field Hc Hf. rewrite candidates_of_descricao in Hc.
    apply list_elem_of_singleton in Hf. subst field.
    repeat (apply elem_of_cons in Hc as [->|Hc]; [by vm_compute|]).
    by apply elem_of_nil in Hc.
Defined.

Lemma column_named_like_keyword_is_omitted_witness :
  column_of_line (py "  check_date date,") = inr None.
Proof.
  apply (column_named_like_keyword_is_omitted (py "  ") (py "check_date")
           (py " date,") (py "CHECK") []).
  - apply list_elem_of_In. vm_compute. tauto.
  - repeat constructor.
  - repeat (constructor; [split; [reflexivity|discriminate]|]). constructor.
  - reflexivity.
Defined.

(** Written in quotes, a column whose name begins with CHECK is kept: the
    upper case of its line begins with the quotation mark. *)
Lemma quoted_column_counterexample :
  startswith (py "CHECK") (upper (py "check_date")) = true ∧
  parse_sql quoted_column_sql = inr {[ py "t" := [py "check_date"] ]}.
Proof. split; vm_compute; reflexivity. Qed.
End Examples.

(** * Further properties *)

(** ** Loops and the table of geometry columns *)

Lemma count_0 c s : count c s = 0%nat ↔ c ∉ s.
Proof.
  unfold count. induction s as [|x s IH]; simpl.
  - split; [intros _; apply not_elem_of_nil|done].
  - rewrite not_elem_of_cons. destruct (N.eqb_spec x c) as [->|Hne]; simpl.
    + split; [done|]. by intros [? _].
    + rewrite IH. split; [intros ?; split; [congruence|done]|by intros [_ ?]].
Qed.

Lemma count_app c s t : count c (s ++ t) = (count c s + count c t)%nat.
Proof. unfold count. by rewrite List.filter_app, length_app. Qed.

(** [s.split(sep)] gives one piece more than [s] has separators. *)
Lemma length_split_on_aux sep cur s :
  length (split_on_aux sep cur s) = S (count sep s).
Proof.
  revert cur. unfold count. induction s as [|c s IH]; intros cur; simpl; [done|].
  destruct (c =? sep); simpl; by rewrite IH.
Qed.

Lemma length_split_on sep s : length (split_on sep s) = S (count sep s).
Proof. apply length_split_on_aux. Qed.

Lemma split_on_full_table r :
  (length (split_on (ch ".") (full_table r)) = 2)%nat ↔
  (ch "." ∉ r.1.1) ∧ (ch "." ∉ r.1.2).
Proof.
  rewrite length_split_on. unfold full_table.
  change (py "." ++ r.1.2) with ([ch "."] ++ r.1.2).
  rewrite !count_app, <- !count_0.
  change (count (ch ".") [ch "."]) with 1%nat. lia.
Qed.

Lemma for_each_raises {A B} (body : B → A → result B) (e : exn) l b x :
  x ∈ l → (∀ b, body b x = inl e) →
  (∀ b y, y ∈ l → (∃ b', body b y = inr b') ∨ body b y = inl e) →
  for_each body b l = inl e.
Proof.
  revert b. induction l as [|y l IH]; intros b Hx Hraise Hbody.
  - by apply elem_of_nil in Hx.
  - simpl. destruct (Hbody b y) as [[b' E]|E]; [apply elem_of_cons; by left| |];
      rewrite E; simpl; [|done].
    apply elem_of_cons in Hx as [->|Hx]; [by rewrite Hraise in E|].
    apply IH; [done|done|]. intros b'' z Hz. apply Hbody, elem_of_cons. by right.
Qed.

(** What a loop that returns leaves true, when each round that returns
    keeps it. *)
Lemma for_each_invariant {A B} (J : B → Prop) (body : B → A → result B) l b b' :
  (∀ b x b', x ∈ l → J b → body b x = inr b' → J b') →
  J b → for_each body b l = inr b' → J b'.
Proof.
  revert b. induction l as [|x l IH]; intros b Hbody Hb; simpl.
  - by intros [= <-].
  - destruct (body b x) as [e|b1] eqn:E; simpl; [done|].
    apply IH.
    + intros b2 y b3 Hy. apply Hbody, elem_of_cons. by right.
    + eapply Hbody; [|done|done]. apply elem_of_cons. by left.
Qed.

Section GeometryTables.
Implicit Types (rows : list (pystr * pystr * pystr)) (d : dict pystr).

Lemma geometry_tables_elem rows d k g :
  (k, g) ∈ geometry_tables d rows →
  (k, g) ∈ d ∨ ∃ r, r ∈ rows ∧ k = full_table r ∧ g = r.2.
Proof.
  revert d. induction rows as [|r rows IH]; intros d; simpl; [auto|].
  intros [[[= -> ->]|?]%elem_of_dict_set|(r' & ? & ? & ?)]%IH; auto.
  - right. exists r. split; [|done]. apply elem_of_cons. by left.
  - right. exists r'. split; [|done]. apply elem_of_cons. by right.
Qed.

Lemma geometry_tables_keys rows d k :
  k ∈ dict_keys (geometry_tables d rows) ↔
  k ∈ dict_keys d ∨ ∃ r, r ∈ rows ∧ k = full_table r.
Proof.
  revert d. induction rows as [|r rows IH]; intros d; simpl.
  - split; [auto|]. intros [?|(r & ?%elem_of_nil & _)]; done.
  - rewrite IH, dict_keys_set_elem. split.
    + intros [[->|?]|(r' & ? & ?)]; auto.
      * right. exists r. split; [|done]. apply elem_of_cons. by left.
      * right. exists r'. split; [|done]. apply elem_of_cons. by right.
    + intros [?|(r' & [->|?]%elem_of_cons & ->)]; auto.
      right. by exists r'.
Qed.

Lemma dict_keys_set_NoDup {V} (t : dict V) k v :
  NoDup (dict_keys t) → NoDup (dict_keys (dict_set t k v)).
Proof.
  intros Hd. destruct (decide (k ∈ dict_keys t)) as [Hin|Hin].
  - by rewrite dict_keys_set_in.
  - rewrite dict_keys_set_notin by done. apply NoDup_app.
    split; [done|]. split; [|apply NoDup_singleton].
    by intros x Hx ->%list_elem_of_singleton.
Qed.

Lemma geometry_tables_NoDup rows d :
  NoDup (dict_keys d) → NoDup (dict_keys (geometry_tables d rows)).
Proof.
  intros Hd. unfold geometry_tables. apply foldl_invariant; [|done].
  intros t r _. apply dict_keys_set_NoDup.
Qed.

Lemma geometry_tables_get_other rows d k :
  (∀ r, r ∈ rows → full_table r ≠ k) →
  dict_get (geometry_tables d rows) k = dict_get d k.
Proof.
  revert d. induction rows as [|r rows IH]; intros d Hk; simpl; [done|].
  rewrite IH by (intros r' ?; apply Hk, elem_of_cons; by right).
  rewrite dict_get_set, decide_False; [done|].
  apply Hk, elem_of_cons. by left.
Qed.

Lemma geometry_tables_get_last rows1 r rows2 d :
  (∀ r', r' ∈ rows2 → full_table r' ≠ full_table r) →
  dict_get (geometry_tables d (rows1 ++ r :: rows2)) (full_table r) = Some r.2.
Proof.
  intros Hk. unfold geometry_tables. rewrite foldl_app. simpl.
  fold (geometry_tables d rows1).
  rewrite (geometry_tables_get_other rows2) by done.
  by rewrite dict_get_set, decide_True.
Qed.
End GeometryTables.

Section DbExtractorProps.
Context `{U : UCD} (qgis : qgis_module) (conn : connection).

(** The loop body of the database extractor raises [ValueError] on a key
    that does not split in two at its full stops, and on no other. *)
Lemma extract_table_cases classes item :
  (length (split_on (ch ".") item.1) ≠ 2%nat ∧
   extract_table qgis conn classes item = inl ValueError) ∨
  (∃ schema table_name,
     split_on (ch ".") item.1 = [schema; table_name] ∧
     ((layer_fields qgis conn schema table_name item.2 = None ∧
       extract_table qgis conn classes item = inr classes) ∨
      (∃ fields class_name,
         layer_fields qgis conn schema table_name item.2 = Some fields ∧
         class_name_of table_name = inr class_name ∧
         extract_table qgis conn classes item
         = inr (<[class_name := fields]> classes)))).
Proof.
  unfold extract_table.
  destruct (split_on (ch ".") item.1) as [|schema [|table_name [|x l]]];
    [by left|by left| |by left].
  right. exists schema, table_name. split; [done|].
  destruct (layer_fields qgis conn schema table_name item.2) as [fields|];
    [right|by left].
  destruct (class_name_of_total table_name) as [class_name E].
  exists fields, class_name. by rewrite E.
Qed.

Lemma split_on_full_table_eq r schema table_name :
  split_on (ch ".") (full_table r) = [schema; table_name] →
  schema = r.1.1 ∧ table_name = r.1.2.
Proof.
  intros E.
  assert (H : length (split_on (ch ".") (full_table r)) = 2%nat) by by rewrite E.
  apply split_on_full_table in H as [H1 H2].
  unfold full_table in E. change (py "." ++ r.1.2) with (ch "." :: r.1.2) in E.
  rewrite split_on_two in E by done. by simplify_eq.
Qed.
End DbExtractorProps.

Lemma for_each_reached {A B} (Q : B → Prop) (body : B → A → result B) l b b' x :
  x ∈ l →
  (∀ b b1, body b x = inr b1 → Q b1) →
  (∀ b y b1, y ∈ l → Q b → body b y = inr b1 → Q b1) →
  for_each body b l = inr b' → Q b'.
Proof.
  revert b. induction l as [|y l IH]; intros b Hx Hset Hkeep.
  - by apply elem_of_nil in Hx.
  - simpl. destruct (body b y) as [e|b1] eqn:E; simpl; [done|].
    apply elem_of_cons in Hx as [->|Hx].
    + apply for_each_invariant; [|by eapply Hset].
      intros b2 z b3 Hz. apply Hkeep, elem_of_cons. by right.
    + apply IH; [done|done|].
      intros b2 z b3 Hz. apply Hkeep, elem_of_cons. by right.
Qed.

Lemma get_geometry_tables_from_postgis_rows db conn rows :
  fetch_geometry_columns db conn = inr rows →
  get_geometry_tables_from_postgis (Some db) conn
  = inr (geometry_tables [] rows).
Proof. intros E. unfold get_geometry_tables_from_postgis. by rewrite E. Qed.


Section DbCatalogProps.
Context `{U : UCD} (qgis : qgis_module) (conn : connection).
Implicit Types (rows : list (pystr * pystr * pystr)).

Lemma extract_tables_dotted rows r classes :
  r ∈ rows → ch "." ∈ r.1.1 ∨ ch "." ∈ r.1.2 →
  for_each (extract_table qgis conn) classes (geometry_tables [] rows)
  = inl ValueError.
Proof.
  intros Hr Hdot.
  assert (Hk : full_table r ∈ dict_keys (geometry_tables [] rows)).
  { apply geometry_tables_keys. right. by exists r. }
  apply list_elem_of_fmap in Hk as ([k g] & Hk & Hin). simpl in Hk. subst k.
  apply (for_each_raises _ ValueError _ _ (full_table r, g)); [done| |].
  - intros cl.
    destruct (extract_table_cases qgis conn cl (full_table r, g))
      as [[_ ?]|(schema & table_name & Hs & _)]; [done|]. simpl in Hs.
    assert (H2 : length (split_on (ch ".") (full_table r)) = 2%nat)
      by by rewrite Hs.
    apply split_on_full_table in H2 as [? ?]. by destruct Hdot.
  - intros cl item _.
    destruct (extract_table_cases qgis conn cl item)
      as [[_ ?]|(schema & table_name & _ & [[_ ?]|(f & c & _ & _ & ?)])];
      [by right|left; by eexists|left; by eexists].
Qed.

Lemma extract_tables_undotted rows r classes classes' :
  for_each (extract_table qgis conn) classes (geometry_tables [] rows)
  = inr classes' →
  r ∈ rows → (ch "." ∉ r.1.1) ∧ (ch "." ∉ r.1.2).
Proof.
  intros Hrun Hr.
  destruct (decide (ch "." ∈ r.1.1)) as [H1|H1];
    [rewrite (extract_tables_dotted rows r) in Hrun by auto; done|].
  destruct (decide (ch "." ∈ r.1.2)) as [H2|H2];
    [rewrite (extract_tables_dotted rows r) in Hrun by auto; done|].
  done.
Qed.

Lemma full_table_inj (r r' : pystr * pystr * pystr) :
  ch "." ∉ r.1.1 → ch "." ∉ r.1.2 → ch "." ∉ r'.1.1 → ch "." ∉ r'.1.2 →
  full_table r = full_table r' → r.1 = r'.1.
Proof.
  intros H1 H2 H1' H2' E.
  assert (E' : split_on (ch ".") (full_table r)
               = split_on (ch ".") (full_table r')) by by rewrite E.
  unfold full_table in E'.
  change (py "." ++ r.1.2) with (ch "." :: r.1.2) in E'.
  change (py "." ++ r'.1.2) with (ch "." :: r'.1.2) in E'.
  rewrite !split_on_two in E' by done.
  destruct r as [[a b] g], r' as [[a' b'] g']. by simplify_eq/=.
Qed.
End DbCatalogProps.

(** X1: what the database extractor raises.  Without the driver it
    raises [ImportError]; what the driver raises on the query passes
    through; when the driver answers, a row whose schema or table name has
    a full stop makes it raise [ValueError] (the key no longer splits in
    two), and without such a row it returns a catalog. *)
Theorem extract_classes_from_db_outcome `{U : UCD}
    (qgis : qgis_module) (conn : connection) :
  extract_classes_from_db None qgis conn = inl ImportError ∧
  (∀ db e, fetch_geometry_columns db conn = inl e →
           extract_classes_from_db (Some db) qgis conn = inl e) ∧
  (∀ db rows, fetch_geometry_columns db conn = inr rows →
     (∃ r, r ∈ rows ∧ (ch "." ∈ r.1.1 ∨ ch "." ∈ r.1.2)) →
     extract_classes_from_db (Some db) qgis conn = inl ValueError) ∧
  (∀ db rows, fetch_geometry_columns db conn = inr rows →
     (∀ r, r ∈ rows → (ch "." ∉ r.1.1) ∧ (ch "." ∉ r.1.2)) →
     ∃ classes, extract_classes_from_db (Some db) qgis conn = inr classes).
Proof.
  split; [done|]. split; [|split].
  - intros db e E. unfold extract_classes_from_db, get_geometry_tables_from_postgis.
    by rewrite E.
  - intros db rows E (r & Hr & Hdot). unfold extract_classes_from_db.
    rewrite (get_geometry_tables_from_postgis_rows _ _ _ E). simpl.
    by apply (extract_tables_dotted _ _ rows r).
  - intros db rows E Hrows. unfold extract_classes_from_db.
    rewrite (get_geometry_tables_from_postgis_rows _ _ _ E). simpl.
    apply for_each_total. intros classes [k g] Hin.
    apply geometry_tables_elem in Hin as [?%elem_of_nil|(r & Hr & -> & ->)];
      [done|].
    destruct (extract_table_cases qgis conn classes (full_table r, r.2))
      as [[Hlen _]|(schema & table_name & _ & [[_ ?]|(f & c & _ & _ & ?)])];
      [|by eexists|by eexists].
    destruct Hlen. simpl. apply split_on_full_table. by apply Hrows.
Qed.

(** X2: the catalog of the database extractor.  Every class of it is the
    folded name of a table of [geometry_columns] that opens as a valid
    layer, with the fields of that layer; a table whose last row opens as
    a valid layer has its class in the catalog; when no table opens as a
    valid layer the catalog is empty. *)
Theorem extract_classes_from_db_catalog `{U : UCD}
    (db : psycopg2_module) (qgis : qgis_module) (conn : connection)
    (rows : list (pystr * pystr * pystr))
    (classes : gmap pystr (list pystr)) :
  fetch_geometry_columns db conn = inr rows →
  extract_classes_from_db (Some db) qgis conn = inr classes →
  (∀ class_name fields, classes !! class_name = Some fields →
     ∃ r, r ∈ rows ∧ class_name_of r.1.2 = inr class_name ∧
          layer_fields qgis conn r.1.1 r.1.2 r.2 = Some fields) ∧
  (∀ rows1 r rows2 fields class_name,
     rows = rows1 ++ r :: rows2 →
     (∀ r', r' ∈ rows2 → r'.1 ≠ r.1) →
     layer_fields qgis conn r.1.1 r.1.2 r.2 = Some fields →
     class_name_of r.1.2 = inr class_name →
     is_Some (classes !! class_name)) ∧
  ((∀ r, r ∈ rows → layer_fields qgis conn r.1.1 r.1.2 r.2 = None) →
   classes = ∅).
Proof.
  intros E. unfold extract_classes_from_db.
  rewrite (get_geometry_tables_from_postgis_rows _ _ _ E). simpl. intros Hrun.
  pose (J := λ cl : gmap pystr (list pystr),
     ∀ class_name fields, cl !! class_name = Some fields →
     ∃ r, r ∈ rows ∧ class_name_of r.1.2 = inr class_name ∧
          layer_fields qgis conn r.1.1 r.1.2 r.2 = Some fields).
  assert (Hsound : J classes).
  { refine (for_each_invariant J _ _ _ _ _ _ Hrun);
      [|intros c f; by rewrite lookup_empty].
    intros cl [k g] cl' Hin Hcl.
    apply geometry_tables_elem in Hin as [?%elem_of_nil|(r & Hr & -> & ->)];
      [done|].
    destruct (extract_table_cases qgis conn cl (full_table r, r.2))
      as [[_ ->]|(schema & table_name & Hs & [[_ ->]|(f & c & Hv & Hc & ->)])];
      [done|by intros [= <-]|]. intros [= <-].
    simpl in Hs. apply split_on_full_table_eq in Hs as [-> ->].
    intros c' f'. rewrite lookup_insert. case_decide as Ec; [|apply Hcl].
    intros [= <-]. subst c'. by exists r. }
  split; [done|]. split.
  - intros rows1 r rows2 fields class_name -> Hlast Hvalid Hclass.
    assert (Hget : dict_get (geometry_tables [] (rows1 ++ r :: rows2))
                     (full_table r) = Some r.2).
    { apply geometry_tables_get_last. intros r' Hr' Ek. apply (Hlast r' Hr').
      assert (Hr : r ∈ rows1 ++ r :: rows2)
        by (apply elem_of_app; right; apply elem_of_cons; by left).
      assert (Hr2 : r' ∈ rows1 ++ r :: rows2)
        by (apply elem_of_app; right; apply elem_of_cons; by right).
      destruct (extract_tables_undotted _ _ _ _ _ _ Hrun Hr).
      destruct (extract_tables_undotted _ _ _ _ _ _ Hrun Hr2).
      by apply full_table_inj. }
    apply dict_get_Some in Hget.
    refine (for_each_reached (λ cl, is_Some (cl !! class_name))
              _ _ _ _ _ Hget _ _ Hrun).
    + intros cl cl'.
      destruct (extract_table_cases qgis conn cl (full_table r, r.2))
        as [[_ ->]|(schema & table_name & Hs & [[Hv ->]|(f & c & Hv & Hc & ->)])];
        [done| |].
      * simpl in Hs, Hv. apply split_on_full_table_eq in Hs as [-> ->]. congruence.
      * simpl in Hs. apply split_on_full_table_eq in Hs as [-> ->].
        intros [= <-]. assert (c = class_name) as -> by congruence.
        rewrite lookup_insert_eq. by eexists.
    + intros cl item cl' _ Hq.
      destruct (extract_table_cases qgis conn cl item)
        as [[_ ->]|(schema & table_name & Hs & [[Hv ->]|(f & c & Hv & Hc & ->)])];
        [done|by intros [= <-]|]. intros [= <-].
      rewrite lookup_insert. by case_decide; [eexists|].
  - intros Hnone. apply map_eq. intros c. rewrite lookup_empty.
    destruct (classes !! c) as [fields|] eqn:Hc; [|done].
    apply Hsound in Hc as (r & Hr & _ & Hv). rewrite Hnone in Hv; done.
Qed.

(** X3: the table of geometry columns has one entry for each
    [schema.table] of the rows, whatever the number of its geometry
    columns, and the entry holds the column of the last row of that
    key. *)
Theorem get_geometry_tables_last_column_wins
    (db : psycopg2_module) (conn : connection)
    (rows : list (pystr * pystr * pystr)) :
  fetch_geometry_columns db conn = inr rows →
  ∃ tables,
    get_geometry_tables_from_postgis (Some db) conn = inr tables ∧
    NoDup (dict_keys tables) ∧
    (∀ k, k ∈ dict_keys tables ↔ ∃ r, r ∈ rows ∧ k = r.1.1 ++ py "." ++ r.1.2) ∧
    (∀ rows1 r rows2, rows = rows1 ++ r :: rows2 →
       (∀ r', r' ∈ rows2 →
              r'.1.1 ++ py "." ++ r'.1.2 ≠ r.1.1 ++ py "." ++ r.1.2) →
       dict_get tables (r.1.1 ++ py "." ++ r.1.2) = Some r.2).
Proof.
  intros E. exists (geometry_tables [] rows).
  split; [by apply get_geometry_tables_from_postgis_rows|].
  split; [apply geometry_tables_NoDup, NoDup_nil_2|]. split.
  - intros k. rewrite geometry_tables_keys. split; [|auto].
    by intros [?%elem_of_nil|?].
  - intros rows1 r rows2 -> Hlast. by apply geometry_tables_get_last.
Qed.

(** ** The column pattern *)

Lemma takewhile_dropwhile {A} (p : A → bool) (l : list A) :
  takewhile p l ++ dropwhile p l = l.
Proof. induction l as [|x l IH]; simpl; [done|]. destruct (p x); simpl; congruence. Qed.

Lemma Forall_takewhile {A} (p : A → bool) (l : list A) :
  Forall (λ x, p x = true) (takewhile p l).
Proof.
  induction l as [|x l IH]; simpl; [done|].
  destruct (p x) eqn:E; by constructor.
Qed.

Lemma take_takewhile {A} (p : A → bool) (l : list A) :
  take (length l - length (dropwhile p l)) l = takewhile p l.
Proof.
  rewrite <- (takewhile_dropwhile p l) at 1 3.
  rewrite length_app.
  replace (length (takewhile p l) + length (dropwhile p l)
           - length (dropwhile p l))%nat with (length (takewhile p l)) by lia.
  by rewrite take_app_length.
Qed.

Section RegexSpec.
Context `{U : UCD}.

(** A greedy repetition before a continuation that accepts whatever is
    left takes all it can. *)
Lemma rep_greedy_max {R} cs (k : pystr → option R) min s :
  (∀ s', is_Some (k s')) →
  rep_greedy cs k min s =
  if (min <=? length (takewhile (charset_mem cs) s))%nat
  then k (dropwhile (charset_mem cs) s) else None.
Proof.
  intros Hk. revert min. induction s as [|c s IH]; intros min; simpl.
  - by destruct min.
  - destruct (charset_mem cs c); simpl.
    + rewrite IH. destruct min as [|min]; simpl.
      * by destruct (Hk (dropwhile (charset_mem cs) s)) as [r ->].
      * destruct (min <=? _)%nat; [|done].
        by destruct (Hk (dropwhile (charset_mem cs) s)) as [r ->].
    + by destruct min.
Qed.

Lemma rmatch_word_group inp s g :
  rmatch (Seq (Group 1 (Rep true 1 CWord)) Empty) inp s g
    (λ s' g', Some (Match s' g'))
  = w ← word_run s;
    Some (Match (dropwhile (charset_mem CWord) s) (<[1%nat := w]> g)).
Proof.
  cbn [rmatch]. rewrite rep_greedy_max by (intros; by eexists).
  unfold word_run. rewrite take_takewhile.
  by destruct (takewhile (charset_mem CWord) s).
Qed.

Lemma re_match_column_pattern_unfold line :
  re_match column_pattern line =
  let word s g :=
    rmatch (Seq (Group 1 (Rep true 1 CWord)) Empty) line s g
      (λ s' g', Some (Match s' g')) in
  match line with
  | c :: line' =>
      if charset_mem (CChars [QUOTATION_MARK; APOSTROPHE]) c then
        match word line' ∅ with
        | Some m => Some m
        | None => word line ∅
        end
      else word line ∅
  | [] => word line ∅
  end.
Proof.
  unfold re_match, match_at, column_pattern.
  cbn [cat foldr]. cbn [rmatch]. rewrite Nat.eqb_refl.
  destruct line as [|c line']; [done|].
  by destruct (charset_mem _ c).
Qed.

Lemma re_match_column_pattern line :
  match re_match column_pattern line with
  | Some m => group m 1 = column_name line ∧ is_Some (column_name line)
  | None => column_name line = None
  end.
Proof.
  rewrite re_match_column_pattern_unfold. cbv zeta.
  unfold column_name. destruct line as [|c line'].
  - by rewrite rmatch_word_group.
  - destruct (charset_mem _ c).
    + rewrite !rmatch_word_group.
      destruct (word_run line') as [w|]; simpl.
      * unfold group. simpl. rewrite lookup_insert_eq. by split; [|eexists].
      * destruct (word_run (c :: line')) as [w|]; simpl; [|done].
        unfold group. simpl. rewrite lookup_insert_eq. by split; [|eexists].
    + rewrite !rmatch_word_group.
      destruct (word_run (c :: line')) as [w|]; simpl; [|done].
      unfold group. simpl. rewrite lookup_insert_eq. by split; [|eexists].
Qed.

Lemma word_run_Some s w :
  word_run s = Some w → w ≠ [] ∧ Forall (λ c, charset_mem CWord c = true) w ∧ w `prefix_of` s.
Proof.
  unfold word_run. pose proof (Forall_takewhile (charset_mem CWord) s) as H.
  pose proof (takewhile_dropwhile (charset_mem CWord) s) as E.
  destruct (takewhile _ s) as [|c t]; [done|]. intros [= <-].
  split; [done|]. split; [done|]. by exists (dropwhile (charset_mem CWord) s).
Qed.

Lemma column_name_Some line w :
  column_name line = Some w →
  w ≠ [] ∧ Forall (λ c, charset_mem CWord c = true) w.
Proof.
  unfold column_name. destruct line as [|c line']; [done|].
  destruct (charset_mem _ c); [destruct (word_run line') as [w'|] eqn:E|].
  - intros [= <-]. apply word_run_Some in E as (? & ? & _). done.
  - intros (? & ? & _)%word_run_Some. done.
  - intros (? & ? & _)%word_run_Some. done.
Qed.
End RegexSpec.

(** ** The shape of a match of the table pattern *)

Section RegexInversion.
Context `{U : UCD}.
Implicit Types (k : pystr → captures → option match_obj).

Lemma rmatch_Chr_Some cs inp s g k m :
  rmatch (Chr cs) inp s g k = Some m →
  ∃ c s', s = c :: s' ∧ charset_mem cs c = true ∧ k s' g = Some m.
Proof.
  simpl. destruct s as [|c s']; [done|].
  destruct (charset_mem cs c) eqn:E; [|done]. intros Hk. by exists c, s'.
Qed.

Lemma rmatch_Rep_Some greedy min cs inp s g k m :
  rmatch (Rep greedy min cs) inp s g k = Some m →
  ∃ w rest, s = w ++ rest ∧ Forall (λ c, charset_mem cs c = true) w ∧
            (min ≤ length w)%nat ∧ k rest g = Some m.
Proof.
  simpl. destruct greedy.
  - apply (rep_greedy_Some cs (λ s', k s' g)).
  - apply (rep_lazy_Some cs (λ s', k s' g)).
Qed.

Lemma rmatch_Opt_Some r inp s g k m :
  rmatch (Opt r) inp s g k = Some m →
  rmatch r inp s g k = Some m ∨ k s g = Some m.
Proof. simpl. destruct (rmatch r inp s g k); [intros [= ->]; by left|by right]. Qed.

Lemma rmatch_Alt_Some r1 r2 inp s g k m :
  rmatch (Alt r1 r2) inp s g k = Some m →
  rmatch r1 inp s g k = Some m ∨ rmatch r2 inp s g k = Some m.
Proof. simpl. destruct (rmatch r1 inp s g k); [intros [= ->]; by left|by right]. Qed.

Lemma rmatch_Seq r1 r2 inp s g k :
  rmatch (Seq r1 r2) inp s g k
  = rmatch r1 inp s g (λ s' g', rmatch r2 inp s' g' k).
Proof. reflexivity. Qed.

Lemma rmatch_Group n r inp s g k :
  rmatch (Group n r) inp s g k
  = rmatch r inp s g
      (λ s' g', k s' (<[n := take (length s - length s') s]> g')).
Proof. reflexivity. Qed.

Lemma take_length_app (w rest : pystr) :
  take (length (w ++ rest) - length rest) (w ++ rest) = w.
Proof.
  rewrite length_app.
  replace (length w + length rest - length rest)%nat with (length w) by lia.
  by rewrite take_app_length.
Qed.

Lemma charset_mem_CLit a c : charset_mem (CLit a) c = true → c = a.
Proof. simpl. by intros ?%N.eqb_eq. Qed.

(** The shape of a match of [table_pattern]. *)
Lemma match_at_table_pattern_shape inp s m :
  match_at table_pattern inp s = Some m →
  ∃ kw1 ws1 kw2 ws2 qual name ws3 body ws4 t,
    s = kw1 ++ ws1 ++ kw2 ++ ws2 ++ qual ++ name ++ ws3 ++ [ch "("] ++ body
        ++ [ch ")"] ++ ws4 ++ [t] ++ m_rest m ∧
    tolower <$> kw1 = py "create" ∧ tolower <$> kw2 = py "table" ∧
    ws1 ≠ [] ∧ ws2 ≠ [] ∧
    Forall is_space ws1 ∧ Forall is_space ws2 ∧
    Forall is_space ws3 ∧ Forall is_space ws4 ∧
    (qual = [] ∨
     ∃ schema, qual = schema ++ [ch "."] ∧ schema ≠ [] ∧ Forall is_word schema) ∧
    name ≠ [] ∧ Forall is_word name ∧
    (t = ch ";" ∨ t = ch "#") ∧
    group m 1 = Some (qual ++ name) ∧ group m 2 = Some name ∧
    group m 3 = Some body.
Proof.
  unfold match_at, table_pattern. cbn [cat foldr].
  intros (kw1 & s1 & -> & Hkw1 & H)%rmatch_lits_ignorecase.
  rewrite rmatch_Seq in H.
  apply rmatch_Rep_Some in H as (ws1 & s2 & -> & Hws1 & Hl1 & H).
  apply rmatch_lits_ignorecase in H as (kw2 & s3 & -> & Hkw2 & H).
  rewrite rmatch_Seq in H.
  apply rmatch_Rep_Some in H as (ws2 & s4 & -> & Hws2 & Hl2 & H).
  rewrite rmatch_Seq, rmatch_Group, rmatch_Seq in H.
  assert (∃ qual s5, s4 = qual ++ s5 ∧
    (qual = [] ∨
     ∃ schema, qual = schema ++ [ch "."] ∧ schema ≠ [] ∧ Forall is_word schema) ∧
    rmatch (Group 2 (Rep true 1 CWord)) inp s5 ∅
      (λ s' g', rmatch
         (Seq (Rep true 0 CSpace)
            (Seq (Chr (CLit (ch "(")))
               (Seq (Group 3 (Rep false 0 CDotAll))
                  (Seq (Chr (CLit (ch ")")))
                     (Seq (Rep true 0 CSpace)
                        (Seq (Alt (Chr (CLit (ch ";"))) (Chr (CLit (ch "#"))))
                           Empty))))))
         inp s' (<[1%nat := take (length s4 - length s') s4]> g')
         (λ s' g, Some (Match s' g))) = Some m)
    as (qual & s5 & -> & Hqual & H').
  { apply rmatch_Opt_Some in H as [H|H].
    - rewrite rmatch_Seq in H.
      apply rmatch_Rep_Some in H as (schema & r1 & -> & Hschema & Hls & H).
      apply rmatch_Chr_Some in H as (c & r2 & -> & ->%charset_mem_CLit & H).
      exists (schema ++ [ch "."]), r2. split; [by rewrite <- app_assoc|].
      split; [|done]. right. exists schema. split; [done|]. split; [|done].
      intros ->. simpl in Hls. lia.
    - exists [], s4. split; [done|]. split; [by left|done]. }
  clear H. rewrite rmatch_Group in H'.
  apply rmatch_Rep_Some in H' as (name & s6 & -> & Hname & Hln & H).
  rewrite take_length_app in H.
  rewrite (app_assoc qual name s6), take_length_app in H.
  rewrite rmatch_Seq in H.
  apply rmatch_Rep_Some in H as (ws3 & s7 & -> & Hws3 & _ & H).
  rewrite rmatch_Seq in H.
  apply rmatch_Chr_Some in H as (c1 & s8 & -> & ->%charset_mem_CLit & H).
  rewrite rmatch_Seq, rmatch_Group in H.
  apply rmatch_Rep_Some in H as (body & s9 & -> & _ & _ & H).
  rewrite take_length_app in H.
  rewrite rmatch_Seq in H.
  apply rmatch_Chr_Some in H as (c2 & s10 & -> & ->%charset_mem_CLit & H).
  rewrite rmatch_Seq in H.
  apply rmatch_Rep_Some in H as (ws4 & s11 & -> & Hws4 & _ & H).
  rewrite rmatch_Seq in H.
  assert (∃ t s12, s11 = t :: s12 ∧ (t = ch ";" ∨ t = ch "#") ∧
            m = Match s12 (<[3%nat := body]>
                             (<[1%nat := qual ++ name]> (<[2%nat := name]> ∅))))
    as (t & s12 & -> & Ht & ->).
  { apply rmatch_Alt_Some in H as [H|H];
      apply rmatch_Chr_Some in H as (t & s12 & -> & Ht%charset_mem_CLit & H);
      simpl in H; exists t, s12; (split; [done|]); (split; [auto|]); congruence. }
  exists kw1, ws1, kw2, ws2, qual, name, ws3, body, ws4, t. simpl.
  split; [done|].
  repeat (split; [first [done | by intros ->; simpl in *; lia]|]).
  unfold group. simpl. done.
Qed.
End RegexInversion.

(** ** The SQL parser *)

Section ParserProps.
Context `{U : UCD}.

Lemma elem_of_finditer_aux_suffix r inp s skip m :
  m ∈ finditer_aux r inp s skip →
  ∃ s', s' `suffix_of` s ∧ match_at r inp s' = Some m.
Proof.
  revert skip. induction s as [|c s IH]; intros skip.
  - destruct skip; simpl; [|by intros ?%elem_of_nil].
    destruct (match_at r inp []) as [m'|] eqn:E; [|by intros ?%elem_of_nil].
    intros [->|?%elem_of_nil]%elem_of_cons; [|done]. by exists [].
  - assert (Htl : ∀ n, m ∈ finditer_aux r inp s n →
      ∃ s', s' `suffix_of` c :: s ∧ match_at r inp s' = Some m).
    { intros n (s' & Hs & E)%IH. exists s'. split; [by apply suffix_cons_r|done]. }
    destruct skip as [|skip]; simpl; [|apply Htl].
    destruct (match_at r inp (c :: s)) as [m'|] eqn:E; [|apply Htl].
    intros [->|?]%elem_of_cons; [by exists (c :: s)|]. by eapply Htl.
Qed.

Lemma column_of_line_column_of line : column_of_line line = inr (column_of line).
Proof.
  unfold column_of_line, column_of.
  destruct (_ || _); [done|].
  pose proof (re_match_column_pattern (rstrip_chars (py ",") (strip line))) as H.
  destruct (re_match column_pattern _) as [m|]; [|by rewrite H].
  destruct H as [-> [w ->]]. done.
Qed.

Lemma add_column_column_of columns line :
  add_column columns line
  = inr (match column_of line with Some c => columns ++ [c] | None => columns end).
Proof. unfold add_column. by rewrite column_of_line_column_of. Qed.

Lemma for_each_add_column columns lines :
  for_each add_column columns lines = inr (columns ++ omap column_of lines).
Proof.
  revert columns. induction lines as [|line lines IH]; intros columns;
    cbn [for_each omap].
  - by rewrite app_nil_r.
  - rewrite add_column_column_of. simpl.
    rewrite IH. destruct (column_of line); simpl; [|done].
    by rewrite <- app_assoc.
Qed.

Lemma column_of_Some line w :
  column_of line = Some w → w ≠ [] ∧ Forall is_word w.
Proof.
  unfold column_of. cbv zeta. destruct (_ || _); [done|].
  apply column_name_Some.
Qed.

(** The class name is the table name, or the table name cut before a
    final low line and letter (and a line feed after them). *)
Lemma class_name_of_shape table_name :
  ∃ class_name, class_name_of table_name = inr class_name ∧
    (class_name = table_name ∨
     ∃ l tl, table_name = class_name ++ LOW_LINE :: l :: tl ∧
             ascii_letter l = true ∧ (tl = [] ∨ tl = [LINE_FEED])).
Proof.
  unfold class_name_of. rewrite re_match_suffix_pattern.
  destruct (rep_greedy CDot (suffix_rest table_name) 0 table_name) as [m|] eqn:E;
    [|exists table_name; by split; [|left]].
  apply rep_greedy_Some in E as (w & rest & Et & _ & _ & E).
  rewrite suffix_rest_spec in E.
  assert (Ew : take (length table_name - length rest) table_name = w)
    by (rewrite Et; apply take_length_app).
  rewrite Ew in E.
  destruct rest as [|c1 [|c2 tl]]; [done|done|].
  destruct (N.eqb_spec c1 LOW_LINE) as [->|]; [|done].
  destruct (ascii_letter c2) eqn:Hl; [|done].
  assert (Htl : tl = [] ∨ tl = [LINE_FEED]).
  { destruct tl as [|c [|c' tl]]; [by left| |done].
    destruct (N.eqb_spec c LINE_FEED) as [->|]; [by right|done]. }
  assert (Em : m = Match tl {[ 1%nat := w ]}).
  { by destruct Htl as [->| ->]; simplify_eq/=. }
  subst m. exists w. unfold group. simpl. rewrite lookup_singleton_eq.
  split; [done|]. right. by exists c2, tl.
Qed.

Lemma class_name_of_prefix table_name class_name :
  class_name_of table_name = inr class_name →
  class_name `prefix_of` table_name.
Proof.
  destruct (class_name_of_shape table_name) as (c & -> & [->|(l & tl & -> & _)]);
    intros [= <-]; [done|]. by eexists.
Qed.

(** The loop body of the SQL parser on a match of [table_pattern]. *)
Lemma parse_table_match classes inp s m :
  match_at table_pattern inp s = Some m →
  ∃ table_name columns_section class_name,
    group m 2 = Some table_name ∧ group m 3 = Some columns_section ∧
    class_name_of table_name = inr class_name ∧
    parse_table classes m
    = inr (<[class_name := omap column_of (splitlines columns_section)]> classes).
Proof.
  intros (kw1 & ws1 & kw2 & ws2 & qual & name & ws3 & body & ws4 & t & _ & _ & _
          & _ & _ & _ & _ & _ & _ & _ & _ & _ & _ & _ & H2 & H3)%match_at_table_pattern_shape.
  destruct (class_name_of_shape name) as (class_name & Hc & _).
  exists name, body, class_name. repeat (split; [done|]).
  unfold parse_table. rewrite H2, H3. simpl. rewrite Hc. simpl.
  by rewrite for_each_add_column.
Qed.
End ParserProps.

Lemma parse_sql_blocks `{U : UCD}
    (sql_content : pystr) (classes : gmap pystr (list pystr))
    (class_name : pystr) (columns : list pystr) :
  parse_sql sql_content = inr classes →
  classes !! class_name = Some columns →
  ∃ pre kw1 ws1 kw2 ws2 qual name ws3 body ws4 t post,
    sql_content = pre ++ kw1 ++ ws1 ++ kw2 ++ ws2 ++ qual ++ name ++ ws3
                  ++ [ch "("] ++ body ++ [ch ")"] ++ ws4 ++ [t] ++ post ∧
    tolower <$> kw1 = py "create" ∧ tolower <$> kw2 = py "table" ∧
    ws1 ≠ [] ∧ ws2 ≠ [] ∧
    Forall is_space ws1 ∧ Forall is_space ws2 ∧
    Forall is_space ws3 ∧ Forall is_space ws4 ∧
    (qual = [] ∨
     ∃ schema, qual = schema ++ [ch "."] ∧ schema ≠ [] ∧ Forall is_word schema) ∧
    name ≠ [] ∧ Forall is_word name ∧
    (t = ch ";" ∨ t = ch "#") ∧
    class_name_of name = inr class_name ∧
    columns = omap column_of (splitlines body).
Proof.
  unfold parse_sql, finditer. intros Hrun.
  pose (J := λ cl : gmap pystr (list pystr), ∀ class_name columns,
    cl !! class_name = Some columns →
    ∃ pre kw1 ws1 kw2 ws2 qual name ws3 body ws4 t post,
    sql_content = pre ++ kw1 ++ ws1 ++ kw2 ++ ws2 ++ qual ++ name ++ ws3
                  ++ [ch "("] ++ body ++ [ch ")"] ++ ws4 ++ [t] ++ post ∧
    tolower <$> kw1 = py "create" ∧ tolower <$> kw2 = py "table" ∧
    ws1 ≠ [] ∧ ws2 ≠ [] ∧
    Forall is_space ws1 ∧ Forall is_space ws2 ∧
    Forall is_space ws3 ∧ Forall is_space ws4 ∧
    (qual = [] ∨
     ∃ schema, qual = schema ++ [ch "."] ∧ schema ≠ [] ∧ Forall is_word schema) ∧
    name ≠ [] ∧ Forall is_word name ∧
    (t = ch ";" ∨ t = ch "#") ∧
    class_name_of name = inr class_name ∧
    columns = omap column_of (splitlines body)).
  revert class_name columns. change (J classes).
  refine (for_each_invariant J _ _ _ _ _ _ Hrun);
    [|intros c f; by rewrite lookup_empty].
  intros cl m cl' (s & [pre ->] & E)%elem_of_finditer_aux_suffix Hcl.
  destruct (parse_table_match cl _ _ _ E) as (tn & cs & cn & H2 & H3 & Hcn & ->).
  intros [= <-] c cols. rewrite lookup_insert. case_decide as Ec; [|apply Hcl].
  intros [= <-]. subst c.
  apply match_at_table_pattern_shape in E
    as (kw1 & ws1 & kw2 & ws2 & qual & name & ws3 & body & ws4 & t & Es & ? & ?
        & ? & ? & ? & ? & ? & ? & ? & ? & ? & ? & _ & H2' & H3').
  assert (name = tn) as -> by congruence. assert (body = cs) as -> by congruence.
  exists pre, kw1, ws1, kw2, ws2, qual, tn, ws3, cs, ws4, t, (m_rest m).
  split; [by rewrite Es|]. done.
Qed.

(** X4: [column_of_line] without its regular expression.  The line is
    stripped of white space and of commas at its end; an empty line or
    one whose upper case begins with a skip keyword names no column;
    otherwise the column is the run of word characters at the start of the
    line, read after one quotation mark or apostrophe when that leaves a
    word.  The function never raises, and a column is never empty. *)
Theorem column_of_line_is_column_of `{U : UCD} (line : pystr) :
  column_of_line line = inr (column_of line) ∧
  (∀ columns, add_column columns line
     = inr (match column_of line with
            | Some c => columns ++ [c]
            | None => columns
            end)) ∧
  (∀ w, column_of line = Some w → w ≠ [] ∧ Forall is_word w).
Proof.
  split; [apply column_of_line_column_of|]. split.
  - intros columns. apply add_column_column_of.
  - apply column_of_Some.
Qed.

(** X5: the class name of any table name.  [class_name_of] never raises;
    the class name is the table name, or the table name cut before a
    final low line and ASCII letter, which a single line feed may
    follow. *)
Theorem class_name_of_cuts_one_suffix `{U : UCD} (table_name : pystr) :
  ∃ class_name,
    class_name_of table_name = inr class_name ∧
    class_name `prefix_of` table_name ∧
    (class_name = table_name ∨
     ∃ l tl, table_name = class_name ++ LOW_LINE :: l :: tl ∧
             ascii_letter l = true ∧ (tl = [] ∨ tl = [LINE_FEED])).
Proof.
  destruct (class_name_of_shape table_name) as (class_name & Hc & Hshape).
  exists class_name. split; [done|]. split; [|done].
  by apply class_name_of_prefix.
Qed.

(** X6: every class of the catalog of [parse_sql] comes from a block of
    the text: the words CREATE and TABLE in any case, a table name of
    word characters with or without a schema before it, an opening
    parenthesis, a body, a closing parenthesis and a semicolon or number
    sign, white space between them where the pattern has it.  The class is
    the class name of that table name and its columns are those of the
    lines of the body, in their order. *)
Theorem parse_sql_classes_come_from_blocks `{U : UCD}
    (sql_content : pystr) (classes : gmap pystr (list pystr))
    (class_name : pystr) (columns : list pystr) :
  parse_sql sql_content = inr classes →
  classes !! class_name = Some columns →
  ∃ pre kw1 ws1 kw2 ws2 qual name ws3 body ws4 t post,
    sql_content = pre ++ kw1 ++ ws1 ++ kw2 ++ ws2 ++ qual ++ name ++ ws3
                  ++ [ch "("] ++ body ++ [ch ")"] ++ ws4 ++ [t] ++ post ∧
    tolower <$> kw1 = py "create" ∧ tolower <$> kw2 = py "table" ∧
    ws1 ≠ [] ∧ ws2 ≠ [] ∧
    Forall is_space ws1 ∧ Forall is_space ws2 ∧
    Forall is_space ws3 ∧ Forall is_space ws4 ∧
    (qual = [] ∨
     ∃ schema, qual = schema ++ [ch "."] ∧ schema ≠ [] ∧ Forall is_word schema) ∧
    name ≠ [] ∧ Forall is_word name ∧
    (t = ch ";" ∨ t = ch "#") ∧
    class_name_of name = inr class_name ∧
    columns = omap column_of (splitlines body).
Proof. apply parse_sql_blocks. Qed.

(** X7: in the catalog of [parse_sql] a class name is a run of word
    characters (it may be empty) and a column is a run of word characters
    that is not empty: no quotation mark, white space, comma or
    parenthesis gets into a name. *)
Theorem parse_sql_names_are_words `{U : UCD}
    (sql_content : pystr) (classes : gmap pystr (list pystr))
    (class_name : pystr) (columns : list pystr) :
  parse_sql sql_content = inr classes →
  classes !! class_name = Some columns →
  Forall is_word class_name ∧
  Forall (λ column, column ≠ [] ∧ Forall is_word column) columns.
Proof.
  intros Hrun Hc.
  destruct (parse_sql_blocks _ _ _ _ Hrun Hc)
    as (pre & kw1 & ws1 & kw2 & ws2 & qual & name & ws3 & body & ws4 & t & post
        & _ & _ & _ & _ & _ & _ & _ & _ & _ & _ & _ & Hname & _ & Hcn & ->).
  split.
  - apply class_name_of_prefix in Hcn as [rest ->].
    by apply Forall_app in Hname as [? _].
  - apply Forall_forall. intros w (line & _ & Hw)%list_elem_of_omap.
    by apply column_of_Some in Hw.
Qed.

(** ** A single statement *)

Section RegexForward.
Context `{U : UCD}.
Implicit Types (k : pystr → captures → option match_obj).

Lemma rep_greedy_take {R} cs (k : pystr → option R) min w rest m :
  Forall (λ c, charset_mem cs c = true) w → stops (charset_mem cs) rest →
  (min ≤ length w)%nat → k rest = Some m →
  rep_greedy cs k min (w ++ rest) = Some m.
Proof.
  intros Hw Hrest. revert min. induction Hw as [|c w Hc Hw IH]; intros min Hmin Hk.
  - simpl in *. assert (min = 0%nat) as -> by lia.
    destruct rest as [|c rest]; simpl; [done|]. simpl in Hrest. by rewrite Hrest.
  - simpl. rewrite Hc, IH; [done| |done]. simpl in Hmin. lia.
Qed.

Lemma rep_greedy_fail {R} cs (k : pystr → option R) min w rest :
  Forall (λ c, charset_mem cs c = true) w → stops (charset_mem cs) rest →
  (∀ w1 w2, w = w1 ++ w2 → k (w2 ++ rest) = None) →
  rep_greedy cs k min (w ++ rest) = None.
Proof.
  intros Hw Hrest. revert min.
  induction Hw as [|c w Hc Hw IH]; intros min Hk.
  - simpl. specialize (Hk [] [] eq_refl). simpl in Hk.
    destruct rest as [|c rest]; simpl.
    + by destruct min.
    + simpl in Hrest. rewrite Hrest. by destruct min.
  - simpl. rewrite Hc, IH.
    + destruct min; [|done]. apply (Hk [] (c :: w) eq_refl).
    + intros w1 w2 ->. apply (Hk (c :: w1) w2 eq_refl).
Qed.

Lemma rep_lazy_skip {R} cs (k : pystr → option R) body rest m :
  Forall (λ c, charset_mem cs c = true) body →
  (∀ b1 c b2, body = b1 ++ c :: b2 → k (c :: b2 ++ rest) = None) →
  k rest = Some m →
  rep_lazy cs k 0 (body ++ rest) = Some m.
Proof.
  intros Hb. induction Hb as [|c b Hc Hb IH]; intros Hnone Hk.
  - simpl. destruct rest; simpl; by rewrite Hk.
  - simpl. rewrite (Hnone [] c b eq_refl), Hc. apply IH; [|done].
    intros b1 c' b2 ->. apply (Hnone (c :: b1) c' b2 eq_refl).
Qed.

Lemma rmatch_lits_take w r inp w' rest g k :
  tolower <$> w' = w →
  rmatch (Seq (lits CLitI w) r) inp (w' ++ rest) g k = rmatch r inp rest g k.
Proof.
  intros <-. induction w' as [|c w' IH]; [done|].
  cbn. rewrite N.eqb_refl. apply IH.
Qed.

Lemma rmatch_block_end_Some inp s g k m :
  rmatch block_end inp s g k = Some m → ends_block s.
Proof.
  unfold block_end. rewrite rmatch_Seq.
  intros (ws & s1 & -> & Hws & _ & H)%rmatch_Rep_Some.
  rewrite rmatch_Seq in H.
  apply rmatch_Alt_Some in H as [H|H];
    apply rmatch_Chr_Some in H as (t & s2 & -> & Ht%charset_mem_CLit & _);
    exists ws, t, s2; auto.
Qed.

Lemma finditer_aux_skip_all r inp s :
  match_at r inp [] = None → finditer_aux r inp s (length s) = [].
Proof.
  intros Hnone. induction s as [|c s IH]; simpl; [by rewrite Hnone|].
  destruct s; exact IH.
Qed.
End RegexForward.

Lemma table_pattern_parts :
  table_pattern
  = Seq (lits CLitI (py "create"))
      (Seq (Rep true 1 CSpace)
         (Seq (lits CLitI (py "table")) (Seq (Rep true 1 CSpace) block_name))).
Proof. reflexivity. Qed.

Section SingleStatement.
Context `{U : UCD} (HU : basic_latin).

Local Abbreviation k0 := (λ (s' : pystr) (g : captures), Some (Match s' g)).

Lemma basic_latin_isspace c : c < 128 → isspace c = Latin1.isspace c.
Proof. intros Hc. by destruct (proj1 HU c Hc) as (_ & ? & _). Qed.

Lemma basic_latin_isalnum c : c < 128 → isalnum c = Latin1.isalnum c.
Proof. intros Hc. by destruct (proj1 HU c Hc) as (_ & _ & ?). Qed.

Lemma basic_latin_tolower w :
  Forall (λ c, c < 128) w → tolower <$> w = Latin1.tolower <$> w.
Proof.
  induction 1 as [|c w Hc _ IH]; [done|]. rewrite !fmap_cons, IH.
  by destruct (proj1 HU c Hc) as (-> & _).
Qed.

Lemma word_not_punct c :
  charset_mem CWord c = true →
  c ≠ ch "." ∧ c ≠ ch " " ∧ c ≠ ch "(" ∧ c ≠ ch ")".
Proof.
  intros Hc. repeat split; intros ->; unfold charset_mem in Hc;
    by rewrite basic_latin_isalnum in Hc.
Qed.

Lemma word_not_space c :
  charset_mem CWord c = true → charset_mem CSpace c = false.
Proof.
  unfold charset_mem. intros [Hc|Hc%N.eqb_eq]%orb_true_iff.
  - by apply (proj2 HU).
  - subst c. by rewrite basic_latin_isspace.
Qed.

Lemma rmatch_block_close inp g :
  rmatch block_close inp (py ");") g k0 = Some (Match [] g).
Proof.
  unfold block_close, block_end. rewrite !rmatch_Seq.
  change (py ");") with ([ch ")"] ++ [] ++ [ch ";"]).
  cbn [rmatch charset_mem app]. rewrite N.eqb_refl.
  apply (rep_greedy_take _ _ _ [] [ch ";"]); [done| |done|done].
  simpl. by rewrite basic_latin_isspace.
Qed.

Lemma rmatch_block_body inp body g :
  (∀ b1 b2, body = b1 ++ ch ")" :: b2 → ¬ ends_block (b2 ++ py ");")) →
  rmatch block_body inp (body ++ py ");") g k0
  = Some (Match [] (<[3%nat := body]> g)).
Proof.
  intros Hbody. unfold block_body. rewrite rmatch_Seq, rmatch_Group.
  change (rmatch (Rep false 0 CDotAll) inp ?s ?g ?k)
    with (rep_lazy CDotAll (λ s', k s' g) 0 s).
  apply rep_lazy_skip.
  - by apply Forall_forall.
  - intros b1 c b2 ->. cbn beta. unfold block_close. rewrite rmatch_Seq.
    cbn [rmatch charset_mem].
    destruct (N.eqb_spec c (ch ")")) as [->|]; [|done].
    match goal with |- ?x = None => destruct x as [m|] eqn:E end; [|done].
    apply rmatch_block_end_Some in E. by destruct (Hbody b1 b2).
  - cbn beta. rewrite take_length_app. apply rmatch_block_close.
Qed.

Lemma rmatch_block_open inp body g :
  (∀ b1 b2, body = b1 ++ ch ")" :: b2 → ¬ ends_block (b2 ++ py ");")) →
  rmatch block_open inp (py " (" ++ body ++ py ");") g k0
  = Some (Match [] (<[3%nat := body]> g)).
Proof.
  intros Hbody. unfold block_open. rewrite rmatch_Seq.
  change (rmatch (Rep true 0 CSpace) inp ?s ?g ?k)
    with (rep_greedy CSpace (λ s', k s' g) 0 s).
  change (py " (" ++ body ++ py ");")
    with ([ch " "] ++ ch "(" :: body ++ py ");").
  apply rep_greedy_take.
  - constructor; [|done]. simpl. by rewrite basic_latin_isspace.
  - simpl. by rewrite basic_latin_isspace.
  - simpl. lia.
  - cbn beta. rewrite rmatch_Seq. cbn [rmatch charset_mem].
    rewrite N.eqb_refl. by apply rmatch_block_body.
Qed.

Lemma rmatch_block_name inp name body :
  name ≠ [] → Forall is_word name →
  (∀ b1 b2, body = b1 ++ ch ")" :: b2 → ¬ ends_block (b2 ++ py ");")) →
  rmatch block_name inp (name ++ py " (" ++ body ++ py ");") ∅ k0
  = Some (Match [] (<[3%nat := body]>
                      (<[1%nat := name]> (<[2%nat := name]> ∅)))).
Proof.
  intros Hne Hname Hbody. unfold block_name.
  rewrite rmatch_Seq, rmatch_Group, rmatch_Seq.
  set (rest := py " (" ++ body ++ py ");").
  assert (Hrest : stops (charset_mem CWord) rest).
  { simpl. by rewrite basic_latin_isalnum. }
  set (K := λ (s' : pystr) (g' : captures), rmatch (Group 2 _) _ s' g' _).
  assert (Hopt : rmatch (Seq (Rep true 1 CWord) (Chr (CLit (ch "."))))
                   inp (name ++ rest) ∅ K = None).
  { rewrite rmatch_Seq.
    change (rmatch (Rep true 1 CWord) inp ?s ?g ?k)
      with (rep_greedy CWord (λ s', k s' g) 1 s).
    apply rep_greedy_fail; [done|done|].
    intros w1 w2 ->. cbn beta. cbn [rmatch].
    destruct w2 as [|c w2]; [done|]. simpl.
    apply Forall_app in Hname as [_ Hc]. apply Forall_cons in Hc as [Hc _].
    apply word_not_punct in Hc as [Hc _].
    by destruct (N.eqb_spec c (ch ".")). }
  cbn [rmatch] in Hopt |- *. rewrite Hopt. subst K. cbn beta.
  rewrite rmatch_Group.
  change (rmatch (Rep true 1 CWord) inp ?s ?g ?k)
    with (rep_greedy CWord (λ s', k s' g) 1 s).
  apply rep_greedy_take; [done|done| |].
  - destruct name; [done|simpl; lia].
  - cbn beta. rewrite !take_length_app. by apply rmatch_block_open.
Qed.

Lemma match_at_single_statement (name body : pystr) :
  name ≠ [] → Forall is_word name →
  (∀ b1 b2, body = b1 ++ ch ")" :: b2 → ¬ ends_block (b2 ++ py ");")) →
  let sql := py "CREATE TABLE " ++ name ++ py " (" ++ body ++ py ");" in
  match_at table_pattern sql sql
  = Some (Match [] (<[3%nat := body]>
                      (<[1%nat := name]> (<[2%nat := name]> ∅)))).
Proof.
  intros Hne Hname Hbody sql. subst sql. unfold match_at.
  rewrite table_pattern_parts.
  generalize (py "CREATE TABLE " ++ name ++ py " (" ++ body ++ py ");") at 1.
  intros inp.
  change (py "CREATE TABLE " ++ name ++ py " (" ++ body ++ py ");")
    with (py "CREATE" ++ [ch " "] ++ py "TABLE" ++ [ch " "] ++ name ++ py " ("
          ++ body ++ py ");").
  assert (Hsp : Forall (λ c, charset_mem CSpace c = true) [ch " "]).
  { constructor; [|done]. simpl. by rewrite basic_latin_isspace. }
  rewrite rmatch_lits_take
    by (rewrite basic_latin_tolower; [done|by repeat constructor]).
  rewrite rmatch_Seq.
  change (rmatch (Rep true 1 CSpace) inp ?s ?g ?k)
    with (rep_greedy CSpace (λ s', k s' g) 1 s).
  apply rep_greedy_take; [done| |done|].
  { simpl. by rewrite basic_latin_isspace. }
  cbn beta.
  rewrite rmatch_lits_take
    by (rewrite basic_latin_tolower; [done|by repeat constructor]).
  rewrite rmatch_Seq.
  change (rmatch (Rep true 1 CSpace) inp ?s ?g ?k)
    with (rep_greedy CSpace (λ s', k s' g) 1 s).
  apply rep_greedy_take; [done| |done|].
  - destruct name as [|c name]; [done|].
    apply Forall_cons in Hname as [Hc _]. by apply word_not_space.
  - cbn beta. by apply rmatch_block_name.
Qed.

Lemma ends_block_ends_blockb s : ends_block s → ends_blockb s = true.
Proof.
  intros (ws & t & rest & -> & Hws & Ht). unfold ends_blockb.
  rewrite dropwhile_app_true by done.
  destruct Ht as [->| ->]; simpl; by rewrite basic_latin_isspace.
Qed.

Lemma closes_early_false body b1 b2 :
  closes_early body = false → body = b1 ++ ch ")" :: b2 →
  ¬ ends_block (b2 ++ py ");").
Proof.
  intros Hc -> He%ends_block_ends_blockb.
  induction b1 as [|c b1 IH]; simpl in Hc.
  - rewrite He in Hc. done.
  - apply orb_false_iff in Hc as [_ Hc]. auto.
Qed.

Lemma parse_sql_statement (name body : pystr) :
  name ≠ [] → Forall is_word name → closes_early body = false →
  ∃ class_name,
    class_name_of name = inr class_name ∧
    parse_sql (py "CREATE TABLE " ++ name ++ py " (" ++ body ++ py ");")
    = inr {[ class_name := omap column_of (splitlines body) ]}.
Proof.
  intros Hne Hname Hearly.
  assert (Hbody : ∀ b1 b2, body = b1 ++ ch ")" :: b2 →
                           ¬ ends_block (b2 ++ py ");"))
    by (intros b1 b2; by apply closes_early_false).
  destruct (class_name_of_shape name) as (class_name & Hc & _).
  exists class_name. split; [done|].
  unfold parse_sql, finditer.
  set (sql := py "CREATE TABLE " ++ _).
  assert (Hsql : ∃ c s, sql = c :: s) by (by eexists _, _).
  destruct Hsql as (c & s & Hsql).
  pose proof (match_at_single_statement name body Hne Hname Hbody) as Hm.
  cbv zeta in Hm. fold sql in Hm.
  assert (Hit : finditer_aux table_pattern sql sql 0
    = [Match [] (<[3%nat := body]> (<[1%nat := name]> (<[2%nat := name]> ∅)))]).
  { rewrite Hsql at 2. cbn [finditer_aux]. rewrite <- Hsql, Hm.
    cbn [m_rest length]. rewrite Nat.sub_0_r, Hsql. cbn [length pred].
    rewrite finditer_aux_skip_all; [done|reflexivity]. }
  rewrite Hit. cbn [for_each]. unfold parse_table, group. cbn [m_groups].
  assert (H2 : (<[3%nat := body]> (<[1%nat := name]> (<[2%nat := name]> ∅))
                : captures) !! 2%nat = Some name) by reflexivity.
  assert (H3 : (<[3%nat := body]> (<[1%nat := name]> (<[2%nat := name]> ∅))
                : captures) !! 3%nat = Some body) by reflexivity.
  rewrite H2. cbn [expect mbind result_bind mret result_ret].
  rewrite Hc. cbn [mbind result_bind]. rewrite H3.
  cbn [expect mbind result_bind mret result_ret].
  rewrite for_each_add_column. done.
Qed.
End SingleStatement.

(** The Latin-1 database is such a database. *)
Lemma latin1_basic_latin : @basic_latin Latin1.ucd.
Proof.
  split; [done|]. intros c Hc.
  destruct (@isspace Latin1.ucd c) eqn:Hs; [exfalso|done].
  unfold isalnum, isspace, Latin1.ucd, Latin1.isalnum, Latin1.isspace,
    in_ranges in *.
  cbn [existsb fst snd] in *.
  rewrite ?orb_true_iff, ?andb_true_iff, ?N.leb_le in *. lia.
Qed.

(** X8: a single statement is parsed, on every database that is Unicode's
    on Basic Latin and has no alphanumeric white space.  For a table name
    of word characters and a body none of whose closing parentheses is
    followed by white space and a semicolon or number sign, the text
    [CREATE TABLE name (body);] gives the catalog of one class: the class
    name of the table, with the columns of the lines of the body. *)
Theorem parse_sql_single_statement `{U : UCD} (name body : pystr) :
  basic_latin →
  name ≠ [] → Forall is_word name → closes_early body = false →
  ∃ class_name,
    class_name_of name = inr class_name ∧
    parse_sql (py "CREATE TABLE " ++ name ++ py " (" ++ body ++ py ");")
    = inr {[ class_name := omap column_of (splitlines body) ]}.
Proof. intros HU. by apply parse_sql_statement. Qed.

(** ** The auto-mapper, further *)

Section AutoMapSound.
Context `{U : UCD} (fuzz : fuzz_module) (process : process_module).
Context (synonyms_dict : gmap pystr (list pystr)) (threshold : Z).
Context (layer_fields : list pystr).

Local Abbreviation nlf := ((λ field, (field, normalize_str field)) <$> layer_fields).
Local Abbreviation step := (map_attribute fuzz process synonyms_dict threshold nlf).
Local Abbreviation chosen := (chosen fuzz process synonyms_dict threshold layer_fields).

(** The two outcomes of the loop body, with what the search for the
    original field gives. *)
Lemma map_attribute_chosen st attr :
  (∃ field, chosen attr field ∧ (normalize_str field ∉ st.2) ∧
            step st attr
            = (<[attr := Some field]> st.1, {[normalize_str field]} ∪ st.2)) ∨
  step st attr = (<[attr := None]> st.1, st.2).
Proof.
  unfold map_attribute.
  destruct (best_match_of st.2 _) as [bm|] eqn:Hbest; [left|by right].
  apply best_match_of_Some in Hbest as [Hin Hfresh].
  apply sorted_matches_keys in Hin as [Hin Hc].
  destruct (find_original _ _ Hin) as (p & Hfind & _ & _). rewrite Hfind.
  apply find_first in Hfind as (L1 & L2 & E & Hp & HL1).
  apply bool_decide_eq_true in Hp. subst bm.
  apply fmap_app_inv in E as (l1 & l' & E1 & E' & ->).
  symmetry in E'. apply fmap_cons_inv in E' as (field & l2 & -> & -> & ->).
  subst L1. simpl in *. exists field. repeat split; try done.
  exists l1, l2. split; [done|]. apply Forall_fmap in HL1.
  eapply Forall_impl; [exact HL1|]. simpl. intros f Hf.
  by apply bool_decide_eq_false in Hf.
Qed.

Lemma map_attributes_sound model_attributes a v :
  (map_attributes fuzz process synonyms_dict threshold
     model_attributes layer_fields).1 !! a = Some v →
  a ∈ model_attributes ∧ ∀ field, v = Some field → chosen a field.
Proof.
  unfold map_attributes.
  pose (J := λ st : gmap pystr (option pystr) * gset pystr, ∀ a v,
     st.1 !! a = Some v →
     a ∈ model_attributes ∧ ∀ field, v = Some field → chosen a field).
  revert a v. change (J (foldl step (∅, ∅) model_attributes)).
  apply foldl_invariant; [|intros a v; simpl; by rewrite lookup_empty].
  intros st attr Hattr Hst a v.
  destruct (map_attribute_chosen st attr) as [(field & Hch & _ & ->)| ->]; simpl;
    rewrite lookup_insert; (case_decide as E; [|apply Hst]); intros [= <-];
    subst a; (split; [done|]).
  - by intros f [= <-].
  - done.
Qed.

Lemma size_list_to_set_le (l : list pystr) :
  (size (list_to_set l : gset pystr) ≤ length l)%nat.
Proof.
  induction l as [|x l IH]; [by rewrite list_to_set_nil, size_empty|].
  rewrite list_to_set_cons, size_union_alt, size_singleton. simpl.
  assert (Hs : list_to_set l ∖ {[x]} ⊆ (list_to_set l : gset pystr)).
  { intros y Hy. by apply elem_of_difference in Hy as [? _]. }
  apply subseteq_size in Hs. lia.
Qed.

Lemma map_attributes_count model_attributes :
  let st := map_attributes fuzz process synonyms_dict threshold
              model_attributes layer_fields in
  (count_mapped st.1 ≤ size st.2)%nat ∧
  st.2 ⊆ list_to_set (normalize_str <$> layer_fields).
Proof.
  unfold map_attributes, count_mapped.
  apply (foldl_invariant
    (λ st : gmap pystr (option pystr) * gset pystr,
       (size (filter (λ kv, truthy kv.2 = true) st.1) ≤ size st.2)%nat ∧
       st.2 ⊆ list_to_set (normalize_str <$> layer_fields))).
  - intros st attr _ [Hsize Hsub].
    assert (Hdel : ∀ v : option pystr, truthy v ≠ true →
      (size (filter (λ kv : pystr * option pystr, truthy kv.2 = true)
         (<[attr := v]> st.1)) ≤ size st.2)%nat).
    { intros v Hv. rewrite map_filter_insert_False, map_filter_delete by done.
      rewrite map_size_delete. destruct (_ !! attr); simpl; lia. }
    destruct (map_attribute_chosen st attr) as [(field & Hch & Hfresh & ->)| ->];
      simpl; [|split; [by apply Hdel|done]].
    split.
    + rewrite size_union by by apply disjoint_singleton_l.
      rewrite size_singleton.
      destruct (truthy (Some field)) eqn:Ht.
      * rewrite map_filter_insert_True by done. rewrite map_size_insert.
        destruct (_ !! attr); simpl; lia.
      * specialize (Hdel (Some field)). rewrite Ht in Hdel.
        specialize (Hdel ltac:(done)). lia.
    + destruct Hch as [(l1 & l2 & -> & _) _].
      apply union_subseteq. split; [|done].
      apply singleton_subseteq_l, elem_of_list_to_set.
      rewrite fmap_app, fmap_cons. apply elem_of_app. right.
      apply elem_of_cons. by left.
  - simpl. split; [|apply empty_subseteq].
    rewrite map_filter_empty, map_size_empty. lia.
Qed.
End AutoMapSound.

(** X9: what the mapping of the auto-mapper holds.  It has entries for
    model attributes only; a field an attribute is mapped to is a layer
    field, the first of the layer fields with its normalised name, and
    some candidate of the attribute scores that name at the threshold or
    above. *)
Theorem auto_map_values_are_first_qualifying_fields `{U : UCD}
    (fz : fuzz_module) (pr : process_module)
    (model_attributes layer_fields : list pystr)
    (synonyms_dict : gmap pystr (list pystr)) (threshold : Z)
    (mapping : gmap pystr (option pystr)) :
  auto_map_attributes_with_synonyms (Some fz) (Some pr) model_attributes
    layer_fields synonyms_dict threshold = inr mapping →
  (∀ attr v, mapping !! attr = Some v → attr ∈ model_attributes) ∧
  (∀ attr field, mapping !! attr = Some (Some field) →
     (∃ l1 l2, layer_fields = l1 ++ field :: l2 ∧
               Forall (λ f, normalize_str f ≠ normalize_str field) l1) ∧
     (∃ c, c ∈ candidates_of synonyms_dict attr ∧
           (threshold ≤ score fz pr c (normalize_str field))%Z)).
Proof.
  intros [= <-]. split.
  - intros attr v Hv. by apply map_attributes_sound in Hv as [? _].
  - intros attr field Hv. apply map_attributes_sound in Hv as [_ Hch].
    by apply Hch.
Qed.

(** X10: the number of mapped attributes that the auto-mapping reports
    (the values of the mapping that are true in Python) is at most the
    number of layer fields, and at most the number of entries. *)
Theorem auto_map_count_at_most_fields `{U : UCD}
    (fz : fuzz_module) (pr : process_module)
    (model_attributes layer_fields : list pystr)
    (synonyms_dict : gmap pystr (list pystr)) (threshold : Z)
    (mapping : gmap pystr (option pystr)) :
  auto_map_attributes_with_synonyms (Some fz) (Some pr) model_attributes
    layer_fields synonyms_dict threshold = inr mapping →
  (count_mapped mapping ≤ length layer_fields)%nat ∧
  (count_mapped mapping ≤ size mapping)%nat.
Proof.
  intros [= <-].
  destruct (map_attributes_count fz pr synonyms_dict threshold layer_fields
              model_attributes) as [Hc Hsub]. split.
  - apply subseteq_size in Hsub.
    pose proof (size_list_to_set_le (normalize_str <$> layer_fields)) as Hl.
    rewrite length_fmap in Hl. lia.
  - apply map_subseteq_size, map_filter_subseteq.
Qed.

Section Descending.
Context {A : Type} (key : A → Z).

Lemma insert_desc_descending x l :
  descending key l → descending key (insert_desc key x l).
Proof.
  induction l as [|y l IH]; simpl; [done|]. intros [Hy Hl].
  destruct (Z.ltb_spec (key x) (key y)); simpl.
  - split; [|auto]. rewrite insert_desc_perm. constructor; [lia|done].
  - split; [|done]. constructor; [done|].
    eapply Forall_impl; [exact Hy|]. simpl. intros. lia.
Qed.

Lemma sorted_desc_descending l : descending key (sorted_desc key l).
Proof. induction l; simpl; [done|]. by apply insert_desc_descending. Qed.

Lemma descending_later l1 x l2 y :
  descending key (l1 ++ x :: l2) → y ∈ x :: l2 → (key y ≤ key x)%Z.
Proof.
  induction l1 as [|z l1 IH]; simpl.
  - intros [Hx _] [->|Hy]%elem_of_cons; [lia|].
    by apply (proj1 (Forall_forall _ _) Hx).
  - intros [_ ?]. auto.
Qed.
End Descending.

Section BestMatch.
Context `{U : UCD} (fuzz : fuzz_module) (process : process_module).
Context (synonyms_dict : gmap pystr (list pystr)) (threshold : Z).

Lemma record_match_keeps_rising d r k s :
  (∃ v, dict_get d k = Some v ∧ s ≤ v)%Z →
  (∃ v, dict_get (record_match threshold d r) k = Some v ∧ s ≤ v)%Z.
Proof.
  intros (v & Hv & Hle). unfold record_match.
  destruct (threshold <=? r.2)%Z; [|by exists v].
  destruct (dict_get d r.1) as [old|] eqn:Hget.
  - destruct (Z.ltb_spec old r.2); [|by exists v].
    rewrite dict_get_set. case_decide as E; [|by exists v].
    rewrite E in Hget. simplify_eq. exists r.2. split; [done|lia].
  - rewrite dict_get_set. case_decide as E; [|by exists v].
    rewrite E in Hget. congruence.
Qed.

(** The entry of a field is at least what any candidate scores it, once
    that is the threshold or more. *)
Lemma candidate_matches_max normalized_fields candidates k c :
  k ∈ normalized_fields → c ∈ candidates →
  (threshold ≤ score fuzz process c k)%Z →
  ∃ v, dict_get (candidate_matches_of fuzz process threshold
                   normalized_fields candidates) k = Some v ∧
       (score fuzz process c k ≤ v)%Z.
Proof.
  intros Hk (cs1 & cs2 & ->)%list_elem_of_split Hs.
  unfold candidate_matches_of. rewrite foldl_app. simpl.
  apply (foldl_invariant
    (λ d, ∃ v, dict_get d k = Some v ∧ (score fuzz process c k ≤ v)%Z)).
  - intros d c' _ Hd. apply foldl_invariant; [|done].
    intros d' r _. apply record_match_keeps_rising.
  - assert (Hin : (k, score fuzz process c k) ∈
        extract process c normalized_fields (partial_ratio fuzz)
          (length normalized_fields)) by by apply elem_of_extract.
    apply list_elem_of_split in Hin as (R1 & R2 & ->).
    rewrite foldl_app. simpl. apply foldl_invariant.
    + intros d' r _. apply record_match_keeps_rising.
    + by apply record_match_enters.
Qed.

Lemma best_match_of_first used (l : list (pystr * Z)) bm :
  best_match_of used l = Some bm →
  ∃ l1 v l2, l = l1 ++ (bm, v) :: l2 ∧ (bm ∉ used) ∧
             Forall (λ m, m.1 ∈ used) l1.
Proof.
  unfold best_match_of. destruct (List.find _ l) as [[k v]|] eqn:E; [|done].
  intros [= <-]. apply find_first in E as (l1 & l2 & -> & Hk & Hl1).
  apply bool_decide_eq_true in Hk. exists l1, v, l2. split; [done|].
  split; [done|]. eapply Forall_impl; [exact Hl1|]. simpl.
  intros m Hm. apply bool_decide_eq_false in Hm.
  by apply dec_stable.
Qed.

(** The best match is a free field that some candidate scores at the
    threshold or above, and no candidate scores a free field higher. *)
Lemma best_match_of_best normalized_fields attr used_fields best_match :
  best_match_of used_fields
    (sorted_matches_of fuzz process synonyms_dict threshold
       normalized_fields attr)
  = Some best_match →
  best_match ∈ normalized_fields ∧ (best_match ∉ used_fields) ∧
  ∃ c', c' ∈ candidates_of synonyms_dict attr ∧
        (threshold ≤ score fuzz process c' best_match)%Z ∧
        ∀ field c, field ∈ normalized_fields → field ∉ used_fields →
                   c ∈ candidates_of synonyms_dict attr →
                   (score fuzz process c field
                    ≤ score fuzz process c' best_match)%Z.
Proof.
  intros Hbest. unfold sorted_matches_of in Hbest.
  set (cm := candidate_matches_of fuzz process threshold normalized_fields
               (candidates_of synonyms_dict attr)) in *.
  pose proof (sorted_desc_descending snd cm) as Hdesc.
  apply best_match_of_first in Hbest as (l1 & v & l2 & E & Hfresh & Hl1).
  rewrite E in Hdesc.
  assert (Hin : (best_match, v) ∈ cm).
  { apply (elem_of_sorted_desc snd). rewrite E. apply elem_of_app. right.
    apply elem_of_cons. by left. }
  destruct (candidate_matches_elem _ _ _ _ _ _ _ Hin) as (Hv & Hf & c' & Hc' & ->).
  split; [done|]. split; [done|]. exists c'. split; [done|]. split; [done|].
  intros field c Hfield Hfree Hc.
  destruct (Z.le_gt_cases threshold (score fuzz process c field)) as [Hs|Hs]; [|lia].
  destruct (candidate_matches_max normalized_fields _ _ _
              Hfield Hc Hs) as (w & Hw & Hle). fold cm in Hw.
  apply dict_get_Some, (elem_of_sorted_desc snd) in Hw. rewrite E in Hw.
  apply elem_of_app in Hw as [Hw|Hw].
  - destruct Hfree. by apply (proj1 (Forall_forall _ _) Hl1 _ Hw).
  - pose proof (descending_later snd _ _ _ _ Hdesc Hw) as Hd. simpl in Hd. lia.
Qed.

(** The same of the loop body, on the layer fields. *)
Lemma map_attribute_best layer_fields st attr field :
  (map_attribute fuzz process synonyms_dict threshold
     ((λ field, (field, normalize_str field)) <$> layer_fields) st attr).1
    !! attr = Some (Some field) →
  field ∈ layer_fields ∧ (normalize_str field ∉ st.2) ∧
  ∃ c', c' ∈ candidates_of synonyms_dict attr ∧
        (threshold ≤ score fuzz process c' (normalize_str field))%Z ∧
        ∀ f c, f ∈ layer_fields → normalize_str f ∉ st.2 →
               c ∈ candidates_of synonyms_dict attr →
               (score fuzz process c (normalize_str f)
                ≤ score fuzz process c' (normalize_str field))%Z.
Proof.
  intros Hv.
  destruct (map_attribute_first fuzz process synonyms_dict threshold
              layer_fields st attr)
    as [(field' & l1 & l2 & E & _ & Hbest & Hst)|[_ Hst]];
    rewrite Hst in Hv; simpl in Hv; rewrite lookup_insert_eq in Hv; [|done].
  injection Hv as ->.
  apply best_match_of_best in Hbest as (_ & Hfresh & c' & Hc' & Hle & Hmax).
  split; [|split; [done|]].
  { rewrite E. apply elem_of_app. right. apply elem_of_cons. by left. }
  exists c'. split; [done|]. split; [done|]. intros f c Hf Hfree Hc.
  apply Hmax; [|done|done].
  rewrite normalized_fields_fmap. apply list_elem_of_fmap. by exists f.
Qed.
End BestMatch.

(** X11: the field an attribute is mapped to is the best of the free
    ones.  In the loop body, the field given to the attribute is a layer
    field whose normalised name no earlier attribute has used; some
    candidate of the attribute scores it at the threshold or above, and no
    candidate scores any layer field whose normalised name is free higher
    than that.  So in the mapping of a call with distinct model
    attributes: the field of an attribute shares its normalised name with
    the field of no earlier attribute, and it scores at least as high as
    every layer field that does not either. *)
Theorem best_match_is_best_of_free_fields `{U : UCD}
    (fz : fuzz_module) (pr : process_module)
    (synonyms_dict : gmap pystr (list pystr)) (threshold : Z)
    (layer_fields : list pystr) (attr field : pystr) :
  let normalized_layer_fields :=
    (λ field, (field, normalize_str field)) <$> layer_fields in
  let best_of (free : pystr → Prop) :=
    ∃ c', c' ∈ candidates_of synonyms_dict attr ∧
          (threshold ≤ score fz pr c' (normalize_str field))%Z ∧
          ∀ f c, f ∈ layer_fields → free f →
                 c ∈ candidates_of synonyms_dict attr →
                 (score fz pr c (normalize_str f)
                  ≤ score fz pr c' (normalize_str field))%Z in
  (∀ st,
     (map_attribute fz pr synonyms_dict threshold normalized_layer_fields
        st attr).1 !! attr = Some (Some field) →
     field ∈ layer_fields ∧ (normalize_str field ∉ st.2) ∧
     best_of (λ f, normalize_str f ∉ st.2)) ∧
  (∀ earlier later mapping,
     NoDup (earlier ++ attr :: later) →
     auto_map_attributes_with_synonyms (Some fz) (Some pr)
       (earlier ++ attr :: later) layer_fields synonyms_dict threshold
     = inr mapping →
     mapping !! attr = Some (Some field) →
     let taken n :=
       ∃ a f, a ∈ earlier ∧ mapping !! a = Some (Some f) ∧
              normalize_str f = n in
     field ∈ layer_fields ∧ ¬ taken (normalize_str field) ∧
     best_of (λ f, ¬ taken (normalize_str f))).
Proof.
  intros nlf best_of. split.
  - intros st Hv. by apply map_attribute_best.
  - intros earlier later mapping Hnd [= <-]. unfold map_attributes.
    destruct (map_attributes_at fz pr synonyms_dict threshold layer_fields
                earlier attr later Hnd) as [Hattr Hused].
    cbv zeta in Hattr, Hused. fold nlf in Hattr, Hused |- *.
    set (st := foldl _ (∅, ∅) earlier) in *.
    rewrite Hattr. intros Hv. cbv zeta.
    apply map_attribute_best in Hv as (Hin & Hfresh & c' & Hc' & Hle & Hmax).
    split; [done|]. split; [by rewrite <- Hused|].
    exists c'. split; [done|]. split; [done|]. intros f c Hf Hfree Hc.
    apply Hmax; [done| |done]. by rewrite Hused.
Qed.

(** X12: a similarity is a percentage, so with a threshold above 100
    every attribute is mapped to [None]. *)
Theorem auto_map_threshold_above_100 `{U : UCD}
    (fuzz : option fuzz_module) (process : option process_module)
    (model_attributes layer_fields : list pystr)
    (synonyms_dict : gmap pystr (list pystr)) (threshold : Z)
    (mapping : gmap pystr (option pystr)) :
  (100 < threshold)%Z →
  auto_map_attributes_with_synonyms fuzz process model_attributes layer_fields
    synonyms_dict threshold = inr mapping →
  ∀ attr v, mapping !! attr = Some v → v = None.
Proof.
  intros Hth. destruct fuzz as [fz|], process as [pr|]; try done.
  intros [= <-]. unfold map_attributes.
  apply (foldl_invariant
    (λ st : gmap pystr (option pystr) * gset pystr,
       ∀ attr v, st.1 !! attr = Some v → v = None)).
  - intros st a _ Hst attr v. rewrite map_attribute_unmapped.
    + simpl. rewrite lookup_insert. case_decide; [congruence|apply Hst].
    + intros k _ (c & _ & Hs).
      pose proof (partial_ratio_range fz (default_processor pr c)
                    (default_processor pr k)) as Hr.
      unfold score in Hs. lia.
  - intros attr v. simpl. by rewrite lookup_empty.
Qed.

(** ** Normalised names *)

Section StripProps.
Context `{U : UCD}.

Lemma rdrop_head {A} (p : A → bool) (l : list A) :
  match l with [] => True | x :: _ => p x = false end →
  match rev (dropwhile p (rev l)) with [] => True | x :: _ => p x = false end.
Proof.
  destruct l as [|x l]; [done|]. intros Hx. rewrite rdrop_cons.
  destruct (rev (dropwhile p (rev l))); [|done]. by rewrite Hx.
Qed.

(** A stripped string neither begins nor ends with white space. *)
Lemma strip_ends s :
  match strip s with [] => True | c :: _ => isspace c = false end ∧
  match rev (strip s) with [] => True | c :: _ => isspace c = false end.
Proof.
  unfold strip. split.
  - apply rdrop_head, dropwhile_head.
  - rewrite rev_involutive. apply dropwhile_head.
Qed.
End StripProps.

(** X13: the form of a normalised name.  It has no low line and neither
    begins nor ends with white space; over a character database that
    satisfies [UCDLaws] each of its code points is a starter without
    decomposition that lower-casing leaves as it is, and none is the
    capital sigma. *)
Theorem normalize_str_normal_form `{U : UCD} (s : pystr) :
  (LOW_LINE ∉ normalize_str s) ∧
  match normalize_str s with [] => True | c :: _ => isspace c = false end ∧
  match rev (normalize_str s) with [] => True | c :: _ => isspace c = false end ∧
  (UCDLaws →
   Forall (λ c, decomposition c = [c] ∧ combining c = 0 ∧ lower_full c = [c] ∧
                c ≠ CAPITAL_SIGMA) (normalize_str s)).
Proof.
  split; [|split; [|split]].
  - unfold normalize_str. intros Hin.
    pose proof (Forall_strip (λ x, x ≠ LOW_LINE) _
                  (Forall_remove_char LOW_LINE
                     (lower (List.filter (λ c, combining c =? 0) (nfkd s)))))
      as H.
    by apply (proj1 (Forall_forall _ _) H _ Hin).
  - apply strip_ends.
  - apply strip_ends.
  - intros L. unfold normalize_str. apply Forall_strip, Forall_list_filter.
    apply (lower_aux_settled []), nfkd_starters_stable.
Qed.

(** ** The pages of the wizard *)

(** X14: the order of the pages.  The first page leads to page 1, 2 or 3
    by the button checked (to none, [-1], when no button is checked),
    each of these to page 4, page 4 to page 5, and page 5 is the last; the
    source that [validatePage] records is that of the page [nextId]
    leads to, except that with no button checked it records MANUAL. *)
Theorem wizard_pages_lead_to_the_mapping
    (source : InputSourcePage.page) (w : wizard) :
  let first := page_nextId source 0 in
  let source_of := inputSource (InputSourcePage.validatePage source w).2 in
  (first = 1 ∨ first = 2 ∨ first = 3 ∨ first = -1)%Z ∧
  (first ≠ -1 →
   page_nextId source first = 4 ∧ page_nextId source 4 = 5 ∧ page_nextId source 5 = -1)%Z ∧
  (first = 1%Z ↔ source_of = Some (py "SQL")) ∧
  (first = 2%Z ↔ source_of = Some (py "DB")) ∧
  (first = 3%Z ∨ first = (-1)%Z ↔ source_of = Some (py "MANUAL")) ∧
  (first = (-1)%Z ↔
   InputSourcePage.radioSQL source = false ∧
   InputSourcePage.radioDB source = false ∧
   InputSourcePage.radioManual source = false).
Proof.
  destruct source as [[] [] []]; cbn; intuition (try discriminate; try lia; auto).
Qed.

(** X15: the page of the SQL file.  It accepts exactly when a path is
    given, the file can be read and [parse_sql] finds a class in it, and
    then the wizard holds that catalog; when it rejects, the wizard is as
    before.  The message of a read error is shown only when the file
    cannot be read, never for its contents; a file without the words
    CREATE TABLE is rejected with the message that no class was
    found. *)
Theorem SQLFilePage_validatePage_outcome `{U : UCD}
    (read : pystr → option pystr) (filePath : pystr) (w : wizard) :
  let r := SQLFilePage.validatePage read filePath w in
  (r.1.1 = true ↔
   ∃ sqlContent classes,
     filePath ≠ [] ∧ read filePath = Some sqlContent ∧
     parse_sql sqlContent = inr classes ∧ classes ≠ ∅ ∧
     r = (true, set_classesInfo w classes, [])) ∧
  (r.1.1 = false → r.1.2 = w) ∧
  (sql_read_error ∈ r.2 ↔ filePath ≠ [] ∧ read filePath = None) ∧
  (∀ sqlContent, filePath ≠ [] → read filePath = Some sqlContent →
     ¬ has_create_table sqlContent → r = (false, w, [no_class_in_sql])).
Proof.
  unfold SQLFilePage.validatePage.
  destruct filePath as [|c filePath]; simpl.
  { split; [|split; [|split]].
    - split; [done|]. by intros (? & ? & ? & _).
    - done.
    - split; [by intros ?%list_elem_of_singleton|by intros [? _]].
    - done. }
  destruct (read (c :: filePath)) as [sqlContent|] eqn:Hread.
  - destruct (parse_sql_returns sqlContent) as [classes Hparse]. rewrite Hparse.
    case_bool_decide as Hempty; simpl.
    + split; [|split; [|split]].
      * split; [done|].
        intros (s & cl & _ & [= <-] & Hp & Hne & _). congruence.
      * done.
      * split; [by intros ?%list_elem_of_singleton|by intros [_ ?]].
      * done.
    + split; [|split; [|split]].
      * split; [|done]. intros _. by exists sqlContent, classes.
      * done.
      * split; [by intros ?%elem_of_nil|by intros [_ ?]].
      * intros s _ [= <-] Hno.
        rewrite parse_sql_without_create_table in Hparse by done. congruence.
  - split; [|split; [|split]].
    + split; [done|]. by intros (? & ? & _ & ? & _).
    + done.
    + split; [done|]. intros _. by apply list_elem_of_singleton.
    + done.
Qed.

(** X16: loading from a typed connection keeps what was loaded.
    [loadClasses] leaves the wizard as it was or stores a catalog that is
    not empty, extracted over the stripped fields; with a field blank it
    only warns.  So a catalog loaded before survives a failed load, and
    [validatePage] still accepts. *)
Theorem ManualDBInputPage_loadClasses_keeps_the_catalog `{U : UCD}
    (psycopg2 : option psycopg2_module) (qgis : qgis_module)
    (self : ManualDBInputPage.page) (w : wizard) :
  let r := ManualDBInputPage.loadClasses psycopg2 qgis self w in
  let conn :=
    {| host := strip (ManualDBInputPage.hostEdit self);
       port := strip (ManualDBInputPage.portEdit self);
       dbname := strip (ManualDBInputPage.dbnameEdit self);
       username := strip (ManualDBInputPage.usernameEdit self);
       password := strip (ManualDBInputPage.passwordEdit self) |} in
  (r.1 = w ∨
   ∃ classes, classes ≠ ∅ ∧
     extract_classes_from_db psycopg2 qgis conn = inr classes ∧
     r = (set_classesInfo w classes, [classes_loaded_manual])) ∧
  (host conn = [] ∨ port conn = [] ∨ dbname conn = [] ∨ username conn = [] ∨
   password conn = [] → r = (w, [fill_all_fields])) ∧
  (classesInfo w ≠ ∅ → (ManualDBInputPage.validatePage r.1).1 = true) ∧
  ((ManualDBInputPage.validatePage r.1).1 = true ↔ classesInfo r.1 ≠ ∅).
Proof.
  cbv zeta. unfold ManualDBInputPage.loadClasses.
  set (h := strip (ManualDBInputPage.hostEdit self)).
  set (p := strip (ManualDBInputPage.portEdit self)).
  set (d := strip (ManualDBInputPage.dbnameEdit self)).
  set (u := strip (ManualDBInputPage.usernameEdit self)).
  set (pw := strip (ManualDBInputPage.passwordEdit self)).
  assert (Hval : ∀ w', (ManualDBInputPage.validatePage w').1 = true ↔
                       classesInfo w' ≠ ∅).
  { intros w'. unfold ManualDBInputPage.validatePage.
    case_bool_decide; simpl; split; done. }
  destruct (nonempty h && nonempty p && nonempty d && nonempty u && nonempty pw)
    eqn:Hall; simpl.
  - apply andb_true_iff in Hall as [Hall ?].
    apply andb_true_iff in Hall as [Hall ?].
    apply andb_true_iff in Hall as [Hall ?].
    apply andb_true_iff in Hall as [? ?].
    assert (Hblank : ¬ (h = [] ∨ p = [] ∨ d = [] ∨ u = [] ∨ pw = [])).
    { intros [->|[->|[->|[->| ->]]]]; done. }
    destruct (extract_classes_from_db psycopg2 qgis _) as [e|classes] eqn:E.
    + simpl. split; [by left|]. split; [done|]. split; [apply Hval|apply Hval].
    + case_bool_decide as Hempty; simpl.
      * split; [by left|]. split; [done|]. split; [apply Hval|apply Hval].
      * split; [right; by exists classes|]. split; [done|].
        split; [|apply Hval]. intros _. by apply Hval.
  - split; [by left|]. split; [done|]. split; [apply Hval|apply Hval].
Qed.

Lemma set_classesInfo_same w : set_classesInfo w (classesInfo w) = w.
Proof. by destruct w. Qed.

Section DBInputPageProps.
Context `{U : UCD}.
Context (settings : QSettings) (authManager : option QgsAuthManager).
Context (psycopg2 : option psycopg2_module) (qgis : qgis_module).

Lemma connect_cases conn w :
  classesInfo w = ∅ →
  ∃ classes,
    (DBInputPage.connect psycopg2 qgis conn w).1 = set_classesInfo w classes ∧
    (classes = ∅ ∨
     (classes ≠ ∅ ∧ extract_classes_from_db psycopg2 qgis conn = inr classes)).
Proof.
  intros Hw. unfold DBInputPage.connect.
  destruct (extract_classes_from_db psycopg2 qgis conn) as [e|classes].
  - exists ∅. split; [|by left].
    destruct e; simpl; try done. by rewrite <- Hw, set_classesInfo_same.
  - case_bool_decide; simpl.
    + exists ∅. split; [done|by left].
    + exists classes. split; [done|by right].
Qed.

(** What [loadClasses] leaves in the wizard once a connection is
    selected. *)
Lemma loadClasses_cases self w :
  DBInputPage.connCombo self ≠ [] →
  ∃ classes,
    (DBInputPage.loadClasses settings authManager psycopg2 qgis self w).1.2
    = set_classesInfo w classes ∧
    (classes = ∅ ∨
     ∃ conn, classes ≠ ∅ ∧
             extract_classes_from_db psycopg2 qgis conn = inr classes).
Proof.
  intros Hname. unfold DBInputPage.loadClasses.
  destruct (DBInputPage.connCombo self) as [|c name]; [done|]. simpl.
  assert (H0 : ∃ classes, set_classesInfo w ∅ = set_classesInfo w classes ∧
    (classes = ∅ ∨
     ∃ conn, classes ≠ ∅ ∧
             extract_classes_from_db psycopg2 qgis conn = inr classes)).
  { exists ∅. split; [done|by left]. }
  destruct (settings !! (c :: name)) as [group|]; [|done].
  destruct (DBInputPage.authentication authManager (settings_value group (py "authcfg")))
    as [[found msgs]|]; [|done].
  destruct (DBInputPage.direct_credentials (settings_value group (py "username"))
              (settings_value group (py "password")) found)
    as [[username password] pf].
  destruct (_ && negb _); [done|].
  destruct username as [user|]; [|done].
  set (pass' := if negb pf || negb (bool_decide (is_Some password))
               then Some (strip (DBInputPage.passwordEdit self)) else password).
  destruct pass' as [pass|]; [|done].
  destruct (nonempty (settings_value group (py "host")) &&
            nonempty (settings_value group (py "port")) &&
            nonempty (settings_value group (py "database"))); [|done].
  destruct (connect_cases
    (Build_connection (settings_value group (py "host")) (settings_value group (py "port"))
       (settings_value group (py "database")) user pass) (set_classesInfo w ∅) eq_refl)
    as (classes & Hw' & Hc).
  destruct (DBInputPage.connect psycopg2 qgis _ (set_classesInfo w ∅))
    as [w' msgs'] eqn:E. simpl in *. subst w'. exists classes. split; [done|].
  destruct Hc as [?|[? ?]]; [by left|right; by eexists].
Qed.
End DBInputPageProps.

(** X17: loading from a stored connection forgets what was loaded.
    Without a connection selected [loadClasses] only warns.  With one
    selected its result does not depend on the catalog held before, only
    the catalog of the wizard changes, and [validatePage] accepts
    afterwards exactly when this load has extracted a catalog that is not
    empty. *)
Theorem DBInputPage_loadClasses_forgets_the_catalog `{U : UCD}
    (settings : QSettings) (authManager : option QgsAuthManager)
    (psycopg2 : option psycopg2_module) (qgis : qgis_module)
    (self : DBInputPage.page) (w : wizard) :
  let loadClasses := DBInputPage.loadClasses settings authManager psycopg2 qgis in
  (DBInputPage.connCombo self = [] →
   loadClasses self w = (self, w, [select_connection])) ∧
  (DBInputPage.connCombo self ≠ [] →
   loadClasses self w = loadClasses self (set_classesInfo w ∅) ∧
   (loadClasses self w).1.2
   = set_classesInfo w (classesInfo (loadClasses self w).1.2) ∧
   (DBInputPage.validatePage (loadClasses self w).1.2 = true ↔
    ∃ conn, classesInfo (loadClasses self w).1.2 ≠ ∅ ∧
            extract_classes_from_db psycopg2 qgis conn
            = inr (classesInfo (loadClasses self w).1.2))).
Proof.
  cbv zeta. split.
  - intros E. unfold DBInputPage.loadClasses. by rewrite E.
  - intros Hname. split; [|split].
    + unfold DBInputPage.loadClasses.
      by destruct (DBInputPage.connCombo self).
    + destruct (loadClasses_cases settings authManager psycopg2 qgis self w Hname)
        as (classes & -> & _). done.
    + destruct (loadClasses_cases settings authManager psycopg2 qgis self w Hname)
        as (classes & -> & Hc). unfold DBInputPage.validatePage. simpl.
      case_bool_decide as Hempty; simpl.
      * split; [done|]. by intros (_ & ? & _).
      * split; [|done]. intros _.
        destruct Hc as [?|(conn & ? & ?)]; [done|]. by exists conn.
Qed.

Lemma nonempty_true s : s ≠ [] → nonempty s = true.
Proof. by destruct s. Qed.

(** X18: the credentials of a stored connection.  A user name and a
    password that the authentication manager holds are the ones used,
    whatever the settings and the password field hold; without stored
    authentication, a user name and password of the settings are used;
    with no stored password and nothing typed, the password is asked for
    and no connection is made; with neither stored authentication nor a
    user name in the settings no connection is ever made. *)
Theorem DBInputPage_loadClasses_credentials `{U : UCD}
    (settings : QSettings) (authManager : option QgsAuthManager)
    (psycopg2 : option psycopg2_module) (qgis : qgis_module)
    (self : DBInputPage.page) (w : wizard) (group : gmap pystr pystr) :
  DBInputPage.connCombo self ≠ [] →
  settings !! DBInputPage.connCombo self = Some group →
  let r := DBInputPage.loadClasses settings authManager psycopg2 qgis self w in
  let connect user pass :=
    DBInputPage.connect psycopg2 qgis
      {| host := settings_value group (py "host"); port := settings_value group (py "port");
         dbname := settings_value group (py "database");
         username := user; password := pass |}
      (set_classesInfo w ∅) in
  let complete :=
    settings_value group (py "host") ≠ [] ∧ settings_value group (py "port") ≠ [] ∧
    settings_value group (py "database") ≠ [] in
  (∀ auth_manager mconfig user pass,
     settings_value group (py "authcfg") ≠ [] →
     authManager = Some auth_manager →
     auth_manager (settings_value group (py "authcfg")) = Some mconfig →
     config mconfig (py "username") = Some (Some user) →
     config mconfig (py "password") = Some (Some pass) →
     complete →
     r.1.2 = (connect user pass).1 ∧ r.2 = (connect user pass).2) ∧
  (settings_value group (py "authcfg") = [] →
   settings_value group (py "username") ≠ [] → settings_value group (py "password") ≠ [] →
   complete →
   r.1.2 = (connect (settings_value group (py "username"))
                    (settings_value group (py "password"))).1) ∧
  (settings_value group (py "authcfg") = [] → settings_value group (py "password") = [] →
   strip (DBInputPage.passwordEdit self) = [] →
   r = ({| DBInputPage.connCombo := DBInputPage.connCombo self;
           DBInputPage.passwordEdit := DBInputPage.passwordEdit self;
           DBInputPage.passwordHidden := false |},
        set_classesInfo w ∅, [password_needed])) ∧
  (settings_value group (py "authcfg") = [] → settings_value group (py "username") = [] →
   classesInfo r.1.2 = ∅ ∧
   (r.2 = [password_needed] ∨
    ∃ missing, r.2 = [missing_parameters missing] ∧ "Usuário"%string ∈ missing)).
Proof.
  intros Hname Hgroup. cbv zeta. unfold DBInputPage.loadClasses.
  rewrite (nonempty_true _ Hname), Hgroup. cbn [negb].
  split; [|split; [|split]].
  - intros am mconfig user pass Hcfg -> Hload Huser Hpass (Hh & Hp & Hd).
    unfold DBInputPage.authentication.
    rewrite (nonempty_true _ Hcfg), Hload, Huser, Hpass.
    rewrite bool_decide_eq_true_2 by (split; by eexists).
    cbn [DBInputPage.direct_credentials].
    rewrite (bool_decide_eq_true_2 (is_Some (Some pass))) by by eexists.
    cbn [negb orb andb].
    rewrite (nonempty_true _ Hh), (nonempty_true _ Hp), (nonempty_true _ Hd).
    cbn [andb]. by destruct (DBInputPage.connect _ _ _ _).
  - intros Hcfg Huser Hpass (Hh & Hp & Hd).
    unfold DBInputPage.authentication, DBInputPage.direct_credentials.
    rewrite Hcfg. cbn [nonempty].
    rewrite (nonempty_true _ Huser), (nonempty_true _ Hpass).
    rewrite (bool_decide_eq_true_2 (is_Some (Some _))) by by eexists.
    cbn [negb orb andb].
    rewrite (nonempty_true _ Hh), (nonempty_true _ Hp), (nonempty_true _ Hd).
    cbn [andb]. by destruct (DBInputPage.connect _ _ _ _).
  - intros Hcfg Hpass Htyped.
    unfold DBInputPage.authentication, DBInputPage.direct_credentials.
    rewrite Hcfg, Hpass, Htyped. cbn [nonempty].
    by destruct (nonempty (settings_value group (py "username"))).
  - intros Hcfg Huser.
    unfold DBInputPage.authentication, DBInputPage.direct_credentials.
    rewrite Hcfg, Huser. cbn [nonempty].
    destruct (nonempty (settings_value group (py "password"))).
    + rewrite (bool_decide_eq_true_2 (is_Some (Some _))) by by eexists.
      cbn [negb orb andb]. split; [done|]. right. eexists. split; [done|].
      unfold DBInputPage.missing_of.
      rewrite !elem_of_app. right. right. right. left.
      apply list_elem_of_singleton. done.
    + cbn [negb orb andb].
      destruct (nonempty (strip (DBInputPage.passwordEdit self)));
        cbn [negb]; (split; [done|]); [|by left].
      right. eexists. split; [done|].
      unfold DBInputPage.missing_of.
      rewrite !elem_of_app. right. right. right. left.
      apply list_elem_of_singleton. done.
Qed.

Section LayerSelectionPageProps.
Context {G V : Type} (project : QgsProject G V).

(** What an accepted page has recorded. *)
Lemma validatePage_accepted self w :
  let r := LayerSelectionPage.validatePage project self w in
  r.1.1.1 = true →
  selectedClass r.1.2 = LayerSelectionPage.comboClass self ∧
  selectedClass r.1.2 ≠ [] ∧
  (selectedLayerId r.1.2 = [] ↔ inputLayerPath r.1.2 ≠ []) ∧
  (∃ layer, SynMapPlugin.in_layer_of project r.1.2 = Some layer ∧
            isValid layer = true ∧ layerFields r.1.2 = fields layer ∧
            LayerSelectionPage.layerFields r.1.1.2 = fields layer) ∧
  r.2 = [] ∧ classesInfo r.1.2 = classesInfo w.
Proof.
  cbv zeta. unfold LayerSelectionPage.validatePage, SynMapPlugin.in_layer_of.
  destruct (LayerSelectionPage.comboClass self) as [|c cls]; [done|].
  cbn [nonempty negb].
  destruct (LayerSelectionPage.loadedLayersCombo self) as [|i id] eqn:Hid;
    cbn [nonempty negb].
  - destruct (LayerSelectionPage.layerPathEdit self) as [|p path] eqn:Hpath;
      cbn [nonempty negb]; [done|].
    destruct (isValid (ogr project (p :: path))) eqn:Hvalid; [|done].
    simpl. intros _. split; [done|]. split; [done|].
    split; [done|]. split; [|done]. by exists (ogr project (p :: path)).
  - destruct (mapLayer project (i :: id)) as [layer|] eqn:Hlayer; [|done].
    destruct (isValid layer) eqn:Hvalid; [|done].
    simpl. intros _. split; [done|]. split; [done|].
    split; [done|]. split; [|done]. rewrite Hlayer. by exists layer.
Qed.

Lemma validatePage_rejected self w :
  let r := LayerSelectionPage.validatePage project self w in
  r.1.1.1 = false →
  r.1.1.2 = self ∧ r.2 ≠ [] ∧
  layerFields r.1.2 = layerFields w ∧
  selectedLayerId r.1.2 = selectedLayerId w ∧
  inputLayerPath r.1.2 = inputLayerPath w.
Proof.
  cbv zeta. unfold LayerSelectionPage.validatePage.
  destruct (LayerSelectionPage.comboClass self) as [|c cls]; [done|].
  cbn [nonempty negb].
  destruct (LayerSelectionPage.loadedLayersCombo self) as [|i id];
    cbn [nonempty negb].
  - destruct (LayerSelectionPage.layerPathEdit self) as [|p path];
      cbn [nonempty negb]; [done|].
    by destruct (isValid (ogr project (p :: path))).
  - destruct (mapLayer project (i :: id)) as [layer|]; [|done].
    by destruct (isValid layer).
Qed.

Lemma validatePage_keeps self w :
  let r := LayerSelectionPage.validatePage project self w in
  classesInfo r.1.2 = classesInfo w ∧
  attributeMapping r.1.2 = attributeMapping w ∧
  inputSource r.1.2 = inputSource w.
Proof.
  cbv zeta. unfold LayerSelectionPage.validatePage.
  destruct (nonempty (LayerSelectionPage.comboClass self)); [|done].
  cbn [negb].
  destruct (nonempty (LayerSelectionPage.loadedLayersCombo self)).
  - destruct (mapLayer project _) as [layer|]; [|done].
    by destruct (isValid layer).
  - destruct (nonempty (LayerSelectionPage.layerPathEdit self)); [|done].
    cbn [negb]. by destruct (isValid _).
Qed.
End LayerSelectionPageProps.

(** X19: the page of the layer.  When it accepts, the class is the text
    of the class box (any text that is not empty), exactly one of the
    layer identifier and the layer path is set, and the fields recorded
    are those of a valid layer, the layer that [run] will open; when it
    rejects, the layer recorded before stays.  The catalog, the mapping
    and the source are never touched. *)
Theorem LayerSelectionPage_validatePage_records_the_layer {G V : Type}
    (project : QgsProject G V) (self : LayerSelectionPage.page) (w : wizard) :
  let r := LayerSelectionPage.validatePage project self w in
  let w' := r.1.2 in
  (r.1.1.1 = true →
   selectedClass w' = LayerSelectionPage.comboClass self ∧
   selectedClass w' ≠ [] ∧
   (selectedLayerId w' = [] ↔ inputLayerPath w' ≠ []) ∧
   (∃ layer, SynMapPlugin.in_layer_of project w' = Some layer ∧
             isValid layer = true ∧ layerFields w' = fields layer ∧
             LayerSelectionPage.layerFields r.1.1.2 = fields layer) ∧
   r.2 = []) ∧
  (r.1.1.1 = false →
   r.1.1.2 = self ∧ r.2 ≠ [] ∧
   layerFields w' = layerFields w ∧ selectedLayerId w' = selectedLayerId w ∧
   inputLayerPath w' = inputLayerPath w) ∧
  classesInfo w' = classesInfo w ∧ attributeMapping w' = attributeMapping w ∧
  inputSource w' = inputSource w.
Proof.
  cbv zeta. split; [|split].
  - intros Hacc.
    destruct (validatePage_accepted project self w Hacc)
      as (? & ? & ? & ? & ? & _). done.
  - apply validatePage_rejected.
  - apply validatePage_keeps.
Qed.

(** ** Combo boxes *)

Lemma findText_from_spec i l text :
  (findText_from i l text = -1 ∧ text ∉ l)%Z ∨
  ∃ n, findText_from i l text = (i + Z.of_nat n)%Z ∧ l !! n = Some text.
Proof.
  revert i. induction l as [|x l IH]; intros i; simpl.
  - left. split; [done|]. apply not_elem_of_nil.
  - destruct (decide (x = text)) as [->|Hne].
    + right. exists 0%nat. split; [lia|done].
    + destruct (IH (i + 1)%Z) as [[-> Hn]|(n & -> & Hn)].
      * left. split; [done|]. by apply not_elem_of_cons.
      * right. exists (S n). split; [lia|done].
Qed.

Lemma findText_spec combo text :
  (findText combo text = -1 ∧ text ∉ items combo)%Z ∨
  ((0 ≤ findText combo text)%Z ∧
   currentText (setCurrentIndex combo (findText combo text)) = text).
Proof.
  unfold findText.
  destruct (findText_from_spec 0 (items combo) text) as [?|(n & E & Hn)];
    [by left|right].
  rewrite E, Z.add_0_l.
  split; [lia|]. unfold currentText, setCurrentIndex. simpl.
  destruct (Z.ltb_spec (Z.of_nat n) 0); [lia|].
  by rewrite Nat2Z.id, Hn.
Qed.


Section MappingPageProps.
Context `{U : UCD}.

Lemma fill_row_same auto_mapping row :
  (MappingPage.fill_row auto_mapping row).1 = row.1 ∧
  items (MappingPage.fill_row auto_mapping row).2 = items row.2.
Proof.
  unfold MappingPage.fill_row. destruct (truthy _); [|done].
  by destruct (0 <=? _)%Z.
Qed.

Lemma fill_row_mapped auto_mapping row field :
  auto_mapping !! row.1 = Some (Some field) → field ≠ [] →
  field ∈ items row.2 →
  currentText (MappingPage.fill_row auto_mapping row).2 = field.
Proof.
  intros Hm Hne Hin. unfold MappingPage.fill_row. rewrite Hm. simpl.
  destruct field as [|c field]; [done|]. simpl.
  destruct (findText_spec row.2 (c :: field)) as [[_ ?]|[Hidx Ht]]; [done|].
  apply Z.leb_le in Hidx. by rewrite Hidx.
Qed.

Lemma fill_row_unmapped auto_mapping row :
  truthy (auto_mapping !! row.1 ≫= id) = false →
  MappingPage.fill_row auto_mapping row = row.
Proof. intros Hm. unfold MappingPage.fill_row. by rewrite Hm. Qed.

Lemma mapping_of_rows_cons row rows mapping :
  mapping_of_rows (row :: rows) mapping
  = mapping_of_rows rows
      (<[row.1 := if nonempty (currentText row.2)
                  then Some (currentText row.2) else None]> mapping).
Proof. reflexivity. Qed.

Lemma mapping_of_rows_uniform rows (g : pystr → option pystr) mapping a :
  (∀ row, row ∈ rows →
     (if nonempty (currentText row.2) then Some (currentText row.2) else None)
     = g row.1) →
  mapping_of_rows rows mapping !! a
  = if decide (a ∈ rows.*1) then Some (g a) else mapping !! a.
Proof.
  revert mapping. induction rows as [|row rows IH]; intros mapping Hg.
  - case_decide as Hin; [by apply elem_of_nil in Hin|done].
  - rewrite mapping_of_rows_cons, fmap_cons.
    rewrite IH by (intros r Hr; apply Hg, elem_of_cons; by right).
    rewrite Hg by (apply elem_of_cons; by left).
    destruct (decide (a ∈ rows.*1)) as [Hin|Hin].
    + rewrite decide_True; [done|]. apply elem_of_cons. by right.
    + rewrite lookup_insert. destruct (decide (row.1 = a)) as [<-|Hne].
      * rewrite decide_True; [done|]. apply elem_of_cons. by left.
      * rewrite decide_False; [done|]. by intros [?|?]%elem_of_cons.
Qed.

End MappingPageProps.

Section AutoMapDomain.
Context `{U : UCD} (fuzz : fuzz_module) (process : process_module).
Context (synonyms_dict : gmap pystr (list pystr)) (threshold : Z).

Lemma map_attributes_is_Some model_attributes layer_fields a :
  a ∈ model_attributes →
  is_Some ((map_attributes fuzz process synonyms_dict threshold
              model_attributes layer_fields).1 !! a).
Proof.
  unfold map_attributes. induction model_attributes as [|x l IH] using rev_ind.
  - by intros ?%elem_of_nil.
  - rewrite foldl_app. simpl. intros [Hin| ->%list_elem_of_singleton]%elem_of_app.
    + destruct (decide (a = x)) as [->|Hne]; [apply map_attribute_is_Some|].
      rewrite map_attribute_other by done. auto.
    + apply map_attribute_is_Some.
Qed.
End AutoMapDomain.

Lemma validatePage_mapping self w :
  attributeMapping (MappingPage.validatePage self w).2
  = mapping_of_rows (MappingPage.mappingTable self) ∅.
Proof. reflexivity. Qed.

(** X20: the automatic mapping, from the table to the wizard.  On a page
    that [initializePage] has filled, [perform_auto_mapping] returns; it
    reports a number of mapped attributes that is at most the number of
    layer fields, changes no text and no item of the table, and the
    mapping that [validatePage] then stores is the mapping of the
    auto-mapper at threshold 70 over the synonym table, with [None] for a
    value that is false in Python. *)
Theorem MappingPage_auto_mapping_round_trip `{U : UCD}
    (fz : fuzz_module) (pr : process_module)
    (self : MappingPage.page) (w : wizard) :
  classesInfo w ≠ ∅ → selectedClass w ≠ [] → layerFields w ≠ [] →
  let page := (MappingPage.initializePage self w).1 in
  let model_attributes := default [] (classesInfo w !! selectedClass w) in
  ∃ auto_mapping page',
    auto_map_attributes_with_synonyms (Some fz) (Some pr) model_attributes
      (layerFields w) SYNONYMS_DICT 70 = inr auto_mapping ∧
    MappingPage.perform_auto_mapping (Some fz) (Some pr) page w
    = inr (page', [mapping_done (count_mapped auto_mapping)
                     (length (layerFields w))]) ∧
    (count_mapped auto_mapping ≤ length (layerFields w))%nat ∧
    same_rows (MappingPage.mappingTable page) (MappingPage.mappingTable page') ∧
    attributeMapping (MappingPage.validatePage page' w).2
    = (λ v, if truthy v then v else None) <$> auto_mapping.
Proof.
  intros Hc Hs Hl. cbv zeta. unfold MappingPage.initializePage.
  rewrite bool_decide_eq_false_2, nonempty_true, bool_decide_eq_false_2 by done.
  cbn [negb andb fst].
  set (model_attributes := default [] (classesInfo w !! selectedClass w)).
  set (auto_mapping := (map_attributes fz pr SYNONYMS_DICT 70 model_attributes
                          (layerFields w)).1).
  exists auto_mapping,
    {| MappingPage.modelAttributes := Some model_attributes;
       MappingPage.mappingTable :=
         MappingPage.fill_row auto_mapping <$>
           ((λ attr, (attr, combo_of ([] :: layerFields w)))
              <$> model_attributes) |}.
  split; [done|]. split; [done|]. split; [|split].
  - destruct (map_attributes_count fz pr SYNONYMS_DICT 70 (layerFields w)
                model_attributes) as [Hcount Hsub].
    apply subseteq_size in Hsub.
    pose proof (size_list_to_set_le (normalize_str <$> layerFields w)) as Hle.
    rewrite length_fmap in Hle. fold auto_mapping in Hcount. lia.
  - cbn [MappingPage.mappingTable]. unfold same_rows.
    apply Forall2_fmap_r, Forall_Forall2_diag, Forall_forall.
    intros row _. apply fill_row_same.
  - rewrite validatePage_mapping. cbn [MappingPage.mappingTable].
    apply map_eq. intros a. rewrite lookup_fmap.
    rewrite (mapping_of_rows_uniform _
               (λ a, if truthy (auto_mapping !! a ≫= id)
                     then auto_mapping !! a ≫= id else None)).
    + rewrite <- !list_fmap_compose.
      assert (E : ∀ am, (fst ∘ MappingPage.fill_row am ∘
                    (λ attr, (attr, combo_of ([] :: layerFields w))))
                  <$> model_attributes = model_attributes).
      { intros am. rewrite <- (list_fmap_id model_attributes) at 2.
        apply list_fmap_ext. intros i x _. simpl. apply fill_row_same. }
      rewrite E. rewrite lookup_empty.
      destruct (decide (a ∈ model_attributes)) as [Hin|Hin].
      * destruct (map_attributes_is_Some fz pr SYNONYMS_DICT 70 _
                    (layerFields w) _ Hin) as [v Hv].
        fold auto_mapping in Hv. rewrite Hv. done.
      * destruct (auto_mapping !! a) as [v|] eqn:Hv; [|done].
        apply map_attributes_sound in Hv as [? _]. done.
    + intros row (r0 & -> & (attr & -> & Hattr)%list_elem_of_fmap)%list_elem_of_fmap.
      destruct (fill_row_same auto_mapping (attr, combo_of ([] :: layerFields w)))
        as [E1 E2]. rewrite E1. simpl.
      destruct (auto_mapping !! attr) as [[[|c field]|]|] eqn:Hm; simpl.
      * by rewrite fill_row_unmapped by (simpl; by rewrite Hm).
      * rewrite (fill_row_mapped auto_mapping _ (c :: field)); [done|done|done|].
        simpl. apply elem_of_cons. right.
        apply map_attributes_sound in Hm as [_ Hch].
        destruct (Hch _ eq_refl) as [(l1 & l2 & -> & _) _].
        apply elem_of_app. right. apply elem_of_cons. by left.
      * by rewrite fill_row_unmapped by (simpl; by rewrite Hm).
      * by rewrite fill_row_unmapped by (simpl; by rewrite Hm).
Qed.

(** X21: [perform_auto_mapping] raises only [AttributeError], and only
    when the similarity library is there and [initializePage] has never
    set the model attributes; so it raises on a first visit of the page
    with no class, no layer field or an empty catalog, where
    [initializePage] leaves the page as it was made. *)
Theorem MappingPage_perform_auto_mapping_raises `{U : UCD}
    (fuzz : option fuzz_module) (process : option process_module)
    (self : MappingPage.page) (w : wizard) :
  (∀ e, MappingPage.perform_auto_mapping fuzz process self w = inl e ↔
        e = AttributeError ∧ is_Some fuzz ∧ is_Some process ∧
        MappingPage.modelAttributes self = None) ∧
  (classesInfo w = ∅ ∨ selectedClass w = [] ∨ layerFields w = [] →
   (MappingPage.initializePage MappingPage.__init__ w).1 = MappingPage.__init__ ∧
   ∀ fz pr,
     MappingPage.perform_auto_mapping (Some fz) (Some pr)
       (MappingPage.initializePage MappingPage.__init__ w).1 w
     = inl AttributeError).
Proof.
  split.
  - intros e. unfold MappingPage.perform_auto_mapping.
    destruct fuzz as [fz|], process as [pr|]; simpl;
      try (split; [done|by intros (_ & [? ?] & [? ?] & _)]).
    destruct (MappingPage.modelAttributes self) as [attrs|]; simpl.
    + split; [done|]. by intros (_ & _ & _ & ?).
    + split; [intros [= <-]|by intros [-> _]].
      split; [done|]. split; [by eexists|]. split; [by eexists|done].
  - intros Hw.
    assert (E : (MappingPage.initializePage MappingPage.__init__ w).1
                = MappingPage.__init__).
    { unfold MappingPage.initializePage.
      destruct Hw as [->|[->| ->]]; [done| |].
      - by rewrite andb_false_r.
      - simpl. by rewrite andb_false_r. }
    split; [done|]. intros fz pr. by rewrite E.
Qed.

Section RunProps.
Context {G V : Type}.
Implicit Types (project : QgsProject G V) (in_feat : QgsFeature G V).


End RunProps.

(** X22: what [run] raises.  A wizard that was not accepted adds no
    layer.  A selected class that the catalog lacks raises [KeyError]; so
    does a class typed into the class box that the catalog lacks, which
    the page of the layer accepts.  With the class in the catalog, an
    input layer that the project no longer has raises
    [AttributeError]. *)
Theorem SynMapPlugin_run_raises {G V : Type}
    (project : QgsProject G V) (w : wizard) :
  SynMapPlugin.run project false w = inr (None, []) ∧
  (classesInfo w !! selectedClass w = None →
   SynMapPlugin.run project true w
   = inl (SynMapPlugin.KeyError (selectedClass w))) ∧
  (is_Some (classesInfo w !! selectedClass w) →
   SynMapPlugin.in_layer_of project w = None →
   SynMapPlugin.run project true w = inl SynMapPlugin.AttributeError) ∧
  (∀ (self : LayerSelectionPage.page) mapping,
     let r := LayerSelectionPage.validatePage project self w in
     r.1.1.1 = true →
     classesInfo w !! LayerSelectionPage.comboClass self = None →
     SynMapPlugin.run project true (set_attributeMapping r.1.2 mapping)
     = inl (SynMapPlugin.KeyError (LayerSelectionPage.comboClass self))).
Proof.
  split; [done|]. split; [|split].
  - intros Hc. unfold SynMapPlugin.run. by rewrite Hc.
  - intros [attrs Hc] Hl. unfold SynMapPlugin.run. by rewrite Hc, Hl.
  - intros self mapping r Hacc Hc.
    destruct (validatePage_accepted project self w Hacc)
      as (Hsel & _ & _ & _ & _ & Hcl).
    fold r in Hsel, Hcl. unfold SynMapPlugin.run. simpl.
    by rewrite Hcl, Hsel, Hc.
Qed.



(** ** On the Latin-1 database and the inputs of the examples *)

Section FurtherExamples.
Local Existing Instance Latin1.ucd.

Lemma extract_classes_from_db_catalog_witness :
  ∃ r, r ∈ two_column_rows ∧ class_name_of r.1.2 = inr (py "rivers") ∧
       layer_fields geom_qgis example_connection r.1.1 r.1.2 r.2
       = Some [py "id"; py "name"].
Proof.
  refine (proj1 (extract_classes_from_db_catalog two_column_psycopg2 geom_qgis
                   example_connection two_column_rows
                   {[ py "rivers" := [py "id"; py "name"] ]} eq_refl _)
            (py "rivers") [py "id"; py "name"] _);
    vm_compute; reflexivity.
Defined.

Lemma get_geometry_tables_last_column_wins_witness :
  ∃ tables,
    get_geometry_tables_from_postgis (Some two_column_psycopg2)
      example_connection = inr tables ∧
    NoDup (dict_keys tables) ∧
    (∀ k, k ∈ dict_keys tables ↔
          ∃ r, r ∈ two_column_rows ∧ k = r.1.1 ++ py "." ++ r.1.2) ∧
    (∀ rows1 r rows2, two_column_rows = rows1 ++ r :: rows2 →
       (∀ r', r' ∈ rows2 →
              r'.1.1 ++ py "." ++ r'.1.2 ≠ r.1.1 ++ py "." ++ r.1.2) →
       dict_get tables (r.1.1 ++ py "." ++ r.1.2) = Some r.2).
Proof.
  exact (get_geometry_tables_last_column_wins two_column_psycopg2
           example_connection two_column_rows eq_refl).
Defined.

Lemma parse_sql_classes_come_from_blocks_witness :
  ∃ pre kw1 ws1 kw2 ws2 qual name ws3 body ws4 t post,
    roads_lines_sql = pre ++ kw1 ++ ws1 ++ kw2 ++ ws2 ++ qual ++ name ++ ws3
                      ++ [ch "("] ++ body ++ [ch ")"] ++ ws4 ++ [t] ++ post ∧
    tolower <$> kw1 = py "create" ∧ tolower <$> kw2 = py "table" ∧
    ws1 ≠ [] ∧ ws2 ≠ [] ∧
    Forall is_space ws1 ∧ Forall is_space ws2 ∧
    Forall is_space ws3 ∧ Forall is_space ws4 ∧
    (qual = [] ∨
     ∃ schema, qual = schema ++ [ch "."] ∧ schema ≠ [] ∧ Forall is_word schema) ∧
    name ≠ [] ∧ Forall is_word name ∧
    (t = ch ";" ∨ t = ch "#") ∧
    class_name_of name = inr (py "roads") ∧
    [py "id"; py "name"] = omap column_of (splitlines body).
Proof.
  apply (parse_sql_classes_come_from_blocks roads_lines_sql
           {[ py "roads" := [py "id"; py "name"] ]});
    vm_compute; reflexivity.
Defined.

Lemma parse_sql_names_are_words_witness :
  Forall is_word (py "roads") ∧
  Forall (λ column, column ≠ [] ∧ Forall is_word column) [py "id"; py "name"].
Proof.
  apply (parse_sql_names_are_words roads_lines_sql
           {[ py "roads" := [py "id"; py "name"] ]});
    vm_compute; reflexivity.
Defined.

Lemma parse_sql_single_statement_witness :
  closes_early roads_body = false ∧
  ∃ class_name,
    class_name_of (py "roads_a") = inr class_name ∧
    parse_sql (py "CREATE TABLE " ++ py "roads_a" ++ py " (" ++ roads_body
               ++ py ");")
    = inr {[ class_name := omap column_of (splitlines roads_body) ]}.
Proof.
  split; [vm_compute; reflexivity|].
  apply (parse_sql_single_statement (py "roads_a") roads_body).
  - exact latin1_basic_latin.
  - done.
  - repeat (constructor; [vm_compute; reflexivity|]). constructor.
  - vm_compute. reflexivity.
Defined.

Lemma auto_map_values_are_first_qualifying_fields_witness :
  (∃ l1 l2, [py "nome_completo"] = l1 ++ py "nome_completo" :: l2 ∧
            Forall (λ f, normalize_str f ≠ normalize_str (py "nome_completo"))
              l1) ∧
  (∃ c, c ∈ candidates_of SYNONYMS_DICT (py "nome") ∧
        (80 ≤ score example_fuzz example_process c
                (normalize_str (py "nome_completo")))%Z).
Proof.
  refine (proj2 (auto_map_values_are_first_qualifying_fields example_fuzz
                   example_process [py "nome"; py "descricao"]
                   [py "nome_completo"] SYNONYMS_DICT 80 example_mapping _)
            (py "nome") (py "nome_completo") _);
    vm_compute; reflexivity.
Defined.

Lemma auto_map_count_at_most_fields_witness :
  (count_mapped example_mapping ≤ length [py "nome_completo"])%nat ∧
  (count_mapped example_mapping ≤ size example_mapping)%nat.
Proof.
  apply (auto_map_count_at_most_fields example_fuzz example_process
           [py "nome"; py "descricao"] [py "nome_completo"] SYNONYMS_DICT 80).
  vm_compute. reflexivity.
Defined.

(** Without synonyms, [name] takes [nome_name], which leaves [nome] the
    choice between [name], at 75, and [nome_completo], at 100. *)
Lemma best_match_is_best_of_free_fields_witness :
  auto_map_attributes_with_synonyms (Some example_fuzz) (Some example_process)
    [py "name"; py "nome"] [py "nome_name"; py "name"; py "nome_completo"]
    ∅ 70
  = inr (<[py "nome" := Some (py "nome_completo")]>
           {[ py "name" := Some (py "nome_name") ]}) ∧
  score example_fuzz example_process (py "nome") (normalize_str (py "nome_name"))
  = 100%Z ∧
  ∃ c', c' ∈ candidates_of ∅ (py "nome") ∧
    (score example_fuzz example_process (py "nome") (normalize_str (py "name"))
     ≤ score example_fuzz example_process c'
         (normalize_str (py "nome_completo")))%Z.
Proof.
  split; [vm_compute; reflexivity|]. split; [vm_compute; reflexivity|].
  destruct (proj2 (best_match_is_best_of_free_fields
              example_fuzz example_process ∅ 70
              [py "nome_name"; py "name"; py "nome_completo"]
              (py "nome") (py "nome_completo"))
              [py "name"] []
              (<[py "nome" := Some (py "nome_completo")]>
                 {[ py "name" := Some (py "nome_name") ]}))
    as (_ & _ & c' & Hc' & _ & Hmax).
  - apply NoDup_cons. split; [|apply NoDup_singleton].
    intros H%list_elem_of_singleton. by vm_compute in H.
  - vm_compute. reflexivity.
  - vm_compute. reflexivity.
  - exists c'. split; [exact Hc'|]. apply Hmax.
    + apply elem_of_cons. right. apply elem_of_cons. by left.
    + intros (a & f & Ha%list_elem_of_singleton & Hf & Hn). subst a.
      vm_compute in Hf. injection Hf as <-. by vm_compute in Hn.
    + apply elem_of_cons. by left.
Defined.

Lemma auto_map_threshold_above_100_witness :
  (100 < 101)%Z ∧
  ∀ attr v,
    (<[py "descricao" := None]> {[ py "nome" := None ]}
       : gmap pystr (option pystr)) !! attr = Some v → v = None.
Proof.
  split; [lia|].
  apply (auto_map_threshold_above_100 (Some example_fuzz) (Some example_process)
           [py "nome"; py "descricao"] [py "nome_completo"] SYNONYMS_DICT 101);
    [lia|vm_compute; reflexivity].
Defined.

Lemma DBInputPage_loadClasses_credentials_witness :
  let r := DBInputPage.loadClasses example_settings (Some example_authManager)
             (Some two_column_psycopg2) geom_qgis example_DBInputPage
             example_wizard in
  let connected :=
    DBInputPage.connect (Some two_column_psycopg2) geom_qgis
      {| host := py "localhost"; port := py "5432"; dbname := py "gis";
         username := py "u"; password := py "p" |}
      (set_classesInfo example_wizard ∅) in
  r.1.2 = connected.1 ∧ r.2 = connected.2.
Proof.
  refine (proj1 (DBInputPage_loadClasses_credentials example_settings
                   (Some example_authManager) (Some two_column_psycopg2)
                   geom_qgis example_DBInputPage example_wizard example_group
                   _ _)
            example_authManager
            {| config key :=
                 Some (if decide (key = py "username") then Some (py "u")
                       else if decide (key = py "password") then Some (py "p")
                       else None) |}
            (py "u") (py "p") _ _ _ _ _ _);
    try done; try (vm_compute; reflexivity).
Defined.

Lemma MappingPage_auto_mapping_round_trip_witness :
  let w :=
    (LayerSelectionPage.validatePage example_project
       example_LayerSelectionPage example_wizard).1.2 in
  let page := (MappingPage.initializePage MappingPage.__init__ w).1 in
  ∃ auto_mapping page',
    auto_map_attributes_with_synonyms (Some example_fuzz)
      (Some example_process) [py "nome"; py "descricao"]
      [py "nome_completo"] SYNONYMS_DICT 70 = inr auto_mapping ∧
    MappingPage.perform_auto_mapping (Some example_fuzz)
      (Some example_process) page w
    = inr (page', [mapping_done (count_mapped auto_mapping) 1]) ∧
    (count_mapped auto_mapping ≤ 1)%nat ∧
    same_rows (MappingPage.mappingTable page) (MappingPage.mappingTable page') ∧
    attributeMapping (MappingPage.validatePage page' w).2
    = (λ v, if truthy v then v else None) <$> auto_mapping.
Proof.
  apply (MappingPage_auto_mapping_round_trip example_fuzz example_process
           MappingPage.__init__
           (LayerSelectionPage.validatePage example_project
              example_LayerSelectionPage example_wizard).1.2).
  - apply insert_non_empty.
  - done.
  - done.
Defined.

End FurtherExamples.
